(** * zplsc_b: the EK60 raw-file parser of mi/instrument/kut/ek60/ooicore

    A shallow embedding of [zplsc_b.py]: the time codec, the sample-datagram
    decoder ([process_sample]), the block scanner and ping aggregation of
    [parse_echogram_file], and the Sv conversion ([power2Sv]); further the
    functions on file names, [read_header], and the power matrices that
    [parse_echogram_file] returns.

    Conventions.
    - numpy integers are [Z] with their wrap-around written out; a [float32]
      field of a datagram is kept as its 32-bit pattern; [float64] values are
      IEEE-754 binary64 numbers ([spec_float] at precision 53).
    - the input file is its byte content and a position; every call that can
      raise returns a sum.
    - a Python [dict] keyed by channel numbers is a key-sorted association
      list: CPython 2 stores small non-negative integer keys at the slot of
      their value, so iteration is in ascending key order. *)

From Stdlib Require Import String Ascii ZArith List Bool Lia Sorted.
From Stdlib Require Reals Lra.
From Stdlib Require Import Floats.SpecFloat.
From coqutil Require Import Byte Word.LittleEndianList.
Import ListNotations.

Local Open Scope Z_scope.

(** ** IEEE-754 binary64 *)

Module Float64.

Definition prec : Z := 53.
Definition emax : Z := 1024.

Definition float : Type := spec_float.

(** Conversion of an integer, rounding to nearest even. *)
Definition of_Z (z : Z) : float := binary_normalize prec emax z 0 false.

Definition add : float -> float -> float := SFadd prec emax.
Definition sub : float -> float -> float := SFsub prec emax.
Definition mul : float -> float -> float := SFmul prec emax.
Definition div : float -> float -> float := SFdiv prec emax.

Definition eqb : float -> float -> bool := SFeqb.

(** Python's [a != b] on floats. *)
Definition neb (a b : float) : bool := negb (eqb a b).

Definition is_nan (a : float) : bool :=
  match a with S754_nan => true | _ => false end.

(** Truncation toward zero, Python's [int(x)]; [None] for infinities and
    NaN, where Python raises. *)
Definition to_Z (a : float) : option Z :=
  match a with
  | S754_zero _ => Some 0
  | S754_finite s m e =>
      let v := if 0 <=? e then Z.shiftl (Zpos m) e
               else Z.shiftr (Zpos m) (- e) in
      Some (if s then - v else v)
  | _ => None
  end.

(** *** Numbers by mantissa and exponent

    [val M E v] says that [M * 2^E] is the integer [v], also for a
    negative exponent. *)

Definition val (M E v : Z) : Prop :=
  M * 2 ^ Z.max 0 E = v * 2 ^ Z.max 0 (- E).

(** [m] and [e] are the mantissa and exponent of the binary64 number of
    value [v], a normal number. *)
Definition canonical (m : positive) (e v : Z) : Prop :=
  val (Zpos m) e v /\ Zpos (digits2_pos m) = 53 /\ - 1074 <= e <= 971.

(** The second half of [binary_round_aux]: the mantissa of [mrs], cut
    to 53 bits with exponent [e], is rounded to nearest even by the
    bits cut off and made a number. *)
Definition finish_round (sx : bool) (mrs : shr_record) (e : Z) : float :=
  let '(mrs', e') :=
    shr_fexp prec emax
             (round_nearest_even (shr_m mrs) (loc_of_shr_record mrs))
             e loc_Exact in
  match shr_m mrs' with
  | Z0 => S754_zero sx
  | Zpos m =>
      if e' <=? emax - prec then S754_finite sx m e' else S754_infinity sx
  | Zneg _ => S754_nan
  end.

End Float64.

(** ** TimeCodec *)

Module TimeCodec.
Import Float64.

Definition is_leap (y : Z) : bool :=
  ((y mod 4 =? 0) && negb (y mod 100 =? 0)) || (y mod 400 =? 0).

(** Days from January 1st of year [y0] to January 1st of year [y0 + n]. *)
Fixpoint days_from (y0 : Z) (n : nat) : Z :=
  match n with
  | O => 0
  | S n' => (if is_leap y0 then 366 else 365) + days_from (y0 + 1) n'
  end.

(** [(NTP_EPOCH - WINDOWS_EPOCH).total_seconds()], from 1601 to 1900. *)
Definition NTP_WINDOWS_DELTA : float :=
  of_Z (days_from 1601 299 * 86400).

(** A numpy [int64] result. *)
Definition int64 (z : Z) : Z := (z + 2 ^ 63) mod 2 ^ 64 - 2 ^ 63.

(** [windows_time / 1e7 - NTP_WINDOWS_DELTA] *)
Definition windows_to_ntp (windows_time : Z) : float :=
  sub (div (of_Z windows_time) (of_Z 10000000)) NTP_WINDOWS_DELTA.

(** [(high_word << 32) + low_word]; the words are numpy [uint32] scalars,
    the shift by a Python int and the sum are carried out in [int64]. *)
Definition build_windows_time (high_word low_word : Z) : Z :=
  int64 (int64 (Z.shiftl high_word 32) + low_word).

(** A 64-bit tick count as the decoder sees it: split into the two 32-bit
    words of the datagram header, then converted. *)
Definition windows_ticks_to_time (x : Z) : float :=
  windows_to_ntp
    (build_windows_time (Z.shiftr x 32) (Z.land x (Z.ones 32))).

(** Modelled from the spec: [time_to_windows_ticks], the converse
    direction named by the round-trip property, is not in the source; it
    undoes [windows_to_ntp] step by step,
    [int((t + NTP_WINDOWS_DELTA) * 1e7)]. *)
Definition time_to_windows_ticks (t : float) : option Z :=
  to_Z (mul (add t NTP_WINDOWS_DELTA) (of_Z 10000000)).

End TimeCodec.

(** ** numpy structured dtypes over little-endian bytes *)

Module Numpy.

(** Field kinds ['iN'], ['uN'], ['aN'], ['fN'] with their width in bytes. *)
Inductive kind : Type :=
| Int (n : nat)
| UInt (n : nat)
| Str (n : nat)
| Flt (n : nat).

Definition width (k : kind) : nat :=
  match k with Int n | UInt n | Str n | Flt n => n end.

Definition dtype : Type := list (string * kind).

Fixpoint itemsize (d : dtype) : nat :=
  match d with
  | [] => 0
  | (_, k) :: d' => width k + itemsize d'
  end.

(** Two's complement reading of an [n]-byte word. *)
Definition signed (n : nat) (z : Z) : Z :=
  if z <? 2 ^ (Z.of_nat n * 8 - 1) then z else z - 2 ^ (Z.of_nat n * 8).

(** The value of a field: a signed or unsigned integer; strings and
    floats are kept as the bit pattern read. *)
Definition decode_field (k : kind) (bs : list byte) : Z :=
  match k with
  | Int n => signed n (le_combine bs)
  | _ => le_combine bs
  end.

Definition encode_field (k : kind) (v : Z) : list byte :=
  le_split (width k) v.

Definition in_range (k : kind) (v : Z) : Prop :=
  match k with
  | Int n => - 2 ^ (Z.of_nat n * 8 - 1) <= v < 2 ^ (Z.of_nat n * 8 - 1)
  | _ => 0 <= v < 2 ^ (Z.of_nat (width k) * 8)
  end.

(** One decoded item: field name to value, in dtype order. *)
Definition record : Type := list (string * Z).

Fixpoint unpack (d : dtype) (bs : list byte) : record :=
  match d with
  | [] => []
  | (name, k) :: d' =>
      (name, decode_field k (firstn (width k) bs))
        :: unpack d' (skipn (width k) bs)
  end.

Fixpoint pack (d : dtype) (vs : list Z) : list byte :=
  match d, vs with
  | (_, k) :: d', v :: vs' => encode_field k v ++ pack d' vs'
  | _, _ => []
  end.

(** [item['name']] *)
Fixpoint field (name : string) (r : record) : Z :=
  match r with
  | [] => 0
  | (n, v) :: r' => if String.eqb n name then v else field name r'
  end.

Definition values (r : record) : list Z := map snd r.

(** Cut [bs] into [n] consecutive chunks of [size] bytes. *)
Fixpoint chunks (n size : nat) (bs : list byte) : list (list byte) :=
  match n with
  | O => []
  | S n' => firstn size bs :: chunks n' size (skipn size bs)
  end.

End Numpy.

(** ** The input file: a byte string and a position *)

Module RawFile.

Record file : Type := mkFile { content : list byte; pos : nat }.

Definition tell (f : file) : nat := pos f.

(** Bytes from the position to the end of the file. *)
Definition rest (f : file) : list byte := skipn (pos f) (content f).

(** [f.seek(offset)]; a negative offset raises. Seeking past the end is
    allowed. *)
Definition seek (f : file) (offset : Z) : option file :=
  if offset <? 0 then None
  else Some (mkFile (content f) (Z.to_nat offset)).

(** [f.read(n)]: up to [n] bytes, fewer at the end of the file. *)
Definition read (n : nat) (f : file) : list byte * file :=
  let raw := firstn n (rest f) in
  (raw, mkFile (content f) (pos f + length raw)%nat).

(** [numpy.fromfile(f, dtype, count)] for a dtype of [size] bytes: the
    complete items available, at most [count] of them (all of them when
    [count] is negative), as raw chunks. A short read leaves the position
    at the end of the file. *)
Definition fromfile (size : nat) (count : Z) (f : file)
  : list (list byte) * file :=
  let avail := length (rest f) in
  let want := if count <? 0 then (avail / size)%nat else Z.to_nat count in
  let n := Nat.min want (avail / size)%nat in
  let used := Nat.min (want * size)%nat avail in
  (Numpy.chunks n size (rest f), mkFile (content f) (pos f + used)%nat).

(** The file holds [before] up to its position and [after] from there. *)
Definition splits (f : file) (before after : list byte) : Prop :=
  content f = before ++ after /\ pos f = length before.

End RawFile.

(** ** SampleDecoder: [process_sample] *)

Module SampleDecoder.
Import Numpy RawFile.
Local Open Scope string_scope.
Local Open Scope list_scope.
Local Open Scope Z_scope.

(** The Sample datagram with its header, little-endian. *)
Definition sample_dtype : dtype :=
  [ ("length1", Int 4);
    ("datagram_type", Str 4);
    ("low_date_time", UInt 4);
    ("high_date_time", UInt 4);
    ("channel_number", Int 2);
    ("mode", Int 2);
    ("transducer_depth", Flt 4);
    ("frequency", Flt 4);
    ("transmit_power", Flt 4);
    ("pulse_length", Flt 4);
    ("bandwidth", Flt 4);
    ("sample_interval", Flt 4);
    ("sound_velocity", Flt 4);
    ("absorption_coefficient", Flt 4);
    ("heave", Flt 4);
    ("roll", Flt 4);
    ("pitch", Flt 4);
    ("temperature", Flt 4);
    ("trawl_upper_depth_valid", Int 2);
    ("trawl_opening_valid", Int 2);
    ("trawl_upper_depth", Flt 4);
    ("trawl_opening", Flt 4);
    ("offset", Int 4);
    ("count", Int 4) ].

Definition power_dtype : dtype := [ ("power_data", Int 2) ].
Definition angle_dtype : dtype := [ ("athwart", Int 1); ("along", Int 1) ].
Definition len_dtype : dtype := [ ("length2", Int 4) ].

Inductive exn : Type := IndexError | IOError | KeyError.

(** What [log.warn] is called with. *)
Inductive log_record : Type :=
| InvalidChannel (channel transducer_count : Z)
| MismatchingLength (length1 length2 : Z).

(** The tuple [process_sample] returns. The power samples are [int16]
    values converted to [float64], which is exact: they are kept as
    integers. *)
Record sample : Type := mkSample {
  channel : Z;
  ntp_time : Float64.float;
  sample_data : record;
  power_data : list Z
}.

Inductive outcome : Type :=
| Return (s : sample)
| InvalidTransducer
| Raise (e : exn).

Definition process_sample (input_file : file) (transducer_count : Z)
  : outcome * list log_record * file :=
  let (items, f1) := fromfile (itemsize sample_dtype) 1 input_file in
  match items with
  | [] => (Raise IndexError, [], f1)
  | item :: _ =>
      let sample_data := unpack sample_dtype item in
      let channel := field "channel_number" sample_data in
      if (channel <? 0) || (transducer_count <? channel) then
        (InvalidTransducer, [InvalidChannel channel transducer_count], f1)
      else
        let windows_time :=
          TimeCodec.build_windows_time
            (field "high_date_time" sample_data)
            (field "low_date_time" sample_data) in
        let ntp_time := TimeCodec.windows_to_ntp windows_time in
        let count := field "count" sample_data in
        let (pitems, f2) := fromfile (itemsize power_dtype) count f1 in
        let power_data :=
          map (fun c => field "power_data" (unpack power_dtype c)) pitems in
        let f3 :=
          if 1 <? field "mode" sample_data
          then snd (fromfile (itemsize angle_dtype) count f2)
          else f2 in
        let (litems, f4) := fromfile (itemsize len_dtype) 1 f3 in
        match litems with
        | [] => (Raise IndexError, [], f4)
        | litem :: _ =>
            let length1 := field "length1" sample_data in
            let length2 := field "length2" (unpack len_dtype litem) in
            (Return (mkSample channel ntp_time sample_data power_data),
             if length1 =? length2 then []
             else [MismatchingLength length1 length2],
             f4)
        end
  end.

(** A sample datagram as written to a raw file: the 88-byte header, the
    power samples, the angle bytes when [mode > 1], the trailing length. *)
Definition encode_sample (header : list Z) (power : list Z)
           (angles : list byte) (length2 : Z) : list byte :=
  pack sample_dtype header
    ++ flat_map (encode_field (Int 2)) power
    ++ angles
    ++ encode_field (Int 4) length2.

(** *** Well-formed sample datagrams

    The record a header of 24 values decodes to, what makes the parts of
    a datagram fit together, and the tuple the decoder is to return. *)

Definition decoded_header (header : list Z) : record :=
  combine (map fst sample_dtype) header.

Definition well_formed (header power : list Z) (angles : list byte)
           (length2 : Z) : Prop :=
  Forall2 in_range (map snd sample_dtype) header /\
  Forall (in_range (Int 2)) power /\
  field "count" (decoded_header header) = Z.of_nat (length power) /\
  length angles
  = (if 1 <? field "mode" (decoded_header header)
     then (2 * length power)%nat else 0%nat) /\
  in_range (Int 4) length2.

Definition decoded (header power : list Z) : sample :=
  let sd := decoded_header header in
  mkSample (field "channel_number" sd)
    (TimeCodec.windows_to_ntp
       (TimeCodec.build_windows_time (field "high_date_time" sd)
                                     (field "low_date_time" sd)))
    sd power.

End SampleDecoder.

(** ** Dictionaries keyed by channel number

    [{}], [d[k] = v], [d[k]], [len(d)] and iteration, on association lists
    kept sorted by key. *)

Module Dict.
Section Dict.
Context {V : Type}.

Definition dict : Type := list (Z * V).

Definition empty : dict := [].

Fixpoint get (k : Z) (d : dict) : option V :=
  match d with
  | [] => None
  | (k', v) :: d' => if k =? k' then Some v else get k d'
  end.

Fixpoint set (k : Z) (v : V) (d : dict) : dict :=
  match d with
  | [] => [(k, v)]
  | (k', v') :: d' =>
      if k <? k' then (k, v) :: d
      else if k =? k' then (k, v) :: d'
      else (k', v') :: set k v d'
  end.

Definition keys (d : dict) : list Z := map fst d.

Definition len (d : dict) : Z := Z.of_nat (length d).

(** [not d] *)
Definition is_empty (d : dict) : bool :=
  match d with [] => true | _ => false end.

End Dict.
Arguments dict : clear implicits.

(** The keys are in strictly increasing order. *)
Definition ordered {V} (d : dict V) : Prop := StronglySorted Z.lt (keys d).

End Dict.

(** ** PingAggregator: the body of the [try] block of [parse_echogram_file] *)

Module PingAggregator.
Import Numpy SampleDecoder.
Local Open Scope string_scope.
Local Open Scope list_scope.
Local Open Scope Z_scope.

(** [first_ping_metadata], a [defaultdict(list)] under the keys of
    [ZplscBParticleKey]. *)
Record metadata : Type := mkMetadata {
  zplsc_timestamp : string;
  filepath : string;
  zplsc_channel : list Z;
  zplsc_transducer_depth : list Z;
  zplsc_frequency : list Z;
  zplsc_transmit_power : list Z;
  zplsc_pulse_length : list Z;
  zplsc_bandwidth : list Z;
  zplsc_sample_interval : list Z;
  zplsc_sound_velocity : list Z;
  zplsc_absorption_coeff : list Z;
  zplsc_temperature : list Z
}.

Definition no_metadata : metadata :=
  mkMetadata "" "" [] [] [] [] [] [] [] [] [] [].

Definition append_metadata (m : metadata) (file_time file_path : string)
           (channel : Z) (sample_data : record) : metadata :=
  mkMetadata file_time file_path
    (zplsc_channel m ++ [channel])
    (zplsc_transducer_depth m ++ [field "transducer_depth" sample_data])
    (zplsc_frequency m ++ [field "frequency" sample_data])
    (zplsc_transmit_power m ++ [field "transmit_power" sample_data])
    (zplsc_pulse_length m ++ [field "pulse_length" sample_data])
    (zplsc_bandwidth m ++ [field "bandwidth" sample_data])
    (zplsc_sample_interval m ++ [field "sample_interval" sample_data])
    (zplsc_sound_velocity m ++ [field "sound_velocity" sample_data])
    (zplsc_absorption_coeff m
       ++ [field "absorption_coefficient" sample_data])
    (zplsc_temperature m ++ [field "temperature" sample_data]).

(** The local variables of [parse_echogram_file] that the loop updates.
    [bin_size] is kept as the two operands [sound_velocity] and
    [sample_interval] of its product. *)
Record state : Type := mkState {
  last_time : option Float64.float;
  sample_data_temp_dict : Dict.dict record;
  power_data_temp_dict : Dict.dict (list Z);
  power_data_dict : Dict.dict (list (list Z));
  data_times : list Float64.float;
  particle_data : option (metadata * Float64.float);
  frequencies : Dict.dict (option Z);
  bin_size : option (Z * Z)
}.

(** [dict.fromkeys(range(1, transducer_count + 1))] *)
Definition trans_keys (transducer_count : Z) : list Z :=
  map (fun i => 1 + Z.of_nat i) (seq 0 (Z.to_nat transducer_count)).

Definition initial (transducer_count : Z) : state :=
  mkState None Dict.empty Dict.empty Dict.empty [] None
    (map (fun k => (k, None)) (trans_keys transducer_count)) None.

(** [next_time != last_time]; [last_time] starts as [None]. *)
Definition time_differs (next_time : Float64.float)
           (last_time : option Float64.float) : bool :=
  match last_time with
  | None => true
  | Some t => Float64.neb next_time t
  end.

(** Lines 383-391: clear the temporary dictionaries on a new time, then
    store the sample under its channel. *)
Definition collect (st : state) (s : sample) : state :=
  let fresh := time_differs (ntp_time s) (last_time st) in
  mkState
    (if fresh then Some (ntp_time s) else last_time st)
    (Dict.set (channel s) (sample_data s)
       (if fresh then Dict.empty else sample_data_temp_dict st))
    (Dict.set (channel s) (power_data s)
       (if fresh then Dict.empty else power_data_temp_dict st))
    (power_data_dict st) (data_times st) (particle_data st)
    (frequencies st) (bin_size st).

Section Aggregate.
Variables (file_time relpath : string) (transducer_count : Z).

(** Line 394 *)
Definition ping_complete (st : state) : bool :=
  (Dict.len (sample_data_temp_dict st)
     =? Dict.len (power_data_temp_dict st))
  && (Dict.len (power_data_temp_dict st) =? transducer_count).

(** Lines 399-408: one pass over [sample_data_temp_dict.iteritems()]. *)
Definition first_ping_step
           (acc : metadata * Dict.dict (option Z) * option (Z * Z))
           (item : Z * record)
  : metadata * Dict.dict (option Z) * option (Z * Z) :=
  let '(m, freqs, bin) := acc in
  let '(channel, sample_data) := item in
  (append_metadata m file_time relpath channel sample_data,
   Dict.set channel (Some (field "frequency" sample_data)) freqs,
   match bin with
   | None => Some (field "sound_velocity" sample_data,
                   field "sample_interval" sample_data)
   | Some b => Some b
   end).

(** Lines 397-411 *)
Definition first_ping (st : state) (next_time : Float64.float) : state :=
  let '(m, freqs, bin) :=
    fold_left first_ping_step (sample_data_temp_dict st)
              (no_metadata, frequencies st, bin_size st) in
  mkState (last_time st) (sample_data_temp_dict st)
    (power_data_temp_dict st)
    (map (fun kv => (fst kv, [])) (power_data_temp_dict st))
    (data_times st) (Some (m, next_time)) freqs bin.

(** Lines 415-416; [None] is the [KeyError] of [power_data_dict[channel]]. *)
Fixpoint save_power (temp : Dict.dict (list Z))
         (pd : Dict.dict (list (list Z)))
  : option (Dict.dict (list (list Z))) :=
  match temp with
  | [] => Some pd
  | (channel, power) :: temp' =>
      match Dict.get channel pd with
      | None => None
      | Some columns =>
          save_power temp' (Dict.set channel (columns ++ [power]) pd)
      end
  end.

(** Lines 383-416 for one decoded sample. *)
Definition aggregate (st : state) (s : sample) : option state :=
  let st1 := collect st s in
  if ping_complete st1 then
    let st2 :=
      if Dict.is_empty (power_data_dict st1)
      then first_ping st1 (ntp_time s) else st1 in
    match save_power (power_data_temp_dict st2) (power_data_dict st2) with
    | None => None
    | Some pd =>
        Some (mkState (last_time st2) (sample_data_temp_dict st2)
                (power_data_temp_dict st2) pd
                (data_times st2 ++ [ntp_time s]) (particle_data st2)
                (frequencies st2) (bin_size st2))
    end
  else Some st1.

(** The aggregator fed a sequence of decoded samples. *)
Fixpoint feed (st : state) (samples : list sample) : option state :=
  match samples with
  | [] => Some st
  | s :: rest =>
      match aggregate st s with
      | None => None
      | Some st' => feed st' rest
      end
  end.

End Aggregate.

(** *** What the aggregator is to establish *)

(** The metadata of a ping, channel by channel in the order of the
    channel map. *)
Definition metadata_from (file_time relpath : string)
           (d : Dict.dict record) : metadata :=
  let column name := map (fun kv => field name (snd kv)) d in
  mkMetadata file_time relpath (Dict.keys d)
    (column "transducer_depth") (column "frequency")
    (column "transmit_power") (column "pulse_length")
    (column "bandwidth") (column "sample_interval")
    (column "sound_velocity") (column "absorption_coefficient")
    (column "temperature").

(** The metadata accumulated over the channel map. *)
Definition extend (file_time relpath : string)
           (m : metadata) (d : Dict.dict record) : metadata :=
  let column name := map (fun kv => field name (snd kv)) d in
  mkMetadata file_time relpath (zplsc_channel m ++ Dict.keys d)
    (zplsc_transducer_depth m ++ column "transducer_depth")
    (zplsc_frequency m ++ column "frequency")
    (zplsc_transmit_power m ++ column "transmit_power")
    (zplsc_pulse_length m ++ column "pulse_length")
    (zplsc_bandwidth m ++ column "bandwidth")
    (zplsc_sample_interval m ++ column "sample_interval")
    (zplsc_sound_velocity m ++ column "sound_velocity")
    (zplsc_absorption_coeff m ++ column "absorption_coefficient")
    (zplsc_temperature m ++ column "temperature").

(** The arrays of a metadata record. *)
Definition columns (m : metadata) : list (list Z) :=
  [ zplsc_channel m; zplsc_transducer_depth m; zplsc_frequency m;
    zplsc_transmit_power m; zplsc_pulse_length m; zplsc_bandwidth m;
    zplsc_sample_interval m; zplsc_sound_velocity m;
    zplsc_absorption_coeff m; zplsc_temperature m ].

(** What holds of the loop variables after any number of samples. *)
Record invariant (transducer_count : Z) (st : state) : Prop := mkInvariant {
  same_keys : Dict.keys (sample_data_temp_dict st)
              = Dict.keys (power_data_temp_dict st);
  temp_ordered : Dict.ordered (sample_data_temp_dict st);
  captured :
    match particle_data st with
    | None => data_times st = [] /\ power_data_dict st = []
    | Some _ => data_times st <> [] /\ power_data_dict st <> []
    end;
  matrices_ordered : Dict.ordered (power_data_dict st);
  matrices_count :
    power_data_dict st <> [] -> Dict.len (power_data_dict st) = transducer_count
}.

(** The state in which the first ping completed, with what was
    captured there. *)
Definition first_completion (file_time relpath : string)
           (transducer_count : Z) (samples : list sample)
           (m : metadata) (t : Float64.float) : Prop :=
  exists before s after st0 st1,
    samples = before ++ s :: after /\
    feed file_time relpath transducer_count
         (initial transducer_count) before = Some st0 /\
    data_times st0 = [] /\
    aggregate file_time relpath transducer_count st0 s = Some st1 /\
    data_times st1 = [ntp_time s] /\
    t = ntp_time s /\
    m = metadata_from file_time relpath (sample_data_temp_dict st1) /\
    Dict.len (sample_data_temp_dict st1) = transducer_count /\
    Dict.keys (power_data_dict st1)
    = Dict.keys (sample_data_temp_dict st1) /\
    (forall c pw,
        Dict.get c (power_data_temp_dict st1) = Some pw ->
        Dict.get c (power_data_dict st1) = Some ([] ++ [pw])).

End PingAggregator.

(** ** DatagramScanner: the [while] loop of [parse_echogram_file] *)

Module Scanner.
Import RawFile SampleDecoder PingAggregator.

(** [BLOCK_SIZE = 1024*4] *)
Definition BLOCK_SIZE : nat := 1024 * 4.

(** Modelled from the spec: [LENGTH_SIZE] is imported from
    [zplsc_echogram], which is not part of this file; the spec gives the
    length prefix of a datagram as 4 bytes. *)
Definition LENGTH_SIZE : nat := 4.

(** The four bytes at offset [i] of [bs] (fewer at the end). *)
Definition window (bs : list byte) (i : nat) : list byte :=
  firstn 4 (skipn i bs).

(** What the loop has produced so far: the aggregator's variables, the
    warnings logged, and the offsets handed to [process_sample]. *)
Record progress : Type := mkProgress {
  agg : state;
  log : list log_record;
  candidates : list nat
}.

Inductive result : Type :=
| Finished (p : progress)
| Raised (e : exn) (p : progress).

Section Scan.
(** Modelled from the spec: [SAMPLE_MATCHER] is imported from
    [zplsc_echogram]; the spec describes it as the search for the
    4-byte datagram-type signature of sample records. Which 4-byte
    words are such a signature is left open here. *)
Variable SAMPLE_MATCHER : list byte -> bool.
Variables (file_time relpath : string) (transducer_count : Z).

(** [SAMPLE_MATCHER.search(raw).start()]: the first offset of [raw]
    whose window is a signature. *)
Fixpoint search (raw : list byte) : option nat :=
  match raw with
  | [] => None
  | _ :: raw' =>
      if SAMPLE_MATCHER (window raw 0) then Some O
      else option_map S (search raw')
  end.

(** One pass through the loop body, lines 371-427, on the block [raw]
    read at [position]; [inl] is the file to read the next block from. *)
Definition scan_block (position : nat) (raw : list byte) (f : file)
           (p : progress) : (file * progress) + result :=
  match search raw with
  | Some start =>
      let match_start := (Z.of_nat start - Z.of_nat LENGTH_SIZE)%Z in
      match seek f (Z.of_nat position + match_start) with
      | None => inr (Raised IOError p)
      | Some f1 =>
          let p1 := mkProgress (agg p) (log p)
                               (candidates p ++ [tell f1]) in
          match process_sample f1 transducer_count with
          | (Return s, warnings, f2) =>
              let p2 := mkProgress (agg p1) (log p1 ++ warnings)
                                   (candidates p1) in
              match aggregate file_time relpath transducer_count
                              (agg p2) s with
              | None => inr (Raised KeyError p2)
              | Some st' =>
                  inl (f2, mkProgress st' (log p2) (candidates p2))
              end
          | (InvalidTransducer, warnings, f2) =>
              inl (f2, mkProgress (agg p1) (log p1 ++ warnings)
                                  (candidates p1))
          | (Raise e, warnings, f2) =>
              inr (Raised e (mkProgress (agg p1) (log p1 ++ warnings)
                                        (candidates p1)))
          end
      end
  | None =>
      match seek f (Z.of_nat position + Z.of_nat BLOCK_SIZE - 4) with
      | None => inr (Raised IOError p)
      | Some f1 => inl (f1, p)
      end
  end.

(** Line 369, [len(raw) > 4] *)
Definition more_to_scan (raw : list byte) : bool :=
  (4 <? length raw)%nat.

(** Lines 367-429: read a block, test it, run the body. *)
Fixpoint scan (fuel : nat) (f : file) (p : progress) : option result :=
  match fuel with
  | O => None
  | S fuel' =>
      let position := tell f in
      let (raw, f1) := read BLOCK_SIZE f in
      if more_to_scan raw then
        match scan_block position raw f1 p with
        | inl (f2, p') => scan fuel' f2 p'
        | inr r => Some r
        end
      else Some (Finished p)
  end.

(** The scan of a file from [position]; every pass moves the position
    forward, so the length of the file bounds the number of passes. *)
Definition parse_loop (bs : list byte) (position : nat) : option result :=
  scan (S (length bs)) (mkFile bs position)
       (mkProgress (initial transducer_count) [] []).

End Scan.

(** *** A signature and a datagram for the examples *)

(** The tag of the sample datagrams of an EK60 file, as the signature of
    the examples. *)
Definition RAW0 : list byte := [Byte.x52; Byte.x41; Byte.x57; Byte.x30].

Definition is_RAW0 (w : list byte) : bool :=
  if list_eq_dec Byte.byte_eq_dec w RAW0 then true else false.

(** The header of a sample datagram of [count] power samples, for the
    examples: tag RAW0, a time stamp of December 2014. *)
Definition example_header (channel mode count : Z) : list Z :=
  [ 84 + 2 * count; le_combine RAW0; 3858759680; 30414661;
    channel; mode; 0; 38000; 0; 0; 0; 0; 0; 0; 0; 0; 0; 0;
    0; 0; 0; 0; 0; count ].

End Scanner.

(** ** SvConverter: [power2Sv]

    The arithmetic of [power2Sv] is numpy floating point. Its operations
    are taken as an interface, and the conversion is written over it with
    the operations in the order Python evaluates them, so that nothing is
    assumed about rounding, associativity or the special values. *)

Module SvConverter.

Class FloatOps (F : Type) : Type := {
  of_int : Z -> F;           (* a Python number as a float *)
  add : F -> F -> F;
  sub : F -> F -> F;
  mul : F -> F -> F;
  div : F -> F -> F;
  pow : F -> F -> F;         (* [x ** y] *)
  log10 : F -> F;            (* [np.log10] *)
  pi : F;                    (* [np.pi] *)
  ltb : F -> F -> bool;      (* [x < y] *)
  eqb : F -> F -> bool       (* [x == y]; [x != y] is its negation *)
}.

Section Power2Sv.
Context {F : Type} `{FloatOps F}.

(** A 2-D numpy array: its shape and its rows. *)
Record array2 : Type := mkArray {
  nrows : nat;
  ncols : nat;
  rows : list (list F)
}.

(** [a[i, j]] *)
Definition at2 (a : array2) (i j : nat) : F :=
  nth j (nth i (rows a) []) (of_int 0).

(** [a.T] *)
Definition transpose (a : array2) : array2 :=
  mkArray (ncols a) (nrows a)
    (map (fun j => map (fun r => nth j r (of_int 0)) (rows a))
         (seq 0 (ncols a))).

(** [a[::-1]] *)
Definition flipud (a : array2) : array2 :=
  mkArray (nrows a) (ncols a) (rev (rows a)).

(** [a op s] for a scalar [s] *)
Definition with_scalar (op : F -> F -> F) (a : array2) (s : F) : array2 :=
  mkArray (nrows a) (ncols a) (map (map (fun x => op x s)) (rows a)).

(** [a op v] for a 1-D array [v], under numpy's broadcasting rule: the
    last axis of [a] and the length of [v] must agree or one of them
    be 1; [None] is the [ValueError] raised otherwise. *)
Definition with_vector (op : F -> F -> F) (a : array2) (v : list F)
  : option array2 :=
  if (ncols a =? length v)%nat then
    Some (mkArray (nrows a) (ncols a)
            (map (fun r => map (fun xy : F * F => op (fst xy) (snd xy))
                               (combine r v)) (rows a)))
  else if (length v =? 1)%nat then
    Some (with_scalar op a (nth 0 v (of_int 0)))
  else if (ncols a =? 1)%nat then
    Some (mkArray (nrows a) (length v)
            (map (fun r => map (op (nth 0 r (of_int 0))) v) (rows a)))
  else None.

(** [a[mask] = values]: the values go, in order, to the positions
    where the mask holds. *)
Fixpoint put_masked (a : list F) (mask : list bool) (values : list F)
  : list F :=
  match a, mask with
  | x :: a', true :: mask' =>
      match values with
      | v :: values' => v :: put_masked a' mask' values'
      | [] => x :: put_masked a' mask' []
      end
  | x :: a', false :: mask' => x :: put_masked a' mask' values
  | _, _ => a
  end.

(** [a[mask]] *)
Fixpoint select (a : list F) (mask : list bool) : list F :=
  match a, mask with
  | x :: a', b :: mask' =>
      if b then x :: select a' mask' else select a' mask'
  | _, _ => []
  end.

(** [a[mask] = s] for a scalar [s] *)
Definition fill_masked (a : list F) (mask : list bool) (s : F) : list F :=
  map (fun xb : F * bool => if snd xb then s else fst xb)
      (combine a mask).

(** The entries of [cal_params[n]] that [power2Sv] reads. The two
    tables come from the configuration datagram as arrays. *)
Record cal_params : Type := mkCal {
  frequency : F;
  soundvelocity : F;
  sampleinterval : F;
  absorptioncoefficient : F;
  gain : F;
  equivalentbeamangle : F;
  pulselengthtable : list F;
  sacorrectiontable : list F;
  transmitpower : F;
  pulselength : F
}.

(** [[i for i, dd in enumerate(table) if dd == tau]] *)
Fixpoint matches_from (i : nat) (table : list F) (tau : F) : list nat :=
  match table with
  | [] => []
  | dd :: table' =>
      if eqb dd tau then i :: matches_from (S i) table' tau
      else matches_from (S i) table' tau
  end.

(** [table[idx]] with a list of indices; [None] is the [IndexError]. *)
Fixpoint take_indices (table : list F) (idx : list nat) : option (list F) :=
  match idx with
  | [] => Some []
  | i :: idx' =>
      match nth_error table i, take_indices table idx' with
      | Some x, Some xs => Some (x :: xs)
      | _, _ => None
      end
  end.

Definition tvgCorrectionFactor : F := of_int 2.

(** Lines 504-505 *)
Definition sample_thickness (cal : cal_params) : F :=
  div (mul (soundvelocity cal) (sampleinterval cal)) (of_int 2).

Definition wavelength (cal : cal_params) : F :=
  div (soundvelocity cal) (frequency cal).

(** Line 508 *)
Definition CSv (cal : cal_params) : F :=
  let wvlen := wavelength cal in
  mul (of_int 10)
    (log10
       (div
          (mul (mul (mul (mul (mul (transmitpower cal)
               (pow (pow (of_int 10) (div (gain cal) (of_int 10)))
                    (of_int 2)))
               (pow wvlen (of_int 2)))
               (soundvelocity cal))
               (pulselength cal))
               (pow (of_int 10)
                    (div (equivalentbeamangle cal) (of_int 10))))
          (mul (of_int 32) (pow pi (of_int 2))))).

(** Lines 511-513; a 1-D array with one entry per matching index. *)
Definition Sac (cal : cal_params) : option (list F) :=
  let idx := matches_from 0 (pulselengthtable cal) (pulselength cal) in
  option_map (map (mul (of_int 2)))
             (take_indices (sacorrectiontable cal) idx).

(** Lines 519-525 *)
Definition rangeCorrected (cal : cal_params) (n : nat) : list F :=
  let dR := sample_thickness cal in
  let range_vec := map (fun k => mul (of_int (Z.of_nat k)) dR) (seq 0 n) in
  let corrected :=
    map (fun r => sub r (mul tvgCorrectionFactor dR)) range_vec in
  fill_masked corrected
              (map (fun r => ltb r (of_int 0)) corrected) (of_int 0).

(** Lines 528-530; [np.empty] is written as zeros, every entry is
    assigned by one of the two statements. *)
Definition TVG (rc : list F) : list F :=
  let nonzero := map (fun r => negb (eqb r (of_int 0))) rc in
  let zero := map (fun r => eqb r (of_int 0)) rc in
  let tvg0 := repeat (of_int 0) (length rc) in
  let tvg1 :=
    put_masked tvg0 nonzero
      (map (fun r => mul (of_int 20) (log10 r)) (select rc nonzero)) in
  fill_masked tvg1 zero (of_int 0).

(** The body of the loop over the channels, lines 495-535, for the
    calibration parameters and the power matrix of one channel. *)
Definition power2Sv_channel (cal : cal_params) (power : array2)
  : option array2 :=
  match Sac cal with
  | None => None
  | Some sac =>
      let rc := rangeCorrected cal (nrows power) in
      let tvg := TVG rc in
      match with_vector add (transpose power) tvg with
      | None => None
      | Some a1 =>
          match with_vector add a1
                  (map (mul (mul (of_int 2) (absorptioncoefficient cal)))
                       rc) with
          | None => None
          | Some a2 =>
              match with_vector sub (with_scalar sub a2 (CSv cal)) sac with
              | None => None
              | Some a3 => Some (flipud (transpose a3))
              end
          end
      end
  end.

(** [power2Sv]: channel [n + 1] is converted with [cal_params[n]];
    [None] when a lookup or a channel's conversion raises. *)
Fixpoint power2Sv_from (n : nat) (count : nat)
         (power_data_dict : Dict.dict array2) (cal : list cal_params)
         (Sv : Dict.dict array2) : option (Dict.dict array2) :=
  match count with
  | O => Some Sv
  | S count' =>
      match nth_error cal n,
            Dict.get (Z.of_nat n + 1) power_data_dict with
      | Some c, Some power =>
          match power2Sv_channel c power with
          | Some sv =>
              power2Sv_from (S n) count' power_data_dict cal
                            (Dict.set (Z.of_nat n + 1) sv Sv)
          | None => None
          end
      | _, _ => None
      end
  end.

Definition power2Sv (power_data_dict : Dict.dict array2)
           (cal : list cal_params) : option (Dict.dict array2) :=
  power2Sv_from 0 (length power_data_dict) power_data_dict cal Dict.empty.

(** *** The arrays of the loop body entry by entry *)

Definition max0 (x : F) : F := if ltb x (of_int 0) then of_int 0 else x.

(** [rangeCorrected[k]] *)
Definition rangeCorrected_at (cal : cal_params) (k : nat) : F :=
  let dR := sample_thickness cal in
  max0 (sub (mul (of_int (Z.of_nat k)) dR) (mul tvgCorrectionFactor dR)).

(** [TVG[k]] *)
Definition TVG_at (cal : cal_params) (k : nat) : F :=
  if eqb (rangeCorrected_at cal k) (of_int 0) then of_int 0
  else mul (of_int 20) (log10 (rangeCorrected_at cal k)).

(** The array of shape [(r, c)] with entry [g i j] at [(i, j)]. *)
Definition tabulate (r c : nat) (g : nat -> nat -> F) : array2 :=
  mkArray r c (map (fun i => map (g i) (seq 0 c)) (seq 0 r)).

(** The array before the Sa correction is subtracted, as the ping
    index runs over the rows. *)
Definition before_Sac (cal : cal_params) (g : nat -> nat -> F)
           (ping k : nat) : F :=
  sub (add (add (g k ping) (TVG_at cal k))
           (mul (mul (of_int 2) (absorptioncoefficient cal))
                (rangeCorrected_at cal k)))
      (CSv cal).

(** A well-shaped array: as many rows as [nrows], each of [ncols]. *)
Definition well_shaped (a : array2) : Prop :=
  length (rows a) = nrows a /\
  Forall (fun r => length r = ncols a) (rows a).

(** *** The conversion as the specification words it

    The formulas below are written from the specification, with its
    names, and use nothing of the definitions above: [c], [t], [f],
    [alpha], [G], [phi], [pt] and [tau] are the calibration parameters
    sound velocity, sample interval, frequency, absorption coefficient,
    gain, equivalent beam angle, transmit power and pulse length. *)









End Power2Sv.
Arguments array2 : clear implicits.
Arguments cal_params : clear implicits.

End SvConverter.

(** The real numbers as an instance of the arithmetic, for the examples. *)
Module RealArith.
Import SvConverter.
Import Reals.

Definition Rltb (x y : R) : bool := if Rlt_dec x y then true else false.
Definition Reqb (x y : R) : bool := if Req_dec_T x y then true else false.

#[export] Instance R_FloatOps : FloatOps R :=
  Build_FloatOps R IZR Rplus Rminus Rmult Rdiv Rpower
                 (fun x => Rdiv (ln x) (ln (IZR 10))) PI Rltb Reqb.

(** A channel at 38 kHz whose pulse length is the entry [at_index] of
    its table, when [matching] holds, and none otherwise. *)
Definition example_cal (matching : bool) : cal_params R :=
  mkCal (IZR 38000) (IZR 1500) (Rdiv (IZR 1) (IZR 1000)) (Rdiv (IZR 1) (IZR 100))
        (IZR 22) (IZR (-21))
        [Rdiv (IZR 1) (IZR 2000); Rdiv (IZR 1) (IZR 1000)]
        [IZR 0; Rdiv (IZR (-3)) (IZR 10)]
        (IZR 1000)
        (if matching then Rdiv (IZR 1) (IZR 1000) else Rdiv (IZR 1) (IZR 3000)).
End RealArith.

(** ** Python [str] values and the operations used on file names *)

Module Str.

Definition str : Type := list ascii.

(** A string literal. *)
Definition lit (s : string) : str := list_ascii_of_string s.

(** [s.startswith(p)] *)
Fixpoint startswith (p s : str) : bool :=
  match p, s with
  | [], _ => true
  | a :: p', b :: s' => Ascii.eqb a b && startswith p' s'
  | _ :: _, [] => false
  end.

(** [s.find(sub)]: the lowest index at which [sub] occurs in [s];
    [None] stands for [-1]. [sub in s] holds when it is not [None], and
    [s.index(sub)] is the index found. *)
Fixpoint find (sub s : str) : option nat :=
  if startswith sub s then Some O
  else match s with
       | [] => None
       | _ :: s' => option_map S (find sub s')
       end.

(** [s.rfind('/')], with [-1] when there is no slash. *)
Fixpoint rfind_slash (s : str) : Z :=
  match s with
  | [] => -1
  | c :: s' =>
      let r := rfind_slash s' in
      if 0 <=? r then r + 1
      else if Ascii.eqb c "/"%char then 0 else -1
  end.

(** [s.replace(old, new)] for a non-empty [old]: occurrences are found
    from the left and do not overlap; [skip] counts the characters of
    an occurrence still to be passed over. *)
Fixpoint replace_from (old new : str) (skip : nat) (s : str) : str :=
  match s with
  | [] => []
  | c :: s' =>
      match skip with
      | S k => replace_from old new k s'
      | O =>
          if startswith old s
          then new ++ replace_from old new (length old - 1) s'
          else c :: replace_from old new 0 s'
      end
  end.

(** [s.replace(old, new)]; an empty [old] matches before every
    character and at the end. *)
Definition replace (old new s : str) : str :=
  match old with
  | [] => new ++ flat_map (fun c => c :: new) s
  | _ :: _ => replace_from old new 0 s
  end.

(** [s.split(sep, 1)] for a non-empty [sep]: one part when [sep] does
    not occur, two otherwise. *)
Definition split_once (sep s : str) : list str :=
  match find sep s with
  | None => [s]
  | Some i => [firstn i s; skipn (i + length sep) s]
  end.

(** [sub] occurs in [s] at index [i]. *)
Definition occurs_at (sub s : str) (i : nat) : Prop :=
  firstn (length sub) (skipn i s) = sub.

End Str.

(** ** [os.path] on POSIX *)

Module PosixPath.
Import Str.

(** [os.path.basename(p)]: what follows the last slash. *)
Definition basename (p : str) : str :=
  skipn (Z.to_nat (rfind_slash p + 1)) p.

(** [a == b] on strings *)
Definition str_eqb (a b : str) : bool :=
  if list_eq_dec ascii_dec a b then true else false.

(** [s.rstrip('/')] *)
Fixpoint rstrip_slash (s : str) : str :=
  match s with
  | [] => []
  | c :: s' =>
      match rstrip_slash s' with
      | [] => if Ascii.eqb c "/" then [] else [c]
      | t => c :: t
      end
  end.

(** [os.path.dirname(p)]: up to the last slash, without trailing
    slashes unless it consists of slashes only. *)
Definition dirname (p : str) : str :=
  let head := firstn (Z.to_nat (rfind_slash p + 1)) p in
  if negb (str_eqb head [])
     && negb (str_eqb head (repeat "/"%char (length head)))
  then rstrip_slash head else head.

(** [s.endswith('/')] *)
Definition endswith_slash (s : str) : bool :=
  match rev s with
  | c :: _ => Ascii.eqb c "/"
  | [] => false
  end.

(** [os.path.join(a, b)] *)
Definition join (a b : str) : str :=
  if startswith (lit "/") b then b
  else if str_eqb a [] || endswith_slash a then a ++ b
  else a ++ lit "/" ++ b.

(** [s.split('/')] *)
Fixpoint split_slash (s : str) : list str :=
  match s with
  | [] => [[]]
  | c :: s' =>
      if Ascii.eqb c "/" then [] :: split_slash s'
      else match split_slash s' with
           | w :: ws => (c :: w) :: ws
           | [] => [[c]]
           end
  end.

(** ['/'.join(comps)] *)
Fixpoint join_slash (comps : list str) : str :=
  match comps with
  | [] => []
  | [c] => c
  | c :: rest => c ++ "/"%char :: join_slash rest
  end.

(** The body of the loop of [normpath] over the components. *)
Definition norm_step (initial_slashes : nat) (new_comps : list str)
           (comp : str) : list str :=
  if str_eqb comp [] || str_eqb comp (lit ".") then new_comps
  else if negb (str_eqb comp (lit ".."))
          || ((initial_slashes =? 0)%nat
              && match new_comps with [] => true | _ => false end)
          || match rev new_comps with
             | last :: _ => str_eqb last (lit "..")
             | [] => false
             end
       then new_comps ++ [comp]
       else removelast new_comps.

(** [os.path.normpath(path)] *)
Definition normpath (path : str) : str :=
  if str_eqb path [] then lit "."
  else
    let initial_slashes :=
      if startswith (lit "/") path then
        if startswith (lit "//") path && negb (startswith (lit "///") path)
        then 2%nat else 1%nat
      else 0%nat in
    let comps :=
      fold_left (norm_step initial_slashes) (split_slash path) [] in
    let path := repeat "/"%char initial_slashes ++ join_slash comps in
    if str_eqb path [] then lit "." else path.

(** A name that is a path component of its own: not empty, without a
    slash, and neither [.] nor [..]. *)
Definition plain (name : str) : Prop :=
  ~ In "/"%char name /\ name <> [] /\ name <> lit "." /\ name <> lit "..".

(** [os.path.abspath(path)], in the working directory [cwd]. *)
Definition abspath (cwd path : str) : str :=
  normpath (if startswith (lit "/") path then path else join cwd path).

End PosixPath.

(** ** File names: [extract_file_time] and [generate_relative_file_path] *)

Module FileNames.
Import Str PosixPath.
Local Open Scope string_scope.
Local Open Scope list_scope.
Local Open Scope Z_scope.

(** *** The regular expressions of [FILE_NAME_REGEX]

    The pattern is a sequence of items, each a set of characters
    repeated (greedily any number of times, or a fixed number of times)
    or a literal, some of them named groups. [re] matches it by
    backtracking: a star first takes all it can and gives back one
    character at a time. *)

Inductive charset : Type :=
| NonSpace            (* [\S] *)
| Digit               (* [\d] *)
| Chr (c : ascii).

(** The characters [\s] stands for in a byte string. *)
Definition is_space (c : ascii) : bool :=
  let n := nat_of_ascii c in
  (n =? 32)%nat || ((9 <=? n)%nat && (n <=? 13)%nat).

Definition is_digit (c : ascii) : bool :=
  let n := nat_of_ascii c in
  (48 <=? n)%nat && (n <=? 57)%nat.

Definition member (cs : charset) (c : ascii) : bool :=
  match cs with
  | NonSpace => negb (is_space c)
  | Digit => is_digit c
  | Chr a => Ascii.eqb a c
  end.

Inductive atom : Type :=
| Star (cs : charset)               (* [cs*] *)
| Times (n : nat) (cs : charset)    (* [cs{n}] *)
| Lit (l : str).

(** An item with the name of its group, if it is one. *)
Definition regex : Type := list (option string * atom).

Definition groups : Type := list (string * str).

Definition capture (name : option string) (text : str) (g : groups)
  : groups :=
  match name with
  | Some n => (n, text) :: g
  | None => g
  end.

(** [match.group(name)] *)
Fixpoint group (name : string) (g : groups) : str :=
  match g with
  | [] => []
  | (n, text) :: g' => if String.eqb n name then text else group name g'
  end.

(** How many characters at the start of [s] are in [cs]. *)
Fixpoint longest (cs : charset) (s : str) : nat :=
  match s with
  | c :: s' => if member cs c then S (longest cs s') else O
  | [] => O
  end.

(** The first of [try k], [try (k - 1)], ..., [try 0] that succeeds. *)
Fixpoint backtrack {A} (try : nat -> option A) (k : nat) : option A :=
  match try k with
  | Some r => Some r
  | None =>
      match k with
      | O => None
      | S k' => backtrack try k'
      end
  end.

(** [re.match]: the pattern matched at the start of [s]. *)
Fixpoint match_here (r : regex) (s : str) : option groups :=
  match r with
  | [] => Some []
  | (name, a) :: r' =>
      let continue n :=
        option_map (capture name (firstn n s))
                   (match_here r' (skipn n s)) in
      match a with
      | Lit l => if startswith l s then continue (length l) else None
      | Times n cs =>
          if (n <=? length s)%nat && forallb (member cs) (firstn n s)
          then continue n else None
      | Star cs => backtrack continue (longest cs s)
      end
  end.

(** The pattern of the source: any number of non-blank characters
    (group Refdes), any number of underscores, [OOI-D], eight digits
    (group Date), [-T], six digits (group Time), [.raw]. *)
Definition FILE_NAME_REGEX : regex :=
  [ (Some "Refdes", Star NonSpace);
    (None, Star (Chr "_"%char));
    (None, Lit (lit "OOI-D"));
    (Some "Date", Times 8 Digit);
    (None, Lit (lit "-T"));
    (Some "Time", Times 6 Digit);
    (None, Lit (lit ".raw")) ].

Inductive exn : Type :=
| InstrumentDataException (message : str).

Definition extract_file_time (filepath : str) : exn + str :=
  match match_here FILE_NAME_REGEX filepath with
  | Some g => inr (group "Date" g ++ group "Time" g)
  | None =>
      inl (InstrumentDataException
             (lit "Unable to extract file time from input file name: "
              ++ filepath
              ++ lit ". Expected format *-DYYYYmmdd-THHMMSS.raw"))
  end.

(** [os.sep] *)
Definition sep : str := lit "/".

Definition generate_relative_file_path (filepath : str) : str :=
  let filename := basename filepath in
  match split_once (lit "_") filename with
  | [reference_designator; _] =>
      let delimiter := reference_designator ++ sep in
      match find delimiter filepath with
      | Some i => replace delimiter [] (skipn i filepath)
      | None => filename
      end
  | _ => filename
  end.

(** The working directory, [os.getcwd()], is an argument. *)
Definition generate_image_file_path (cwd filepath : str)
           (output_path : option str) : str :=
  let absolute_path := abspath cwd filepath in
  let filename := basename absolute_path in
  let directory_name := dirname absolute_path in
  let output_path :=
    match output_path with
    | None => directory_name
    | Some path => path
    end in
  let image_file := replace (lit ".raw") (lit ".png") filename in
  join output_path image_file.

End FileNames.

(** ** The configuration datagram: [read_header] *)

Module Header.
Import RawFile Scanner.

Inductive exn : Type :=
| struct_error                       (* [unpack_from] on too few bytes *)
| ReaderError                        (* raised by a reader of the block *)
| InstrumentDataException (length1 length2 byte_cnt : Z)
| IOError.

(** [raw[a:b]] *)
Definition slice (raw : list byte) (a b : nat) : list byte :=
  firstn (b - a) (skipn a raw).

(** [unpack_from('<l', raw, offset)]: a signed 32-bit integer; it raises
    when fewer than four bytes follow the offset. *)
Definition unpack_from_l (raw : list byte) (offset : nat) : option Z :=
  if (offset + 4 <=? length raw)%nat
  then Some (Numpy.signed 4 (le_combine (slice raw offset (offset + 4))))
  else None.

Section ReadHeader.
(** Modelled from the spec: the sizes and the two readers of the
    configuration block are imported from [zplsc_echogram], which is
    not part of this file; the spec takes the decoding of the
    configuration header and transducer blocks as provided from
    outside. They are parameters here: sizes in bytes, and readers that
    return a record or raise. *)
Variables (DATAGRAM_HEADER_SIZE CONFIG_HEADER_SIZE
           CONFIG_TRANSDUCER_SIZE : nat).
Variables (config_header config_transducer : Type).
Variable read_config_header : list byte -> option config_header.
Variable read_config_transducer : list byte -> option config_transducer.
(** [config_header['transducer_count']] *)
Variable transducer_count : config_header -> Z.

(** The loop over [range(transducer_count)], from [byte_cnt] on. *)
Fixpoint read_transducers (raw : list byte) (n byte_cnt : nat)
  : option (list config_transducer * nat) :=
  match n with
  | O => Some ([], byte_cnt)
  | S n' =>
      match read_config_transducer
              (slice raw byte_cnt (byte_cnt + CONFIG_TRANSDUCER_SIZE)) with
      | None => None
      | Some t =>
          match read_transducers raw n'
                  (byte_cnt + CONFIG_TRANSDUCER_SIZE) with
          | None => None
          | Some (ts, cnt) => Some (t :: ts, cnt)
          end
      end
  end.

Definition read_header (filehandle : file)
  : exn + (config_header * list config_transducer * file) :=
  let (raw, f1) := read BLOCK_SIZE filehandle in
  match unpack_from_l raw 0 with
  | None => inl struct_error
  | Some length1 =>
      let byte_cnt := (LENGTH_SIZE + DATAGRAM_HEADER_SIZE)%nat in
      match read_config_header
              (slice raw byte_cnt (byte_cnt + CONFIG_HEADER_SIZE)) with
      | None => inl ReaderError
      | Some header =>
          let byte_cnt := (byte_cnt + CONFIG_HEADER_SIZE)%nat in
          match read_transducers raw
                  (Z.to_nat (transducer_count header)) byte_cnt with
          | None => inl ReaderError
          | Some (transducers, byte_cnt) =>
              match unpack_from_l raw byte_cnt with
              | None => inl struct_error
              | Some length2 =>
                  if (length1 =? length2)
                     && (length2
                         =? Z.of_nat byte_cnt - Z.of_nat LENGTH_SIZE)
                  then
                    match seek f1 (Z.of_nat (byte_cnt + LENGTH_SIZE)) with
                    | Some f2 => inr (header, transducers, f2)
                    | None => inl IOError
                    end
                  else
                    inl (InstrumentDataException length1 length2
                           (Z.of_nat (byte_cnt + LENGTH_SIZE)))
              end
          end
      end
  end.

End ReadHeader.

End Header.

(** ** The power matrices returned by [parse_echogram_file]

    After the loop, the columns kept for a channel are made into an
    array, decompressed to dB and transposed (lines 435-439). *)

Module PowerMatrix.
Import SvConverter.

Section ToDecibel.
Context {F : Type} `{FloatOps F}.

(** [np.array(columns)] of equally long columns is a 2-D array with a
    row for each column; of columns of different lengths, or of no
    column at all, it is a 1-D array. *)
Inductive ndarray : Type :=
| Matrix (a : array2 F)
| OneD (items : list (list F)).

(** [x * 10. * numpy.log10(2) / 256.] for a power sample [x] *)
Definition decompress (x : Z) : F :=
  div (mul (mul (of_int x) (of_int 10)) (log10 (of_int 2))) (of_int 256).

(** Lines 438-439 for the columns of one channel; the transpose of a
    1-D array is the array itself. *)
Definition to_dB (columns : list (list Z)) : ndarray :=
  match columns with
  | [] => OneD []
  | first :: _ =>
      if forallb (fun c => (length c =? length first)%nat) columns
      then Matrix (transpose
                     (mkArray (length columns) (length first)
                              (map (map decompress) columns)))
      else OneD (map (map decompress) columns)
  end.

End ToDecibel.
Arguments ndarray : clear implicits.

End PowerMatrix.

(** * Properties *)

(** ** Floating-point comparison *)

Module Float64Facts.
Import Float64.

Lemma eqb_refl (a : float) : is_nan a = false -> eqb a a = true.
Proof.
  destruct a as [s | s | | s m e]; simpl; try discriminate; intros _.
  - reflexivity.
  - destruct s; reflexivity.
  - unfold eqb, SFeqb, SFcompare.
    destruct s; rewrite Z.compare_refl, Pos.compare_cont_refl; reflexivity.
Qed.

Lemma neb_refl (a : float) : is_nan a = false -> neb a a = false.
Proof. intros Ha. unfold neb. now rewrite eqb_refl. Qed.

End Float64Facts.

(** ** Exact binary64 arithmetic

    An operation whose exact result is a binary64 number returns that
    number: sums, differences, products and quotients of such numbers,
    and the conversions from and to integers. *)

Module Float64Exact.
Import Float64.

(** *** Powers of two *)

Lemma val_scale M E v c :
  val M E v -> 0 <= c -> 0 <= E + c -> M * 2 ^ (E + c) = v * 2 ^ c.
Proof.
  unfold val. intros Hv Hc HEc.
  destruct (Z.le_gt_cases 0 E) as [HE | HE].
  - rewrite Z.max_r in Hv by lia. rewrite (Z.max_l 0 (- E)) in Hv by lia.
    rewrite Z.pow_add_r by lia. change (2 ^ 0) with 1 in Hv. nia.
  - rewrite Z.max_l in Hv by lia. rewrite (Z.max_r 0 (- E)) in Hv by lia.
    change (2 ^ 0) with 1 in Hv.
    replace c with (- E + (E + c)) at 2 by lia.
    rewrite (Z.pow_add_r 2 (- E) (E + c)) by lia. nia.
Qed.

Lemma val_intro M E v c :
  0 <= c -> 0 <= E + c -> M * 2 ^ (E + c) = v * 2 ^ c -> val M E v.
Proof.
  unfold val. intros Hc HEc Heq.
  destruct (Z.le_gt_cases 0 E) as [HE | HE].
  - rewrite Z.max_r by lia. rewrite (Z.max_l 0 (- E)) by lia.
    change (2 ^ 0) with 1.
    rewrite Z.pow_add_r in Heq by lia.
    assert (Hpos : 0 < 2 ^ c) by (apply Z.pow_pos_nonneg; lia).
    nia.
  - rewrite Z.max_l by lia. rewrite (Z.max_r 0 (- E)) by lia.
    change (2 ^ 0) with 1.
    replace c with (- E + (E + c)) in Heq at 2 by lia.
    rewrite (Z.pow_add_r 2 (- E) (E + c)) in Heq by lia.
    assert (Hpos : 0 < 2 ^ (E + c)) by (apply Z.pow_pos_nonneg; lia).
    nia.
Qed.

(** Two pairs of the same value differ by a shift. *)
Lemma val_shift M E m e v :
  val M E v -> val m e v -> E <= e -> M = m * 2 ^ (e - E).
Proof.
  intros HM Hm Hle.
  set (c := Z.max 0 (- E)).
  pose proof (val_scale M E v c HM ltac:(lia) ltac:(lia)) as H1.
  pose proof (val_scale m e v c Hm ltac:(lia) ltac:(lia)) as H2.
  replace (e + c) with ((e - E) + (E + c)) in H2 by lia.
  rewrite Z.pow_add_r in H2 by lia.
  assert (Hpos : 0 < 2 ^ (E + c)) by (apply Z.pow_pos_nonneg; lia).
  nia.
Qed.

Lemma val_refl v : val v 0 v.
Proof. reflexivity. Qed.

Lemma val_add M1 M2 E v w : val M1 E v -> val M2 E w -> val (M1 + M2) E (v + w).
Proof. unfold val. intros H1 H2. nia. Qed.

Lemma val_sub M1 M2 E v w : val M1 E v -> val M2 E w -> val (M1 - M2) E (v - w).
Proof. unfold val. intros H1 H2. nia. Qed.

Lemma val_mul M1 E1 M2 E2 v w :
  val M1 E1 v -> val M2 E2 w -> val (M1 * M2) (E1 + E2) (v * w).
Proof.
  intros H1 H2.
  set (c1 := Z.max 0 (- E1)). set (c2 := Z.max 0 (- E2)).
  pose proof (val_scale M1 E1 v c1 H1 ltac:(lia) ltac:(lia)) as K1.
  pose proof (val_scale M2 E2 w c2 H2 ltac:(lia) ltac:(lia)) as K2.
  apply (val_intro _ _ _ (c1 + c2)); [lia | lia |].
  replace (E1 + E2 + (c1 + c2)) with ((E1 + c1) + (E2 + c2)) by lia.
  rewrite (Z.pow_add_r 2 (E1 + c1) (E2 + c2)) by lia.
  rewrite (Z.pow_add_r 2 c1 c2) by lia.
  replace (M1 * M2 * (2 ^ (E1 + c1) * 2 ^ (E2 + c2)))
    with (M1 * 2 ^ (E1 + c1) * (M2 * 2 ^ (E2 + c2))) by ring.
  rewrite K1, K2. ring.
Qed.

(** The value at a smaller exponent. *)
Lemma val_lower M E v k :
  val M E v -> 0 <= k -> val (M * 2 ^ k) (E - k) v.
Proof.
  intros HM Hk.
  set (c := Z.max 0 (- E) + k).
  pose proof (val_scale M E v (c - k) HM ltac:(lia) ltac:(lia)) as H1.
  apply (val_intro _ _ _ c); [lia | lia |].
  replace (E - k + c) with (E + (c - k)) by lia.
  replace c with ((c - k) + k) at 2 by lia.
  rewrite (Z.pow_add_r 2 (c - k) k) by lia. nia.
Qed.

(** *** Digits *)

Lemma digits_bounds (m : positive) :
  2 ^ (Zpos (digits2_pos m) - 1) <= Zpos m < 2 ^ Zpos (digits2_pos m).
Proof.
  induction m as [m IH | m IH |]; cbn [digits2_pos].
  - rewrite Pos2Z.inj_succ, Z.pow_succ_r by lia.
    replace (Z.succ (Zpos (digits2_pos m)) - 1)
      with (Z.succ (Zpos (digits2_pos m) - 1)) by lia.
    rewrite Z.pow_succ_r by lia. lia.
  - rewrite Pos2Z.inj_succ, Z.pow_succ_r by lia.
    replace (Z.succ (Zpos (digits2_pos m)) - 1)
      with (Z.succ (Zpos (digits2_pos m) - 1)) by lia.
    rewrite Z.pow_succ_r by lia. lia.
  - cbn. lia.
Qed.

Lemma digits_unique (m : positive) (d : Z) :
  2 ^ (d - 1) <= Zpos m < 2 ^ d -> Zpos (digits2_pos m) = d.
Proof.
  intros Hd. pose proof (digits_bounds m) as Hm.
  set (d' := Zpos (digits2_pos m)) in *.
  assert (Hd' : 0 < d') by (unfold d'; lia).
  assert (Hpos : 0 < d).
  { destruct (Z.lt_ge_cases 0 d) as [H | H]; [exact H |].
    assert (2 ^ d <= 2 ^ 0) by (apply Z.pow_le_mono_r; lia).
    change (2 ^ 0) with 1 in *. lia. }
  destruct (Z.lt_trichotomy d' d) as [Hlt | [Heq | Hgt]]; [| exact Heq |].
  - assert (2 ^ d' <= 2 ^ (d - 1)) by (apply Z.pow_le_mono_r; lia). lia.
  - assert (2 ^ d <= 2 ^ (d' - 1)) by (apply Z.pow_le_mono_r; lia). lia.
Qed.

(** The digits of a shifted mantissa. *)
Lemma digits_shifted (M m : positive) (k : Z) :
  0 <= k -> Zpos M = Zpos m * 2 ^ k ->
  Zpos (digits2_pos M) = Zpos (digits2_pos m) + k.
Proof.
  intros Hk HM. apply digits_unique.
  pose proof (digits_bounds m) as Hm.
  set (d := Zpos (digits2_pos m)) in *.
  assert (Hd : 0 < d) by (unfold d; lia).
  replace (d + k - 1) with ((d - 1) + k) by lia.
  rewrite !Z.pow_add_r by lia.
  assert (Hpos : 0 < 2 ^ k) by (apply Z.pow_pos_nonneg; lia).
  rewrite HM. nia.
Qed.

(** *** Iteration *)

Lemma iter_pos_nat {A : Type} (f : A -> A) (p : positive) :
  forall x, iter_pos f p x = Nat.iter (Pos.to_nat p) f x.
Proof.
  induction p as [p IH | p IH |]; intros x; cbn [iter_pos].
  - rewrite !IH, Pos2Nat.inj_xI.
    replace (S (2 * Pos.to_nat p))%nat
      with (Pos.to_nat p + (Pos.to_nat p + 1))%nat by lia.
    rewrite !Nat.iter_add. reflexivity.
  - rewrite !IH, Pos2Nat.inj_xO.
    replace (2 * Pos.to_nat p)%nat
      with (Pos.to_nat p + Pos.to_nat p)%nat by lia.
    rewrite Nat.iter_add. reflexivity.
  - reflexivity.
Qed.

(** [m] shifted left by [n] bits. *)
Lemma shifted_left (n : nat) (m : positive) :
  Zpos (Nat.iter n xO m) = Zpos m * 2 ^ Z.of_nat n.
Proof.
  induction n as [| n IH]; [cbn [Nat.iter nat_rect]; cbn; lia |].
  rewrite Nat2Z.inj_succ, Z.pow_succ_r by lia.
  change (Nat.iter (S n) xO m) with (xO (Nat.iter n xO m)).
  rewrite Pos2Z.inj_xO, IH. ring.
Qed.

Lemma Pos_iter_nat {A : Type} (f : A -> A) (p : positive) (x : A) :
  Pos.iter f x p = Nat.iter (Pos.to_nat p) f x.
Proof.
  rewrite Pos2Nat.inj_iter. reflexivity.
Qed.

(** Shifting out zero bits loses nothing. *)
Lemma shr_exact (n : nat) :
  forall m : positive,
    Nat.iter n shr_1
             {| shr_m := Zpos (Nat.iter n xO m);
                shr_r := false; shr_s := false |}
    = {| shr_m := Zpos m; shr_r := false; shr_s := false |}.
Proof.
  induction n as [| n IH]; intros m; [reflexivity |].
  rewrite Nat.iter_succ_r.
  change (Nat.iter (S n) xO m) with (xO (Nat.iter n xO m)).
  cbn [shr_1 orb]. apply IH.
Qed.

(** *** Rounding a number that needs none *)

Lemma fexp_normal (d e : Z) :
  - 1074 <= e -> d = 53 -> fexp prec emax (d + e) = e.
Proof.
  intros He ->. unfold fexp, emin, prec, emax. lia.
Qed.

(** A mantissa with zero bits below its 53 leading bits. *)
Lemma binary_round_aux_exact (s : bool) (M m : positive) (E e v : Z) :
  val (Zpos M) E v -> canonical m e v -> E <= e ->
  binary_round_aux prec emax s (Zpos M) E loc_Exact = S754_finite s m e.
Proof.
  intros HM (Hm & Hd & He) Hle.
  pose proof (val_shift _ _ _ _ _ HM Hm Hle) as Hshift.
  pose proof (digits_shifted M m (e - E) ltac:(lia) Hshift) as HdM.
  unfold binary_round_aux.
  assert (Hfirst : shr_fexp prec emax (Zpos M) E loc_Exact
                   = ({| shr_m := Zpos m; shr_r := false; shr_s := false |},
                      e)).
  { unfold shr_fexp. cbn [Zdigits2 shr_record_of_loc].
    rewrite HdM, Hd.
    replace (53 + (e - E) + E) with (53 + e) by lia.
    rewrite (fexp_normal 53 e) by lia.
    unfold shr.
    destruct (e - E) as [| k | k] eqn:Hk; [| | lia].
    - rewrite Z.mul_1_r in Hshift. injection Hshift as ->.
      f_equal. lia.
    - rewrite iter_pos_nat.
      assert (HMk : M = Nat.iter (Pos.to_nat k) xO m).
      { apply Pos2Z.inj. rewrite shifted_left, positive_nat_Z.
        exact Hshift. }
      rewrite HMk, shr_exact. f_equal. lia. }
  rewrite Hfirst. cbn [shr_m loc_of_shr_record round_nearest_even].
  assert (Hsecond : shr_fexp prec emax (Zpos m) e loc_Exact
                    = ({| shr_m := Zpos m; shr_r := false; shr_s := false |},
                       e)).
  { unfold shr_fexp. cbn [Zdigits2 shr_record_of_loc].
    rewrite Hd, (fexp_normal 53 e) by lia.
    rewrite Z.sub_diag. reflexivity. }
  rewrite Hsecond. cbn [shr_m].
  replace (e <=? emax - prec) with true; [reflexivity |].
  symmetry. apply Z.leb_le. unfold emax, prec. lia.
Qed.

(** The magnitudes of two pairs of the same value. *)
Lemma val_exponent_le (M m : positive) (E e v : Z) :
  val (Zpos M) E v -> val (Zpos m) e v ->
  Zpos (digits2_pos m) <= Zpos (digits2_pos M) -> E <= e.
Proof.
  intros HM Hm Hd.
  destruct (Z.le_gt_cases E e) as [Hle | Hgt]; [exact Hle |].
  pose proof (val_shift _ _ _ _ _ Hm HM ltac:(lia)) as Hshift.
  pose proof (digits_shifted m M (E - e) ltac:(lia) Hshift). lia.
Qed.

Lemma binary_round_exact (s : bool) (M m : positive) (E e v : Z) :
  val (Zpos M) E v -> canonical m e v ->
  binary_round prec emax s M E = S754_finite s m e.
Proof.
  intros HM Hc. pose proof Hc as (Hm & Hd & He).
  unfold binary_round.
  destruct (Z.le_gt_cases E e) as [Hle | Hgt].
  - pose proof (val_shift _ _ _ _ _ HM Hm Hle) as Hshift.
    pose proof (digits_shifted M m (e - E) ltac:(lia) Hshift) as HdM.
    rewrite HdM, Hd.
    replace (53 + (e - E) + E) with (53 + e) by lia.
    rewrite (fexp_normal 53 e) by lia.
    unfold shl_align.
    destruct (e - E) as [| k | k] eqn:Hk; [| | lia];
      now apply (binary_round_aux_exact s M m E e v).
  - pose proof (val_shift _ _ _ _ _ Hm HM ltac:(lia)) as Hshift.
    pose proof (digits_shifted m M (E - e) ltac:(lia) Hshift) as HdM.
    assert (HfE : fexp prec emax (Zpos (digits2_pos M) + E) = e).
    { replace (Zpos (digits2_pos M) + E) with (53 + e) by lia.
      apply fexp_normal; lia. }
    rewrite HfE. unfold shl_align.
    destruct (e - E) as [| k | k] eqn:Hk; [lia | lia |].
    assert (Hmk : Pos.iter xO M k = m).
    { apply Pos2Z.inj. rewrite Pos_iter_nat, shifted_left, positive_nat_Z.
      rewrite Hshift. f_equal. f_equal. lia. }
    rewrite Hmk.
    apply (binary_round_aux_exact s m m e e v); [exact Hm | exact Hc | lia].
Qed.

(** *** The operations *)

Lemma of_Z_exact (v : positive) (m : positive) (e : Z) :
  canonical m e (Zpos v) -> of_Z (Zpos v) = S754_finite false m e.
Proof.
  intros Hc. unfold of_Z. cbn [binary_normalize].
  apply (binary_round_exact false v m 0 e (Zpos v));
    [apply val_refl | exact Hc].
Qed.

Lemma canonical_positive (m : positive) (e v : Z) : canonical m e v -> 0 < v.
Proof.
  intros (Hm & _ & _). unfold val in Hm.
  assert (H1 : 0 < 2 ^ Z.max 0 e) by (apply Z.pow_pos_nonneg; lia).
  assert (H2 : 0 < 2 ^ Z.max 0 (- e)) by (apply Z.pow_pos_nonneg; lia).
  nia.
Qed.

Lemma val_positive (M E v : Z) : val M E v -> 0 < v -> 0 < M.
Proof.
  unfold val. intros HM Hv.
  assert (H1 : 0 < 2 ^ Z.max 0 E) by (apply Z.pow_pos_nonneg; lia).
  assert (H2 : 0 < 2 ^ Z.max 0 (- E)) by (apply Z.pow_pos_nonneg; lia).
  nia.
Qed.

(** An integer below [2^53] is a binary64 number. *)
Lemma canonical_small (v : Z) :
  0 < v < 2 ^ 53 -> exists m e, canonical m e v /\ - 52 <= e <= 0.
Proof.
  intros Hv. destruct v as [| p | p]; try lia.
  pose proof (digits_bounds p) as Hp.
  set (d := Zpos (digits2_pos p)) in *.
  assert (Hd : 0 < d <= 53).
  { split; [unfold d; lia |].
    destruct (Z.le_gt_cases d 53) as [H | H]; [exact H |].
    assert (2 ^ 53 <= 2 ^ (d - 1)) by (apply Z.pow_le_mono_r; lia). lia. }
  exists (Nat.iter (Z.to_nat (53 - d)) xO p), (d - 53).
  assert (Hm : Zpos (Nat.iter (Z.to_nat (53 - d)) xO p)
               = Zpos p * 2 ^ (53 - d)).
  { rewrite shifted_left, Z2Nat.id by lia. reflexivity. }
  split; [| lia]. split; [| split; [| lia]].
  - apply (val_intro _ _ _ (53 - d)); [lia | lia |].
    replace (d - 53 + (53 - d)) with 0 by lia.
    rewrite Hm. change (2 ^ 0) with 1. lia.
  - rewrite (digits_shifted _ p (53 - d) ltac:(lia) Hm). fold d. lia.
Qed.

(** A 53-bit integer times a power of two is a binary64 number. *)
Lemma canonical_multiple (u : positive) (j : Z) :
  2 ^ 52 <= Zpos u < 2 ^ 53 -> 0 <= j <= 971 ->
  canonical u j (Zpos u * 2 ^ j).
Proof.
  intros Hu Hj. split; [| split; [| lia]].
  - apply (val_intro _ _ _ 0); [lia | lia |].
    rewrite Z.add_0_r. change (2 ^ 0) with 1. lia.
  - apply digits_unique. exact Hu.
Qed.

(** Both representations of a number agree. *)
Lemma canonical_unique (m m' : positive) (e e' v : Z) :
  canonical m e v -> canonical m' e' v -> m = m' /\ e = e'.
Proof.
  intros (Hm & Hd & He) (Hm' & Hd' & He').
  assert (Hle : e <= e')
    by (apply (val_exponent_le m m' e e' v Hm Hm'); lia).
  assert (Hge : e' <= e)
    by (apply (val_exponent_le m' m e' e v Hm' Hm); lia).
  assert (Heq : e = e') by lia. subst e'. split; [| reflexivity].
  pose proof (val_shift _ _ _ _ _ Hm Hm' ltac:(lia)) as Hs.
  rewrite Z.sub_diag in Hs. change (2 ^ 0) with 1 in Hs. lia.
Qed.

Lemma shl_align_val (m : positive) (e ez v : Z) :
  val (Zpos m) e v -> ez <= e ->
  val (Zpos (fst (shl_align m e ez))) ez v.
Proof.
  intros Hm Hle. unfold shl_align.
  destruct (ez - e) as [| k | k] eqn:Hk; cbn [fst]; [| lia |].
  - replace ez with e by lia. exact Hm.
  - rewrite Pos_iter_nat, shifted_left, positive_nat_Z.
    replace ez with (e - Zpos k) by lia.
    apply val_lower; [exact Hm | lia].
Qed.

Lemma add_exact (m1 m2 m : positive) (e1 e2 e v w : Z) :
  canonical m1 e1 v -> canonical m2 e2 w -> canonical m e (v + w) ->
  add (S754_finite false m1 e1) (S754_finite false m2 e2)
  = S754_finite false m e.
Proof.
  intros (H1 & _) (H2 & _) Hc.
  unfold add, SFadd. cbn [cond_Zopp].
  pose proof (shl_align_val m1 e1 (Z.min e1 e2) v H1 ltac:(lia)) as A1.
  pose proof (shl_align_val m2 e2 (Z.min e1 e2) w H2 ltac:(lia)) as A2.
  set (a1 := fst (shl_align m1 e1 (Z.min e1 e2))) in *.
  set (a2 := fst (shl_align m2 e2 (Z.min e1 e2))) in *.
  change (Zpos a1 + Zpos a2) with (Zpos (a1 + a2)).
  cbn [binary_normalize].
  apply (binary_round_exact false _ m _ e (v + w)); [| exact Hc].
  rewrite Pos2Z.inj_add. now apply val_add.
Qed.

Lemma sub_exact (m1 m2 m : positive) (e1 e2 e v w : Z) :
  canonical m1 e1 v -> canonical m2 e2 w -> canonical m e (v - w) ->
  sub (S754_finite false m1 e1) (S754_finite false m2 e2)
  = S754_finite false m e.
Proof.
  intros (H1 & _) (H2 & _) Hc.
  unfold sub, SFsub. cbn [cond_Zopp].
  pose proof (shl_align_val m1 e1 (Z.min e1 e2) v H1 ltac:(lia)) as A1.
  pose proof (shl_align_val m2 e2 (Z.min e1 e2) w H2 ltac:(lia)) as A2.
  set (a1 := fst (shl_align m1 e1 (Z.min e1 e2))) in *.
  set (a2 := fst (shl_align m2 e2 (Z.min e1 e2))) in *.
  pose proof (val_sub _ _ _ _ _ A1 A2) as Hd.
  pose proof (val_positive _ _ _ Hd (canonical_positive _ _ _ Hc)) as Hpos.
  destruct (Zpos a1 - Zpos a2) as [| q | q] eqn:Hq; try lia.
  cbn [binary_normalize].
  now apply (binary_round_exact false q m _ e (v - w)).
Qed.

Lemma digits_at_least (M : positive) (d : Z) :
  2 ^ (d - 1) <= Zpos M -> d <= Zpos (digits2_pos M).
Proof.
  intros HM. pose proof (digits_bounds M) as Hb.
  destruct (Z.le_gt_cases d (Zpos (digits2_pos M))) as [H | H]; [exact H |].
  assert (2 ^ Zpos (digits2_pos M) <= 2 ^ (d - 1))
    by (apply Z.pow_le_mono_r; lia).
  lia.
Qed.

Lemma canonical_mantissa_bounds (m : positive) (e v : Z) :
  canonical m e v -> 2 ^ 52 <= Zpos m < 2 ^ 53.
Proof.
  intros (_ & Hd & _). pose proof (digits_bounds m) as Hb.
  rewrite Hd in Hb. exact Hb.
Qed.

Lemma mul_exact (m1 m2 m : positive) (e1 e2 e v w : Z) :
  canonical m1 e1 v -> canonical m2 e2 w -> canonical m e (v * w) ->
  mul (S754_finite false m1 e1) (S754_finite false m2 e2)
  = S754_finite false m e.
Proof.
  intros C1 C2 Hc.
  pose proof (canonical_mantissa_bounds _ _ _ C1) as B1.
  pose proof (canonical_mantissa_bounds _ _ _ C2) as B2.
  destruct C1 as (H1 & _). destruct C2 as (H2 & _).
  unfold mul, SFmul. cbn [xorb].
  assert (HM : val (Zpos (m1 * m2)) (e1 + e2) (v * w)).
  { rewrite Pos2Z.inj_mul. now apply val_mul. }
  apply (binary_round_aux_exact false _ m _ e (v * w) HM Hc).
  apply (val_exponent_le (m1 * m2) m (e1 + e2) e (v * w) HM (proj1 Hc)).
  destruct Hc as (_ & Hd & _). rewrite Hd.
  apply digits_at_least. rewrite Pos2Z.inj_mul.
  change (2 ^ (53 - 1)) with (2 ^ 52). nia.
Qed.

Lemma div_eucl_exact (b q : Z) : 0 < b -> Z.div_eucl (b * q) b = (q, 0).
Proof.
  intros Hb.
  rewrite (surjective_pairing (Z.div_eucl (b * q) b)).
  change (fst (Z.div_eucl (b * q) b)) with ((b * q) / b).
  change (snd (Z.div_eucl (b * q) b)) with ((b * q) mod b).
  rewrite (Z.mul_comm b q), Z.div_mul, Z.mod_mul by lia. reflexivity.
Qed.

Lemma div_exact (m1 m2 m : positive) (e1 e2 e v w : Z) :
  canonical m1 e1 (v * w) -> canonical m2 e2 w -> canonical m e v ->
  - 1021 <= e1 - e2 <= 53 ->
  div (S754_finite false m1 e1) (S754_finite false m2 e2)
  = S754_finite false m e.
Proof.
  intros C1 C2 Hc He.
  pose proof (canonical_mantissa_bounds _ _ _ C1) as B1.
  pose proof (canonical_mantissa_bounds _ _ _ C2) as B2.
  pose proof (canonical_positive _ _ _ Hc) as Hv.
  destruct C1 as (H1 & D1 & _). destruct C2 as (H2 & D2 & _).
  set (q := v * 2 ^ (53 - e1 + e2)).
  assert (Hq : Zpos m1 * 2 ^ 53 = Zpos m2 * q).
  { set (c := Z.max 0 (- e1) + Z.max 0 (- e2)).
    pose proof (val_scale _ _ _ c H1 ltac:(lia) ltac:(lia)) as K1.
    pose proof (val_scale _ _ _ c H2 ltac:(lia) ltac:(lia)) as K2.
    assert (Hpos : 0 < 2 ^ (e1 + c)) by (apply Z.pow_pos_nonneg; lia).
    apply (Z.mul_reg_r _ _ (2 ^ (e1 + c))); [lia |].
    replace (Zpos m1 * 2 ^ 53 * 2 ^ (e1 + c))
      with (Zpos m1 * 2 ^ (e1 + c) * 2 ^ 53) by ring.
    rewrite K1. unfold q.
    replace (Zpos m2 * (v * 2 ^ (53 - e1 + e2)) * 2 ^ (e1 + c))
      with (v * (Zpos m2 * (2 ^ (53 - e1 + e2) * 2 ^ (e1 + c)))) by ring.
    rewrite <- Z.pow_add_r by lia.
    replace (53 - e1 + e2 + (e1 + c)) with ((e2 + c) + 53) by lia.
    rewrite (Z.pow_add_r 2 (e2 + c) 53) by lia.
    replace (v * (Zpos m2 * (2 ^ (e2 + c) * 2 ^ 53)))
      with (v * (Zpos m2 * 2 ^ (e2 + c)) * 2 ^ 53) by ring.
    rewrite K2. ring. }
  assert (Hqv : val q (e1 - e2 - 53) v).
  { apply (val_intro _ _ _ (53 - e1 + e2)); [lia | lia |].
    replace (e1 - e2 - 53 + (53 - e1 + e2)) with 0 by lia.
    unfold q. change (2 ^ 0) with 1. lia. }
  assert (Hqpos : 2 ^ 52 < q).
  { change (2 ^ 53) with (2 * 2 ^ 52) in *. nia. }
  destruct q as [| qp | qp] eqn:Eq; try lia.
  assert (Hcore : SFdiv_core_binary prec emax (Zpos m1) e1 (Zpos m2) e2
                  = (Zpos qp, e1 - e2 - 53, loc_Exact)).
  { unfold SFdiv_core_binary. cbn [Zdigits2]. rewrite D1, D2.
    assert (He' : Z.min (fexp prec emax (53 + e1 - (53 + e2))) (e1 - e2)
                  = e1 - e2 - 53).
    { unfold fexp, emin, prec, emax. lia. }
    rewrite He'.
    replace (e1 - e2 - (e1 - e2 - 53)) with 53 by lia.
    rewrite Z.shiftl_mul_pow2 by lia.
    rewrite Hq, div_eucl_exact by lia.
    f_equal. unfold new_location, new_location_even, new_location_odd.
    destruct (Z.even (Zpos m2)); reflexivity. }
  unfold div, SFdiv. rewrite Hcore. cbn [xorb].
  apply (binary_round_aux_exact false qp m _ e v Hqv Hc).
  apply (val_exponent_le qp m _ e v Hqv (proj1 Hc)).
  destruct Hc as (_ & Hd & _). rewrite Hd.
  apply digits_at_least. change (2 ^ (53 - 1)) with (2 ^ 52). lia.
Qed.

Lemma to_Z_exact (m : positive) (e v : Z) :
  canonical m e v -> to_Z (S754_finite false m e) = Some v.
Proof.
  intros (Hm & _). unfold to_Z, val in *. f_equal.
  destruct (Z.leb_spec 0 e) as [He | He].
  - rewrite Z.shiftl_mul_pow2 by lia.
    rewrite Z.max_r in Hm by lia. rewrite Z.max_l in Hm by lia.
    change (2 ^ 0) with 1 in Hm. lia.
  - rewrite Z.shiftr_div_pow2 by lia.
    rewrite Z.max_l in Hm by lia. rewrite Z.max_r in Hm by lia.
    change (2 ^ 0) with 1 in Hm.
    replace (Zpos m) with (v * 2 ^ (- e)) by lia.
    apply Z.div_mul.
    assert (0 < 2 ^ (- e)) by (apply Z.pow_pos_nonneg; lia). lia.
Qed.

(** *** Integers *)

Lemma of_Z_small (v : Z) :
  0 < v < 2 ^ 53 ->
  exists m e, canonical m e v /\ of_Z v = S754_finite false m e.
Proof.
  intros Hv. destruct (canonical_small v Hv) as (m & e & Hc & _).
  exists m, e. split; [exact Hc |].
  destruct v as [| p | p]; try lia. now apply of_Z_exact.
Qed.

(** Sums and differences of integers below [2^53] are exact. *)
Lemma of_Z_add (v w : Z) :
  0 < v -> 0 < w -> v + w < 2 ^ 53 ->
  add (of_Z v) (of_Z w) = of_Z (v + w).
Proof.
  intros Hv Hw Hsum.
  destruct (of_Z_small v ltac:(lia)) as (m1 & e1 & C1 & ->).
  destruct (of_Z_small w ltac:(lia)) as (m2 & e2 & C2 & ->).
  destruct (of_Z_small (v + w) ltac:(lia)) as (m & e & C & ->).
  now apply (add_exact m1 m2 m e1 e2 e v w).
Qed.

Lemma of_Z_sub (v w : Z) :
  0 < w -> w < v -> v < 2 ^ 53 ->
  sub (of_Z v) (of_Z w) = of_Z (v - w).
Proof.
  intros Hw Hv Hbound.
  destruct (of_Z_small v ltac:(lia)) as (m1 & e1 & C1 & ->).
  destruct (of_Z_small w ltac:(lia)) as (m2 & e2 & C2 & ->).
  destruct (of_Z_small (v - w) ltac:(lia)) as (m & e & C & ->).
  now apply (sub_exact m1 m2 m e1 e2 e v w).
Qed.

Lemma to_Z_of_Z (v : Z) : 0 <= v < 2 ^ 53 -> to_Z (of_Z v) = Some v.
Proof.
  intros Hv. destruct (Z.eq_dec v 0) as [-> | Hne]; [reflexivity |].
  destruct (of_Z_small v ltac:(lia)) as (m & e & C & ->).
  now apply to_Z_exact.
Qed.

Lemma of_Z_injective (v w : Z) :
  0 <= v < 2 ^ 53 -> 0 <= w < 2 ^ 53 -> of_Z v = of_Z w -> v = w.
Proof.
  intros Hv Hw Heq.
  pose proof (to_Z_of_Z v Hv) as H1. pose proof (to_Z_of_Z w Hw) as H2.
  rewrite Heq in H1. congruence.
Qed.

(** *** Integers of 57 bits *)

(** A 57-bit integer loses its four lowest bits when it is made a
    binary64 number. *)
Lemma of_Z_57 (q : positive) :
  Zpos (digits2_pos q) = 57 ->
  of_Z (Zpos q)
  = finish_round false
      (shr_1 (shr_1 (shr_1 (shr_1
         {| shr_m := Zpos q; shr_r := false; shr_s := false |}))))
      4.
Proof.
  intros Hd. unfold of_Z. cbn [binary_normalize].
  unfold binary_round. rewrite Hd.
  change (fexp prec emax (57 + 0)) with 4.
  unfold shl_align. change (4 - 0) with 4. cbv beta iota.
  unfold binary_round_aux, shr_fexp. cbn [Zdigits2]. rewrite Hd.
  change (fexp prec emax (57 + 0) - 0) with 4.
  reflexivity.
Qed.

Ltac same_number y :=
  exists y;
  split; [first [left; reflexivity | right; reflexivity] |];
  split; [lia |];
  rewrite !of_Z_57 by (cbn [digits2_pos]; lia);
  cbn [shr_1 orb]; unfold finish_round;
  cbn [shr_m loc_of_shr_record round_nearest_even Z.even];
  reflexivity.

(** Every 57-bit integer has a neighbour that is made the same binary64
    number. *)
Lemma of_Z_neighbour (x : Z) :
  2 ^ 56 <= x < 2 ^ 57 ->
  exists y, (y = x + 1 \/ y = x - 1) /\ 2 ^ 56 <= y < 2 ^ 57 /\
            of_Z y = of_Z x.
Proof.
  intros Hx. destruct x as [| q | q]; try lia.
  assert (Hd : Zpos (digits2_pos q) = 57) by (now apply digits_unique).
  destruct q as [[[[[p | p |] | [p | p |] |] | [[p | p |] | [p | p |] |] |]
                  | [[[p | p |] | [p | p |] |] | [[p | p |] | [p | p |] |] |]
                  |]
                 | [[[[p | p |] | [p | p |] |] | [[p | p |] | [p | p |] |] |]
                    | [[[p | p |] | [p | p |] |] | [[p | p |] | [p | p |] |] |]
                    |]
                 |];
    try (exfalso; cbv in Hd; congruence);
    cbn [digits2_pos] in Hd;
    match goal with
    | |- exists y, (y = ?x + 1 \/ _) /\ _ =>
        let up := eval cbn in (x + 1) in
        let down := eval cbn in (x - 1) in
        first [same_number up | same_number down]
    end.
Qed.

End Float64Exact.

(** ** TimeCodec *)

Module TimeCodecFacts.
Import Float64 TimeCodec Float64Exact.

Lemma NTP_WINDOWS_DELTA_seconds : NTP_WINDOWS_DELTA = of_Z 9435484800.
Proof. reflexivity. Qed.

Lemma build_windows_time_halves (x : Z) :
  - 2 ^ 63 <= x < 2 ^ 63 ->
  build_windows_time ((x / 2 ^ 32) mod 2 ^ 32) (x mod 2 ^ 32) = x.
Proof.
  intros Hx. unfold build_windows_time, int64.
  rewrite Z.shiftl_mul_pow2 by lia.
  set (h := (x / 2 ^ 32) mod 2 ^ 32). set (l := x mod 2 ^ 32).
  assert (Hjoin : x mod 2 ^ 64 = h * 2 ^ 32 + l).
  { change (2 ^ 64) with (2 ^ 32 * 2 ^ 32).
    rewrite Z.rem_mul_r by lia. unfold h, l. lia. }
  replace ((h * 2 ^ 32 + 2 ^ 63) mod 2 ^ 64 - 2 ^ 63 + l + 2 ^ 63)
    with ((h * 2 ^ 32 + 2 ^ 63) mod 2 ^ 64 + l) by lia.
  rewrite Zplus_mod_idemp_l.
  replace (h * 2 ^ 32 + 2 ^ 63 + l) with (x mod 2 ^ 64 + 2 ^ 63) by lia.
  rewrite Zplus_mod_idemp_l.
  rewrite Z.mod_small by lia. lia.
Qed.

(** *** Whole seconds *)

(** A tick count is split into its words and put together again. *)
Lemma windows_ticks_to_time_ntp (x : Z) :
  0 <= x < 2 ^ 63 -> windows_ticks_to_time x = windows_to_ntp x.
Proof.
  intros Hx. unfold windows_ticks_to_time. f_equal.
  rewrite Z.shiftr_div_pow2, Z.land_ones by lia.
  rewrite <- (build_windows_time_halves x) at 3 by lia.
  f_equal. symmetry. apply Z.mod_small.
  split; [apply Z.div_pos; lia |].
  apply Z.div_lt_upper_bound; lia.
Qed.

Lemma ten_million_canonical :
  canonical 5368709120000000 (- 29) 10000000.
Proof. repeat split; cbv; congruence. Qed.

(** The tick count of a whole second of the NTP era, [t] seconds after
    1900, is a binary64 number although it has 57 bits: its lowest
    seven bits are zero. *)
Lemma whole_second_canonical (t : Z) :
  0 <= t < 2 ^ 32 ->
  exists u, canonical u 4 ((t + 9435484800) * 10000000).
Proof.
  intros Ht.
  destruct ((t + 9435484800) * 625000) as [| u | u] eqn:Hu; try lia.
  exists u.
  replace ((t + 9435484800) * 10000000) with (Zpos u * 2 ^ 4) by lia.
  apply canonical_multiple; lia.
Qed.

Lemma whole_second_time (t : Z) :
  0 <= t < 2 ^ 32 ->
  windows_to_ntp ((t + 9435484800) * 10000000) = of_Z t.
Proof.
  intros Ht. unfold windows_to_ntp. rewrite NTP_WINDOWS_DELTA_seconds.
  assert (Hdiv : div (of_Z ((t + 9435484800) * 10000000)) (of_Z 10000000)
                 = of_Z (t + 9435484800)).
  { destruct (whole_second_canonical t Ht) as (u & Cu).
    destruct (of_Z_small (t + 9435484800) ltac:(lia)) as (m & e & C & ->).
    destruct ((t + 9435484800) * 10000000) as [| x | x] eqn:Hx; try lia.
    rewrite (of_Z_exact x u 4 Cu).
    rewrite (of_Z_exact _ _ _ ten_million_canonical).
    apply (div_exact u _ m 4 (- 29) e (t + 9435484800) 10000000);
      [now rewrite Hx | exact ten_million_canonical | exact C | lia]. }
  rewrite Hdiv.
  destruct (Z.eq_dec t 0) as [-> | Hne]; [reflexivity |].
  rewrite of_Z_sub by lia. f_equal. lia.
Qed.

(** The way back, [int((t + NTP_WINDOWS_DELTA) * 1e7)], on a whole
    second. *)
Lemma whole_second_back (t : Z) :
  0 <= t < 2 ^ 32 ->
  time_to_windows_ticks (of_Z t) = Some ((t + 9435484800) * 10000000).
Proof.
  intros Ht. unfold time_to_windows_ticks.
  rewrite NTP_WINDOWS_DELTA_seconds.
  assert (Hadd : add (of_Z t) (of_Z 9435484800) = of_Z (t + 9435484800)).
  { destruct (Z.eq_dec t 0) as [-> | Hne]; [reflexivity |].
    apply of_Z_add; lia. }
  rewrite Hadd.
  destruct (whole_second_canonical t Ht) as (u & Cu).
  destruct (of_Z_small (t + 9435484800) ltac:(lia)) as (m & e & C & ->).
  rewrite (of_Z_exact _ _ _ ten_million_canonical).
  rewrite (mul_exact m _ u e (- 29) 4 (t + 9435484800) 10000000
             C ten_million_canonical Cu).
  now apply to_Z_exact.
Qed.

(** A tick count of 2012 and its successor are converted to the same
    time: a double cannot hold 100ns ticks at this magnitude. *)
Lemma neighbouring_ticks_collide :
  windows_ticks_to_time 130000000010000001
  = windows_ticks_to_time 130000000010000000.
Proof. vm_compute. reflexivity. Qed.

(** Hence no function at all recovers every tick count from its time. *)
Lemma no_exact_converse (back : float -> option Z) :
  ~ (forall x : Z, 0 <= x < 2 ^ 63 ->
                   back (windows_ticks_to_time x) = Some x).
Proof.
  intros Hback.
  assert (H1 : back (windows_ticks_to_time 130000000010000001)
               = Some 130000000010000001).
  { apply Hback. lia. }
  assert (H0 : back (windows_ticks_to_time 130000000010000000)
               = Some 130000000010000000).
  { apply Hback. lia. }
  rewrite neighbouring_ticks_collide in H1.
  rewrite H0 in H1. discriminate.
Qed.

(** C10, counterexample: the tick count 130000000010000001 is converted
    to the same time as its predecessor, and the round trip returns the
    predecessor. *)
Lemma round_trip_not_exact :
  windows_ticks_to_time 130000000010000001
  = windows_ticks_to_time 130000000010000000 /\
  time_to_windows_ticks (windows_ticks_to_time 130000000010000001)
  = Some 130000000010000000 /\
  time_to_windows_ticks (windows_ticks_to_time 130000000010000001)
  <> Some 130000000010000001.
Proof.
  split; [exact neighbouring_ticks_collide |].
  split; [vm_compute; reflexivity | vm_compute; discriminate].
Qed.

(** C10, as amended: on the whole seconds of the NTP era, [t] seconds
    after 1900 with [0 <= t < 2^32], the conversion is exact: the tick
    count [(t + 9435484800) * 10^7] is converted to the time [t], two of
    these tick counts never to the same time, and the way back,
    [int((time + NTP_WINDOWS_DELTA) * 1e7)], returns the tick count. On
    all tick counts it is not: every tick count of 57 bits (the years
    1829 to 2057) has a neighbour, one tick before or after, that is
    converted to the same time, so that no way back, whatever it
    computes, returns them both. *)
Theorem round_trip_whole_seconds :
  (forall t,
      0 <= t < 2 ^ 32 ->
      let x := (t + 9435484800) * 10000000 in
      windows_ticks_to_time x = of_Z t /\
      time_to_windows_ticks (windows_ticks_to_time x) = Some x)
  /\
  (forall t t',
      0 <= t < 2 ^ 32 -> 0 <= t' < 2 ^ 32 ->
      windows_ticks_to_time ((t + 9435484800) * 10000000)
      = windows_ticks_to_time ((t' + 9435484800) * 10000000) ->
      t = t')
  /\
  (forall x,
      2 ^ 56 <= x < 2 ^ 57 ->
      exists y,
        (y = x + 1 \/ y = x - 1) /\ 2 ^ 56 <= y < 2 ^ 57 /\
        windows_ticks_to_time y = windows_ticks_to_time x /\
        forall back : float -> option Z,
          ~ (back (windows_ticks_to_time x) = Some x /\
             back (windows_ticks_to_time y) = Some y)).
Proof.
  assert (Htime : forall t, 0 <= t < 2 ^ 32 ->
                    windows_ticks_to_time ((t + 9435484800) * 10000000)
                    = of_Z t).
  { intros t Ht. rewrite windows_ticks_to_time_ntp by lia.
    now apply whole_second_time. }
  split; [| split].
  - intros t Ht x. subst x. rewrite (Htime t Ht).
    split; [reflexivity | now apply whole_second_back].
  - intros t t' Ht Ht' Heq. rewrite (Htime t Ht), (Htime t' Ht') in Heq.
    apply of_Z_injective; [lia | lia | exact Heq].
  - intros x Hx.
    destruct (of_Z_neighbour x Hx) as (y & Hy & Hrange & Heq).
    exists y. split; [exact Hy |]. split; [exact Hrange |].
    assert (Hsame : windows_ticks_to_time y = windows_ticks_to_time x).
    { rewrite !windows_ticks_to_time_ntp by lia.
      unfold windows_to_ntp. now rewrite Heq. }
    split; [exact Hsame |].
    intros back [Hbx Hby]. rewrite Hsame, Hbx in Hby.
    injection Hby as Hxy. lia.
Qed.

Lemma round_trip_whole_seconds_witness :
  (windows_ticks_to_time 130629978170000000 = of_Z 3627513017 /\
   time_to_windows_ticks (windows_ticks_to_time 130629978170000000)
   = Some 130629978170000000)
  /\
  exists y,
    (y = 130629978172686336 + 1 \/ y = 130629978172686336 - 1) /\
    2 ^ 56 <= y < 2 ^ 57 /\
    windows_ticks_to_time y = windows_ticks_to_time 130629978172686336.
Proof.
  split.
  - apply (proj1 round_trip_whole_seconds 3627513017). lia.
  - destruct (proj2 (proj2 round_trip_whole_seconds) 130629978172686336)
      as (y & Hy & Hrange & Hsame & _); [lia |].
    exists y. split; [exact Hy |]. split; [exact Hrange | exact Hsame].
Defined.

End TimeCodecFacts.

(** ** Packing and unpacking of structured items *)

Module NumpyFacts.
Import Numpy.

Lemma signed_wrap (n : nat) (v : Z) :
  in_range (Int n) v -> signed n (v mod 2 ^ (Z.of_nat n * 8)) = v.
Proof.
  unfold in_range, signed. intros Hv.
  destruct n as [| n].
  { simpl in Hv. lia. }
  assert (Hpow : 2 ^ (Z.of_nat (S n) * 8)
                 = 2 * 2 ^ (Z.of_nat (S n) * 8 - 1)).
  { rewrite <- Z.pow_succ_r by lia. f_equal. lia. }
  assert (Hpos : 0 < 2 ^ (Z.of_nat (S n) * 8 - 1))
    by (apply Z.pow_pos_nonneg; lia).
  destruct (Z_lt_dec v 0) as [Hneg | Hnn].
  - assert (Hm : v mod 2 ^ (Z.of_nat (S n) * 8)
                 = v + 2 ^ (Z.of_nat (S n) * 8)).
    { symmetry. apply Z.mod_unique_pos with (q := -1); lia. }
    rewrite Hm.
    destruct (Z.ltb_spec (v + 2 ^ (Z.of_nat (S n) * 8))
                         (2 ^ (Z.of_nat (S n) * 8 - 1))); lia.
  - rewrite Z.mod_small by lia.
    destruct (Z.ltb_spec v (2 ^ (Z.of_nat (S n) * 8 - 1))); lia.
Qed.

Lemma decode_encode (k : kind) (v : Z) :
  in_range k v -> decode_field k (encode_field k v) = v.
Proof.
  intros Hv. unfold decode_field, encode_field.
  rewrite le_combine_split.
  destruct k as [n | n | n | n]; simpl width;
    [ now apply signed_wrap
    | apply Z.mod_small; exact Hv .. ].
Qed.

Lemma length_encode (k : kind) (v : Z) :
  length (encode_field k v) = width k.
Proof. apply length_le_split. Qed.

Lemma length_pack (d : dtype) :
  forall vs, length vs = length d -> length (pack d vs) = itemsize d.
Proof.
  induction d as [| [name k] d IH]; intros [| v vs] Hlen;
    simpl in *; try discriminate; try reflexivity.
  rewrite length_app, length_encode, IH; [reflexivity | lia].
Qed.

Lemma firstn_exact {A} (a b : list A) : firstn (length a) (a ++ b) = a.
Proof.
  rewrite firstn_app, Nat.sub_diag, firstn_all. simpl.
  apply app_nil_r.
Qed.

Lemma skipn_exact {A} (a b : list A) : skipn (length a) (a ++ b) = b.
Proof.
  rewrite skipn_app, Nat.sub_diag, skipn_all. reflexivity.
Qed.

Lemma firstn_encode (k : kind) (v : Z) (rest : list byte) :
  firstn (width k) (encode_field k v ++ rest) = encode_field k v.
Proof. rewrite <- (length_encode k v) at 1. apply firstn_exact. Qed.

Lemma skipn_encode (k : kind) (v : Z) (rest : list byte) :
  skipn (width k) (encode_field k v ++ rest) = rest.
Proof. rewrite <- (length_encode k v) at 1. apply skipn_exact. Qed.

(** Unpacking what was packed gives the values back, field by field. *)
Lemma unpack_pack (d : dtype) :
  forall vs rest,
    Forall2 in_range (map snd d) vs ->
    unpack d (pack d vs ++ rest) = combine (map fst d) vs.
Proof.
  induction d as [| [name k] d IH]; intros vs rest Hvs.
  - reflexivity.
  - inversion Hvs as [| k' v ks vs' Hv Hrest]; subst.
    cbn [unpack pack combine map fst snd]. rewrite <- app_assoc.
    rewrite firstn_encode, skipn_encode, decode_encode by assumption.
    now rewrite IH.
Qed.

Lemma chunks_exact (size : nat) (vs : list (list byte)) :
  forall rest,
    Forall (fun c => length c = size) vs ->
    chunks (length vs) size (concat vs ++ rest) = vs.
Proof.
  induction vs as [| c vs IH]; intros rest Hvs.
  - reflexivity.
  - inversion Hvs as [| c' vs' Hc Hrest]; subst.
    simpl. rewrite <- app_assoc.
    rewrite firstn_exact, skipn_exact. now rewrite IH.
Qed.

End NumpyFacts.

(** ** The input file *)

Module RawFileFacts.
Import Numpy NumpyFacts RawFile.

Lemma splits_rest f before after : splits f before after -> rest f = after.
Proof.
  intros [Hc Hp]. unfold rest. rewrite Hc, Hp. apply skipn_exact.
Qed.

Lemma splits_mkFile before after :
  splits (mkFile (before ++ after) (length before)) before after.
Proof. split; reflexivity. Qed.

(** Reading [n] whole items that are all there. *)
Lemma fromfile_items (size : nat) (items : list (list byte))
      (f : file) (before after : list byte) :
  (0 < size)%nat ->
  Forall (fun c => length c = size) items ->
  splits f before (concat items ++ after) ->
  fromfile size (Z.of_nat (length items)) f
  = (items, mkFile (content f) (length (before ++ concat items))).
Proof.
  intros Hsize Hitems Hf.
  assert (Hlen : length (concat items) = (length items * size)%nat).
  { clear Hf. induction Hitems as [| c cs Hc _ IH]; simpl; [reflexivity |].
    rewrite length_app, IH, Hc. reflexivity. }
  unfold fromfile. rewrite (splits_rest _ _ _ Hf).
  destruct (Z.ltb_spec (Z.of_nat (length items)) 0) as [Hneg | _]; [lia |].
  rewrite Nat2Z.id.
  assert (Hdiv : (length items <= length (concat items ++ after) / size)%nat).
  { apply Nat.div_le_lower_bound; [lia |].
    rewrite length_app, Hlen. lia. }
  rewrite (Nat.min_l _ _ Hdiv).
  rewrite Nat.min_l by (rewrite length_app, Hlen; lia).
  rewrite chunks_exact by assumption.
  destruct Hf as [_ Hp]. rewrite Hp, length_app, Hlen. reflexivity.
Qed.

Lemma fromfile_one (size : nat) (c : list byte)
      (f : file) (before after : list byte) :
  (0 < size)%nat ->
  length c = size ->
  splits f before (c ++ after) ->
  fromfile size 1 f = ([c], mkFile (content f) (length (before ++ c))).
Proof.
  intros Hsize Hc Hf.
  pose proof (fromfile_items size [c] f before after Hsize) as H.
  simpl concat in H. rewrite app_nil_r in H.
  apply H; [repeat constructor; exact Hc | exact Hf].
Qed.

(** Where the position is after a read of [n] items that are there. *)
Lemma fromfile_skip (size n : nat) (f : file) (before bs after : list byte) :
  length bs = (n * size)%nat ->
  splits f before (bs ++ after) ->
  snd (fromfile size (Z.of_nat n) f)
  = mkFile (content f) (length (before ++ bs)).
Proof.
  intros Hlen Hf. unfold fromfile. simpl snd.
  rewrite (splits_rest _ _ _ Hf).
  destruct (Z.ltb_spec (Z.of_nat n) 0) as [Hneg | _]; [lia |].
  rewrite Nat2Z.id, Nat.min_l by (rewrite length_app; lia).
  destruct Hf as [_ Hp]. rewrite Hp, length_app, Hlen. reflexivity.
Qed.

Lemma splits_after_items (f : file) (before items after : list byte) :
  splits f before (items ++ after) ->
  splits (mkFile (content f) (length (before ++ items)))
         (before ++ items) after.
Proof.
  intros [Hc _]. split; simpl; [| reflexivity].
  rewrite Hc. apply app_assoc.
Qed.

End RawFileFacts.

(** ** The decoder on a well-formed datagram *)

Module SampleDecoderFacts.
Import Numpy NumpyFacts RawFile RawFileFacts SampleDecoder.
Local Open Scope string_scope.
Local Open Scope list_scope.
Local Open Scope Z_scope.

Lemma flat_map_encode_chunks (power : list Z) :
  Forall (in_range (Int 2)) power ->
  map (fun c => field "power_data" (unpack power_dtype c))
      (map (encode_field (Int 2)) power) = power.
Proof.
  induction 1 as [| v vs Hv _ IH]; [reflexivity |].
  cbn [map]. rewrite IH. f_equal.
  cbn [unpack power_dtype field width].
  rewrite firstn_all2 by (rewrite length_encode; simpl; lia).
  rewrite decode_encode by assumption. reflexivity.
Qed.

Lemma process_sample_encoded header power angles length2 before after tc :
  well_formed header power angles length2 ->
  let sd := decoded_header header in
  let data := encode_sample header power angles length2 in
  let bytes := before ++ data ++ after in
  process_sample (mkFile bytes (length before)) tc
  = if (field "channel_number" sd <? 0) || (tc <? field "channel_number" sd)
    then (InvalidTransducer,
          [InvalidChannel (field "channel_number" sd) tc],
          mkFile bytes (length before + itemsize sample_dtype))
    else (Return (decoded header power),
          if field "length1" sd =? length2 then []
          else [MismatchingLength (field "length1" sd) length2],
          mkFile bytes (length before + length data)).
Proof.
  intros (Hh & Hp & Hcount & Hangles & Hl2) sd data bytes.
  assert (Hlh : length (pack sample_dtype header) = itemsize sample_dtype).
  { apply length_pack. apply Forall2_length in Hh.
    rewrite length_map in Hh. congruence. }
  unfold process_sample.
  set (hb := pack sample_dtype header) in *.
  set (pb := map (encode_field (Int 2)) power).
  set (lb := encode_field (Int 4) length2).
  assert (Hdata : data = hb ++ concat pb ++ angles ++ lb).
  { unfold data, encode_sample. fold hb lb.
    rewrite flat_map_concat_map. reflexivity. }
  assert (Hf0 : splits (mkFile bytes (length before)) before
                       (hb ++ (concat pb ++ angles ++ lb) ++ after)).
  { split; [| reflexivity]. unfold bytes. simpl content.
    rewrite Hdata, <- !app_assoc. reflexivity. }
  rewrite (fromfile_one (itemsize sample_dtype) hb _ _ _
             ltac:(simpl; lia) Hlh Hf0).
  assert (Hsd : unpack sample_dtype hb = sd).
  { rewrite <- (app_nil_r hb). apply unpack_pack. exact Hh. }
  rewrite Hsd. simpl content.
  destruct ((field "channel_number" sd <? 0)
            || (tc <? field "channel_number" sd)).
  { f_equal. f_equal. rewrite length_app, Hlh. reflexivity. }
  apply splits_after_items in Hf0. simpl content in Hf0.
  rewrite <- !app_assoc in Hf0.
  fold sd in Hcount, Hangles. rewrite Hcount.
  assert (Hpb : length pb = length power) by apply length_map.
  assert (Hchunks : Forall (fun c => length c = itemsize power_dtype) pb).
  { apply Forall_forall. intros c Hc. apply in_map_iff in Hc.
    destruct Hc as (v & <- & _). apply length_encode. }
  rewrite <- Hpb.
  rewrite (fromfile_items (itemsize power_dtype) pb _ _ _
             ltac:(simpl; lia) Hchunks Hf0).
  cbn [content].
  apply splits_after_items in Hf0. simpl content in Hf0.
  assert (Hf3 : splits
                  (if 1 <? field "mode" sd
                   then snd (fromfile (itemsize angle_dtype)
                               (Z.of_nat (length pb))
                               (mkFile bytes
                                  (length ((before ++ hb) ++ concat pb))))
                   else mkFile bytes (length ((before ++ hb) ++ concat pb)))
                  (((before ++ hb) ++ concat pb) ++ angles)
                  (lb ++ after)
                /\ content
                     (if 1 <? field "mode" sd
                      then snd (fromfile (itemsize angle_dtype)
                                  (Z.of_nat (length pb))
                                  (mkFile bytes
                                     (length ((before ++ hb) ++ concat pb))))
                      else mkFile bytes
                             (length ((before ++ hb) ++ concat pb)))
                   = bytes).
  { destruct (1 <? field "mode" sd).
    - assert (Hla : length angles
                    = (length pb * itemsize angle_dtype)%nat)
        by (rewrite Hangles, Hpb; simpl; lia).
      rewrite (fromfile_skip _ _ _ _ angles (lb ++ after) Hla Hf0).
      split; [| reflexivity].
      apply splits_after_items in Hf0. simpl content in Hf0. exact Hf0.
    - destruct angles; [| discriminate]. rewrite app_nil_r.
      split; [| reflexivity]. exact Hf0. }
  destruct Hf3 as [Hf3 Hc3].
  rewrite (fromfile_one (itemsize len_dtype) lb _ _ _
             ltac:(simpl; lia) (length_encode _ _) Hf3).
  rewrite Hc3.
  unfold pb. rewrite flat_map_encode_chunks by assumption.
  assert (Hl : field "length2" (unpack len_dtype lb) = length2).
  { unfold lb. cbn [unpack len_dtype width].
    rewrite firstn_all2 by (rewrite length_encode; simpl; lia).
    rewrite decode_encode by assumption. reflexivity. }
  rewrite Hl. f_equal. f_equal.
  rewrite Hdata. unfold pb. rewrite !length_app. lia.
Qed.

End SampleDecoderFacts.

(** ** Dictionaries *)

Module DictFacts.
Import Dict.

Section Facts.
Context {V : Type}.
Implicit Types (d : dict V) (k : Z) (v : V).

Lemma get_set_same k v d : get k (set k v d) = Some v.
Proof.
  induction d as [| [k' v'] d IH]; simpl.
  - now rewrite Z.eqb_refl.
  - destruct (Z.ltb_spec k k'); simpl.
    + now rewrite Z.eqb_refl.
    + destruct (Z.eqb_spec k k'); simpl.
      * now rewrite Z.eqb_refl.
      * destruct (Z.eqb_spec k k'); [contradiction | exact IH].
Qed.

Lemma get_set_other k k0 v d : k0 <> k -> get k0 (set k v d) = get k0 d.
Proof.
  intros Hne. induction d as [| [k' v'] d IH]; simpl.
  - destruct (Z.eqb_spec k0 k); [contradiction | reflexivity].
  - destruct (Z.ltb_spec k k'); simpl.
    + destruct (Z.eqb_spec k0 k); [contradiction | reflexivity].
    + destruct (Z.eqb_spec k k'); simpl.
      * subst k'. destruct (Z.eqb_spec k0 k); [contradiction | reflexivity].
      * now rewrite IH.
Qed.

Lemma in_keys_set k v d x :
  In x (keys (set k v d)) <-> x = k \/ In x (keys d).
Proof.
  induction d as [| [k' v'] d IH]; simpl.
  - intuition.
  - destruct (Z.ltb_spec k k'); simpl.
    + intuition.
    + destruct (Z.eqb_spec k k'); simpl.
      * subst. intuition.
      * rewrite IH. intuition.
Qed.

Lemma get_in_keys k d : In k (keys d) <-> get k d <> None.
Proof.
  induction d as [| [k' v'] d IH]; simpl.
  - intuition.
  - destruct (Z.eqb_spec k k').
    + subst. intuition discriminate.
    + rewrite <- IH. intuition.
Qed.

Lemma ordered_set k v d : ordered d -> ordered (set k v d).
Proof.
  unfold ordered.
  induction d as [| [k' v'] d IH]; simpl; intros Hd.
  - repeat constructor.
  - inversion Hd as [| a l Hsorted Hall]; subst.
    destruct (Z.ltb_spec k k'); simpl.
    + constructor; [exact Hd |].
      constructor; [assumption |].
      eapply Forall_impl; [| exact Hall]. simpl. intros; lia.
    + destruct (Z.eqb_spec k k'); simpl.
      * subst. now constructor.
      * constructor; [now apply IH |].
        apply Forall_forall. intros x Hx.
        apply in_keys_set in Hx. destruct Hx as [-> | Hx]; [lia |].
        rewrite Forall_forall in Hall. now apply Hall.
Qed.

(** Storing under a new key adds an entry; under a key already there
    it replaces one. *)
Lemma length_set k v d :
  ordered d ->
  length (set k v d)
  = match get k d with None => S (length d) | Some _ => length d end.
Proof.
  unfold ordered.
  induction d as [| [k' v'] d IH]; simpl; intros Hd; [reflexivity |].
  inversion Hd as [| a l Hsorted Hall]; subst.
  destruct (Z.ltb_spec k k'); simpl.
  - destruct (Z.eqb_spec k k'); [lia |].
    destruct (get k d) eqn:Hget; [| reflexivity].
    assert (Hin : In k (keys d)) by (apply get_in_keys; congruence).
    rewrite Forall_forall in Hall. apply Hall in Hin. lia.
  - destruct (Z.eqb_spec k k'); simpl; [reflexivity |].
    rewrite IH by assumption. now destruct (get k d).
Qed.

End Facts.

Lemma keys_set_congr {V W} k (v : V) (w : W) :
  forall (d : dict V) (e : dict W),
    keys d = keys e -> keys (set k v d) = keys (set k w e).
Proof.
  induction d as [| [k1 v1] d IH]; intros [| [k2 w2] e] Hk;
    simpl in *; try discriminate; [reflexivity |].
  injection Hk as -> Hk.
  destruct (Z.ltb_spec k k2); simpl; [now rewrite Hk |].
  destruct (Z.eqb_spec k k2); simpl; [now rewrite Hk |].
  now rewrite (IH e).
Qed.

(** A strictly increasing list of [n] integers between 1 and [n] is
    1, 2, ..., [n]. *)
Lemma sorted_length_bound (l : list Z) :
  forall lo hi, StronglySorted Z.lt l ->
                Forall (fun x => lo <= x < hi) l ->
                Z.of_nat (length l) <= Z.max 0 (hi - lo).
Proof.
  induction l as [| a l IH]; intros lo hi Hs Hb; simpl length; [lia |].
  inversion Hs as [| a' l' Hs' Hall]; subst.
  inversion Hb as [| a' l' Ha Hb']; subst.
  assert (Hb2 : Forall (fun x => a + 1 <= x < hi) l).
  { rewrite Forall_forall in *. intros x Hx.
    specialize (Hall x Hx). specialize (Hb' x Hx). lia. }
  specialize (IH (a + 1) hi Hs' Hb2). lia.
Qed.

Lemma sorted_full_range (l : list Z) :
  forall lo, StronglySorted Z.lt l ->
             Forall (fun x => lo <= x < lo + Z.of_nat (length l)) l ->
             l = map (fun i => lo + Z.of_nat i) (seq 0 (length l)).
Proof.
  induction l as [| a l IH]; intros lo Hs Hb; [reflexivity |].
  inversion Hs as [| a' l' Hs' Hall]; subst.
  inversion Hb as [| a' l' Ha Hb']; subst.
  simpl length in *.
  assert (Hb2 : Forall (fun x => a + 1 <= x < lo + Z.of_nat (S (length l))) l).
  { rewrite Forall_forall in *. intros x Hx.
    specialize (Hall x Hx). specialize (Hb' x Hx). lia. }
  pose proof (sorted_length_bound l _ _ Hs' Hb2) as Hlen.
  assert (a = lo) by lia. subst a.
  cbn [seq map]. f_equal; [lia |].
  rewrite <- seq_shift, map_map.
  rewrite (IH (lo + 1) Hs').
  - rewrite length_map, length_seq. apply map_ext. intros i. lia.
  - eapply Forall_impl; [| exact Hb2]. simpl. intros; lia.
Qed.

End DictFacts.

(** ** The aggregator: invariants *)

Module PingAggregatorFacts.
Import Numpy SampleDecoder PingAggregator Dict DictFacts.
Local Open Scope string_scope.
Local Open Scope list_scope.
Local Open Scope Z_scope.

Section Facts.
Variables (file_time relpath : string) (transducer_count : Z).

Notation aggregate := (aggregate file_time relpath transducer_count).
Notation feed := (feed file_time relpath transducer_count).
Notation first_ping := (first_ping file_time relpath).
Notation ping_complete := (ping_complete transducer_count).
Notation invariant := (invariant transducer_count).

Lemma invariant_initial : invariant (initial transducer_count).
Proof.
  split; simpl.
  - reflexivity.
  - constructor.
  - auto.
  - constructor.
  - intros Hne. now contradiction Hne.
Qed.

Lemma invariant_collect st s : invariant st -> invariant (collect st s).
Proof.
  intros [Hk Ho Hc Hm Hn]. split; simpl.
  - apply keys_set_congr.
    destruct (time_differs _ _); [reflexivity | exact Hk].
  - apply ordered_set.
    destruct (time_differs _ _); [constructor | exact Ho].
  - exact Hc.
  - exact Hm.
  - exact Hn.
Qed.

Lemma len_keys {V W} (d : dict V) (e : dict W) :
  keys d = keys e -> len d = len e.
Proof.
  intros Hk. unfold len.
  rewrite <- (length_map fst d), <- (length_map fst e).
  unfold keys in Hk. now rewrite Hk.
Qed.

Lemma ping_complete_len st :
  invariant st ->
  ping_complete st = (len (sample_data_temp_dict st) =? transducer_count).
Proof.
  intros [Hk _ _ _ _]. unfold ping_complete.
  rewrite <- (len_keys _ _ Hk), Z.eqb_refl. reflexivity.
Qed.

Lemma set_not_empty {V} k (v : V) d : set k v d <> [].
Proof.
  destruct d as [| [k' v'] d]; simpl; [discriminate |].
  destruct (k <? k'); [discriminate |].
  destruct (k =? k'); discriminate.
Qed.

Lemma save_power_not_empty temp :
  forall pd pd', pd <> [] -> save_power temp pd = Some pd' -> pd' <> [].
Proof.
  induction temp as [| [c pw] temp IH]; simpl; intros pd pd' Hne Hs.
  - congruence.
  - destruct (get c pd) as [cols |]; [| discriminate].
    eapply IH; [| exact Hs]. apply set_not_empty.
Qed.

Lemma save_power_keys temp :
  forall pd pd', save_power temp pd = Some pd' ->
                 forall c, In c (keys pd') <-> In c (keys pd).
Proof.
  induction temp as [| [c pw] temp IH]; simpl; intros pd pd' Hs x.
  - injection Hs as <-. reflexivity.
  - destruct (get c pd) as [cols |] eqn:Hget; [| discriminate].
    rewrite (IH _ _ Hs x), in_keys_set.
    assert (In c (keys pd)) by (apply get_in_keys; congruence).
    intuition (subst; assumption).
Qed.

(** [save_power] raises exactly when a channel of the ping has no
    power matrix. *)
Lemma save_power_defined temp :
  forall pd, (forall c, In c (keys temp) -> In c (keys pd)) ->
             exists pd', save_power temp pd = Some pd'.
Proof.
  induction temp as [| [c pw] temp IH]; simpl; intros pd Hin.
  - eauto.
  - destruct (get c pd) as [cols |] eqn:Hget.
    + apply IH. intros x Hx. apply in_keys_set. right. apply Hin. auto.
    + exfalso. assert (Hc : In c (keys pd)) by (apply Hin; auto).
      apply get_in_keys in Hc. contradiction.
Qed.

Lemma save_power_channels temp :
  forall pd pd', save_power temp pd = Some pd' ->
                 forall c, In c (keys temp) -> In c (keys pd).
Proof.
  induction temp as [| [c pw] temp IH]; simpl; intros pd pd' Hs x Hx.
  - contradiction.
  - destruct (get c pd) as [cols |] eqn:Hget; [| discriminate].
    destruct Hx as [<- | Hx].
    + apply get_in_keys. congruence.
    + specialize (IH _ _ Hs x Hx). apply in_keys_set in IH.
      destruct IH as [-> | IH]; [| exact IH].
      apply get_in_keys. congruence.
Qed.

(** Every channel of the ping gets one more column, the others keep
    theirs. *)
Lemma save_power_get temp :
  forall pd pd',
    ordered temp ->
    save_power temp pd = Some pd' ->
    forall c,
      get c pd'
      = match get c temp with
        | Some pw => option_map (fun cols => cols ++ [pw]) (get c pd)
        | None => get c pd
        end.
Proof.
  unfold ordered.
  induction temp as [| [c pw] temp IH]; simpl; intros pd pd' Ho Hs x.
  - now injection Hs as <-.
  - inversion Ho as [| a l Ho' Hall]; subst.
    destruct (get c pd) as [cols |] eqn:Hget; [| discriminate].
    rewrite (IH _ _ Ho' Hs x).
    destruct (Z.eqb_spec x c) as [-> | Hne].
    + assert (Hnone : get c temp = None).
      { destruct (get c temp) eqn:Hg; [| reflexivity].
        assert (Hin : In c (keys temp)) by (apply get_in_keys; congruence).
        rewrite Forall_forall in Hall. apply Hall in Hin. lia. }
      rewrite Hnone, get_set_same, Hget. reflexivity.
    + rewrite get_set_other by assumption. reflexivity.
Qed.

End Facts.

Lemma keys_set_present {V} k (v : V) (d : dict V) :
  ordered d -> get k d <> None -> keys (set k v d) = keys d.
Proof.
  unfold ordered.
  induction d as [| [k' v'] d IH]; simpl; intros Ho Hg; [congruence |].
  inversion Ho as [| a l Ho' Hall]; subst.
  destruct (Z.eqb_spec k k') as [-> | Hne].
  - rewrite Z.ltb_irrefl. reflexivity.
  - destruct (Z.ltb_spec k k'); simpl.
    + exfalso. apply get_in_keys in Hg.
      rewrite Forall_forall in Hall. apply Hall in Hg. lia.
    + f_equal. now apply IH.
Qed.

Lemma get_map_values {V W} (f : V -> W) k (d : dict V) :
  get k (map (fun kv => (fst kv, f (snd kv))) d) = option_map f (get k d).
Proof.
  induction d as [| [k' v'] d IH]; simpl; [reflexivity |].
  destruct (k =? k'); [reflexivity | exact IH].
Qed.

Lemma keys_map_values {V W} (f : V -> W) (d : dict V) :
  keys (map (fun kv => (fst kv, f (snd kv))) d) = keys d.
Proof.
  unfold keys. rewrite map_map. reflexivity.
Qed.

Section Facts.
Variables (file_time relpath : string) (transducer_count : Z).

Notation aggregate := (aggregate file_time relpath transducer_count).
Notation feed := (feed file_time relpath transducer_count).
Notation first_ping := (first_ping file_time relpath).
Notation first_ping_step := (first_ping_step file_time relpath).
Notation metadata_from := (metadata_from file_time relpath).
Notation invariant := (invariant transducer_count).
Notation extend := (extend file_time relpath).

Lemma save_power_keys_eq temp :
  forall pd pd', ordered pd -> save_power temp pd = Some pd' ->
                 keys pd' = keys pd.
Proof.
  induction temp as [| [c pw] temp IH]; simpl; intros pd pd' Ho Hs.
  - now injection Hs as <-.
  - destruct (get c pd) as [cols |] eqn:Hget; [| discriminate].
    rewrite (IH _ _ (ordered_set _ _ _ Ho) Hs).
    apply keys_set_present; [exact Ho | congruence].
Qed.

Lemma first_ping_loop (d : dict record) :
  forall c sd m fr b,
    fst (fst (fold_left first_ping_step ((c, sd) :: d) (m, fr, b)))
    = extend m ((c, sd) :: d).
Proof.
  induction d as [| [c2 sd2] d IH]; intros c sd m fr b.
  - reflexivity.
  - change (fold_left first_ping_step ((c, sd) :: (c2, sd2) :: d)
                      (m, fr, b))
      with (fold_left first_ping_step ((c2, sd2) :: d)
                      (first_ping_step (m, fr, b) (c, sd))).
    cbn [first_ping_step]. rewrite IH.
    unfold extend, append_metadata. cbn [map keys fst snd
      zplsc_channel zplsc_transducer_depth zplsc_frequency
      zplsc_transmit_power zplsc_pulse_length zplsc_bandwidth
      zplsc_sample_interval zplsc_sound_velocity zplsc_absorption_coeff
      zplsc_temperature].
    rewrite <- !app_assoc. reflexivity.
Qed.

Lemma first_ping_metadata (d : dict record) fr b :
  d <> [] ->
  fst (fst (fold_left first_ping_step d (no_metadata, fr, b)))
  = metadata_from d.
Proof.
  destruct d as [| [c sd] d]; [congruence | intros _].
  apply first_ping_loop.
Qed.

Lemma first_ping_fields st t :
  sample_data_temp_dict st <> [] ->
  let st' := first_ping st t in
  last_time st' = last_time st /\
  sample_data_temp_dict st' = sample_data_temp_dict st /\
  power_data_temp_dict st' = power_data_temp_dict st /\
  power_data_dict st'
  = map (fun kv => (fst kv, [])) (power_data_temp_dict st) /\
  data_times st' = data_times st /\
  particle_data st'
  = Some (metadata_from (sample_data_temp_dict st), t).
Proof.
  intros Hne. unfold first_ping.
  pose proof (first_ping_metadata (sample_data_temp_dict st)
                (frequencies st) (bin_size st) Hne) as Hm.
  destruct (fold_left _ _ _) as [[m fr] b]. simpl in Hm. subst m.
  simpl. repeat split; reflexivity.
Qed.

(** What one sample does to the loop variables. *)
Lemma aggregate_incomplete st s :
  invariant st ->
  len (sample_data_temp_dict (collect st s)) <> transducer_count ->
  aggregate st s = Some (collect st s).
Proof.
  intros Hinv Hlen. unfold aggregate.
  rewrite (ping_complete_len _ _ (invariant_collect _ st s Hinv)).
  destruct (Z.eqb_spec (len (sample_data_temp_dict (collect st s)))
                       transducer_count); [contradiction | reflexivity].
Qed.

Lemma collect_not_empty st s : sample_data_temp_dict (collect st s) <> [].
Proof. simpl. apply set_not_empty. Qed.

Lemma aggregate_complete st s :
  invariant st ->
  len (sample_data_temp_dict (collect st s)) = transducer_count ->
  match aggregate st s with
  | None => True
  | Some st' =>
      last_time st' = last_time (collect st s) /\
      sample_data_temp_dict st' = sample_data_temp_dict (collect st s) /\
      power_data_temp_dict st' = power_data_temp_dict (collect st s) /\
      data_times st' = data_times st ++ [ntp_time s] /\
      keys (power_data_dict st')
      = (if is_empty (power_data_dict st)
         then keys (power_data_temp_dict st')
         else keys (power_data_dict st)) /\
      power_data_dict st' <> [] /\
      particle_data st'
      = (if is_empty (power_data_dict st)
         then Some (metadata_from (sample_data_temp_dict st'), ntp_time s)
         else particle_data st) /\
      (forall c, In c (keys (power_data_temp_dict st')) ->
                 In c (keys (power_data_dict st'))) /\
      (forall c,
          get c (power_data_dict st')
          = match get c (power_data_temp_dict st') with
            | Some pw =>
                if is_empty (power_data_dict st) then Some ([] ++ [pw])
                else option_map (fun cols => cols ++ [pw])
                                (get c (power_data_dict st))
            | None =>
                if is_empty (power_data_dict st) then None
                else get c (power_data_dict st)
            end)
  end.
Proof.
  intros Hinv Hlen. unfold aggregate.
  pose proof (invariant_collect _ st s Hinv) as Hinv1.
  rewrite (ping_complete_len _ _ Hinv1), Hlen, Z.eqb_refl.
  assert (Hpo : ordered (power_data_temp_dict (collect st s))).
  { unfold ordered. rewrite <- (same_keys _ _ Hinv1).
    apply (temp_ordered _ _ Hinv1). }
  change (power_data_dict (collect st s)) with (power_data_dict st).
  destruct (power_data_dict st) as [| kv pd] eqn:Hpd; cbn [is_empty].
  - destruct (first_ping_fields (collect st s) (ntp_time s)
                (collect_not_empty st s))
      as (Hl & Hst & Hpt & Hpdd & Hdt & Hpart).
    rewrite Hpt, Hpdd.
    destruct (save_power _ _) as [pd' |] eqn:Hsave; [| exact I].
    cbn [last_time sample_data_temp_dict power_data_temp_dict
         power_data_dict data_times particle_data].
    rewrite Hl, Hst, Hdt, Hpart.
    assert (Hzo : ordered (map (fun kv : Z * list Z => (fst kv, @nil (list Z)))
                               (power_data_temp_dict (collect st s)))).
    { unfold ordered. rewrite (keys_map_values (fun _ => [])). exact Hpo. }
    repeat split.
    + rewrite (save_power_keys_eq _ _ _ Hzo Hsave).
      apply (keys_map_values (fun _ => [])).
    + eapply save_power_not_empty; [| exact Hsave].
      pose proof (collect_not_empty st s) as Hne.
      pose proof (same_keys _ _ Hinv1) as Hk.
      destruct (power_data_temp_dict (collect st s));
        destruct (sample_data_temp_dict (collect st s));
        simpl in *; congruence.
    + intros c Hc. apply (save_power_keys _ _ _ Hsave).
      apply (save_power_channels _ _ _ Hsave c Hc).
    + intros c. rewrite (save_power_get _ _ _ Hpo Hsave c).
      rewrite (get_map_values (fun _ => [])).
      destruct (get c (power_data_temp_dict (collect st s)));
        reflexivity.
  - change (power_data_dict (collect st s)) with (power_data_dict st).
    rewrite Hpd.
    destruct (save_power _ _) as [pd' |] eqn:Hsave; [| exact I].
    cbn [last_time sample_data_temp_dict power_data_temp_dict
         power_data_dict data_times particle_data].
    repeat split.
    + rewrite <- Hpd in *.
      apply (save_power_keys_eq _ _ _ (matrices_ordered _ _ Hinv) Hsave).
    + eapply save_power_not_empty; [| exact Hsave]. discriminate.
    + intros c Hc. apply (save_power_keys _ _ _ Hsave).
      apply (save_power_channels _ _ _ Hsave c Hc).
    + intros c. rewrite (save_power_get _ _ _ Hpo Hsave c).
      destruct (get c _); reflexivity.
Qed.

(** No [KeyError] when every channel of the ping has its matrix. *)
Lemma aggregate_no_key_error st s :
  invariant st ->
  power_data_dict st <> [] ->
  (forall c, In c (keys (power_data_temp_dict (collect st s))) ->
             In c (keys (power_data_dict st))) ->
  exists st', aggregate st s = Some st'.
Proof.
  intros Hinv Hne Hin. unfold aggregate.
  destruct (ping_complete _ _); [| eauto].
  change (power_data_dict (collect st s)) with (power_data_dict st).
  destruct (power_data_dict st) as [| kv pd] eqn:Hpd; [congruence |].
  cbn [is_empty].
  change (power_data_dict (collect st s)) with (power_data_dict st).
  rewrite Hpd.
  destruct (save_power_defined _ _ Hin) as [pd' Hsave].
  rewrite Hsave. eauto.
Qed.

End Facts.

Section Facts.
Variables (file_time relpath : string) (transducer_count : Z).

Notation aggregate := (aggregate file_time relpath transducer_count).
Notation feed := (feed file_time relpath transducer_count).
Notation metadata_from := (metadata_from file_time relpath).
Notation invariant := (invariant transducer_count).

Lemma invariant_aggregate st s st' :
  invariant st -> aggregate st s = Some st' -> invariant st'.
Proof.
  intros Hinv Hagg.
  pose proof (invariant_collect _ st s Hinv) as Hinv1.
  destruct (Z.eq_dec (len (sample_data_temp_dict (collect st s)))
                     transducer_count) as [Hlen | Hlen].
  - pose proof (aggregate_complete file_time relpath _ st s Hinv Hlen)
      as Hc.
    rewrite Hagg in Hc.
    destruct Hc as (_ & Hst & Hpt & Hdt & Hkeys & Hne & Hpart & _ & _).
    split.
    + rewrite Hst, Hpt. apply (same_keys _ _ Hinv1).
    + rewrite Hst. apply (temp_ordered _ _ Hinv1).
    + rewrite Hpart.
      pose proof (captured _ _ Hinv) as Hcap.
      destruct (power_data_dict st) as [| kv pd] eqn:Hpd; cbn [is_empty].
      * split; [| exact Hne]. rewrite Hdt. now destruct (data_times st).
      * destruct (particle_data st).
        -- split; [| exact Hne]. rewrite Hdt. now destruct (data_times st).
        -- destruct Hcap as [_ Hcap]. discriminate.
    + unfold ordered. rewrite Hkeys.
      destruct (is_empty (power_data_dict st)).
      * rewrite Hpt, <- (same_keys _ _ Hinv1).
        apply (temp_ordered _ _ Hinv1).
      * apply (matrices_ordered _ _ Hinv).
    + intros _.
      destruct (power_data_dict st) as [| kv pd] eqn:Hpd;
        cbn [is_empty] in Hkeys.
      * rewrite (len_keys _ _ Hkeys), Hpt.
        rewrite <- (len_keys _ _ (same_keys _ _ Hinv1)). exact Hlen.
      * rewrite (len_keys _ _ Hkeys), <- Hpd.
        apply (matrices_count _ _ Hinv). rewrite Hpd. discriminate.
  - rewrite (aggregate_incomplete file_time relpath _ st s Hinv Hlen)
      in Hagg.
    injection Hagg as <-. exact Hinv1.
Qed.

Lemma invariant_feed samples :
  forall st st', invariant st -> feed st samples = Some st' ->
                 invariant st'.
Proof.
  induction samples as [| s samples IH]; simpl; intros st st' Hinv Hf.
  - now injection Hf as <-.
  - destruct (aggregate st s) as [st1 |] eqn:Hagg; [| discriminate].
    eapply IH; [| exact Hf]. eapply invariant_aggregate; eassumption.
Qed.

Lemma feed_app before :
  forall st after,
    feed st (before ++ after)
    = match feed st before with
      | Some st' => feed st' after
      | None => None
      end.
Proof.
  induction before as [| s before IH]; simpl; intros st after.
  - reflexivity.
  - destruct (aggregate st s); [apply IH | reflexivity].
Qed.

(** Once captured, the metadata stays. *)
Lemma particle_data_kept_step st s st' p :
  invariant st -> particle_data st = Some p ->
  aggregate st s = Some st' -> particle_data st' = Some p.
Proof.
  intros Hinv Hp Hagg.
  destruct (Z.eq_dec (len (sample_data_temp_dict (collect st s)))
                     transducer_count) as [Hlen | Hlen].
  - pose proof (aggregate_complete file_time relpath _ st s Hinv Hlen)
      as Hc.
    rewrite Hagg in Hc.
    destruct Hc as (_ & _ & _ & _ & _ & _ & Hpart & _ & _).
    pose proof (captured _ _ Hinv) as Hcap. rewrite Hp in Hcap.
    destruct (power_data_dict st); [now destruct Hcap |].
    cbn [is_empty] in Hpart. congruence.
  - rewrite (aggregate_incomplete file_time relpath _ st s Hinv Hlen)
      in Hagg.
    injection Hagg as <-. exact Hp.
Qed.

Lemma particle_data_kept samples :
  forall st st' p,
    invariant st -> particle_data st = Some p ->
    feed st samples = Some st' -> particle_data st' = Some p.
Proof.
  induction samples as [| s samples IH]; simpl; intros st st' p Hinv Hp Hf.
  - now injection Hf as <-.
  - destruct (aggregate st s) as [st1 |] eqn:Hagg; [| discriminate].
    eapply IH; [| | exact Hf].
    + eapply invariant_aggregate; eassumption.
    + eapply particle_data_kept_step; eassumption.
Qed.

(** The channel map only holds channels of the samples fed. *)
Lemma temp_channels_step (P : Z -> Prop) st s st' :
  invariant st -> aggregate st s = Some st' ->
  Forall P (keys (sample_data_temp_dict st)) -> P (channel s) ->
  Forall P (keys (sample_data_temp_dict st')).
Proof.
  intros Hinv Hagg Hall Hs.
  assert (Hst : sample_data_temp_dict st'
                = sample_data_temp_dict (collect st s)).
  { destruct (Z.eq_dec (len (sample_data_temp_dict (collect st s)))
                       transducer_count) as [Hlen | Hlen].
    - pose proof (aggregate_complete file_time relpath _ st s Hinv Hlen)
        as Hc.
      rewrite Hagg in Hc. tauto.
    - rewrite (aggregate_incomplete file_time relpath _ st s Hinv Hlen)
        in Hagg.
      now injection Hagg as <-. }
  rewrite Hst. simpl. apply Forall_forall. intros x Hx.
  apply in_keys_set in Hx. destruct Hx as [-> | Hx]; [exact Hs |].
  destruct (time_differs _ _); [contradiction |].
  rewrite Forall_forall in Hall. now apply Hall.
Qed.

Lemma temp_channels (P : Z -> Prop) samples :
  forall st st',
    invariant st -> feed st samples = Some st' ->
    Forall P (keys (sample_data_temp_dict st)) ->
    Forall (fun s => P (channel s)) samples ->
    Forall P (keys (sample_data_temp_dict st')).
Proof.
  induction samples as [| s samples IH]; simpl;
    intros st st' Hinv Hf Hall Hs.
  - now injection Hf as <-.
  - destruct (aggregate st s) as [st1 |] eqn:Hagg; [| discriminate].
    inversion Hs as [| s' l Hs1 Hs2]; subst.
    eapply IH; [| exact Hf | | exact Hs2].
    + eapply invariant_aggregate; eassumption.
    + eapply temp_channels_step; eassumption.
Qed.

End Facts.

End PingAggregatorFacts.

(** ** The aggregator: completed pings and metadata *)

Module PingAggregatorTheorems.
Import Numpy SampleDecoder PingAggregator Dict DictFacts.
Import PingAggregatorFacts Float64 Float64Facts.
Local Open Scope string_scope.
Local Open Scope list_scope.
Local Open Scope Z_scope.

(** Runs the aggregator on samples whose channels are numbers and whose
    times are known to be equal or different. *)
Ltac run_feed HT HT' Hdiff :=
  repeat (cbn -[Float64.neb];
          try unfold aggregate; try unfold collect;
          try unfold time_differs; try unfold first_ping;
          cbn -[Float64.neb];
          rewrite ?(neb_refl _ HT), ?(neb_refl _ HT'), ?Hdiff).



Section FirstPing.
Variables (file_time relpath : string) (transducer_count : Z).

Notation aggregate := (aggregate file_time relpath transducer_count).
Notation feed := (feed file_time relpath transducer_count).
Notation metadata_from := (metadata_from file_time relpath).
Notation invariant := (invariant transducer_count).
Notation first_completion :=
  (first_completion file_time relpath transducer_count).

Lemma columns_length (d : dict record) :
  Forall (fun column => length column = length d)
         (columns (metadata_from d)).
Proof.
  unfold columns, PingAggregator.metadata_from, keys.
  cbn [zplsc_channel zplsc_transducer_depth zplsc_frequency
       zplsc_transmit_power zplsc_pulse_length zplsc_bandwidth
       zplsc_sample_interval zplsc_sound_velocity zplsc_absorption_coeff
       zplsc_temperature].
  repeat constructor; apply length_map.
Qed.

Lemma first_capture samples :
  forall done st0 st,
    invariant st0 -> particle_data st0 = None ->
    feed (initial transducer_count) done = Some st0 ->
    feed st0 samples = Some st ->
    match particle_data st with
    | None => data_times st = [] /\ power_data_dict st = []
    | Some (m, t) => first_completion (done ++ samples) m t
    end.
Proof.
  induction samples as [| s samples IH];
    intros done st0 st Hinv Hnone Hdone Hfeed.
  - simpl in Hfeed. injection Hfeed as <-. rewrite Hnone.
    pose proof (captured _ _ Hinv) as Hcap. now rewrite Hnone in Hcap.
  - simpl in Hfeed.
    destruct (aggregate st0 s) as [st1 |] eqn:Hagg; [| discriminate].
    pose proof (invariant_aggregate _ _ _ _ _ _ Hinv Hagg) as Hinv1.
    pose proof (captured _ _ Hinv) as Hcap. rewrite Hnone in Hcap.
    destruct Hcap as [Hdt0 Hpd0].
    destruct (particle_data st1) as [[m t] |] eqn:Hp1.
    + rewrite (particle_data_kept _ _ _ _ _ _ _ Hinv1 Hp1 Hfeed).
      destruct (Z.eq_dec (len (sample_data_temp_dict (collect st0 s)))
                         transducer_count) as [Hlen | Hlen].
      * pose proof (aggregate_complete file_time relpath _ st0 s Hinv Hlen)
          as Hc.
        rewrite Hagg in Hc.
        destruct Hc as (_ & Hst & Hpt & Hdt & Hkeys & _ & Hpart & _ & Hget).
        rewrite Hpd0 in Hkeys, Hpart, Hget. cbn [is_empty] in *.
        rewrite Hp1 in Hpart. injection Hpart as -> ->.
        exists done, s, samples, st0, st1.
        repeat split; try assumption.
        -- rewrite Hdt, Hdt0. reflexivity.
        -- rewrite Hst. exact Hlen.
        -- rewrite Hkeys. symmetry. apply (same_keys _ _ Hinv1).
        -- intros c pw Hc. rewrite Hget, Hc. reflexivity.
      * rewrite (aggregate_incomplete file_time relpath _ st0 s Hinv Hlen)
          in Hagg.
        injection Hagg as <-. simpl in Hp1. congruence.
    + specialize (IH (done ++ [s]) st1 st Hinv1 Hp1).
      rewrite <- app_assoc in IH. apply IH; [| exact Hfeed].
      rewrite feed_app, Hdone. simpl. now rewrite Hagg.
Qed.

End FirstPing.

Lemma channel_order transducer_count (d : dict record) :
  ordered d -> len d = transducer_count ->
  Forall (fun c => 1 <= c <= transducer_count) (keys d) ->
  keys d = trans_keys transducer_count.
Proof.
  intros Ho Hlen Hall. unfold trans_keys.
  assert (Hn : length (keys d) = Z.to_nat transducer_count).
  { unfold keys. rewrite length_map. unfold len in Hlen. lia. }
  rewrite <- Hn. apply sorted_full_range; [exact Ho |].
  eapply Forall_impl; [| exact Hall]. cbv beta. intros c Hc.
  rewrite Hn. lia.
Qed.

(** C3, as amended: the metadata of a file is that of its first
    completed ping and of no later one: the per-channel arrays are read
    from the channel map of that ping, each has [transducer_count]
    entries, every channel of the ping gets an empty list of power
    columns to which the ping's own column is added, and when all
    channels fed are between 1 and [transducer_count] the arrays are in
    channel order 1..[transducer_count]; with three transducers, channels
    1, 2, 3 at one time give one completed ping and arrays of length 3 in
    the order 1, 2, 3. *)
Theorem metadata_from_first_ping_only :
  (forall file_time relpath transducer_count samples st,
      feed file_time relpath transducer_count
           (initial transducer_count) samples = Some st ->
      match particle_data st with
      | None => data_times st = [] /\ power_data_dict st = []
      | Some (m, t) =>
          first_completion file_time relpath transducer_count samples m t /\
          Forall (fun column => Z.of_nat (length column) = transducer_count)
                 (columns m) /\
          (Forall (fun s => 1 <= channel s <= transducer_count) samples ->
           zplsc_channel m = trans_keys transducer_count)
      end)
  /\
  (forall file_time relpath (T : float) (a b c : Z)
          (r1 r2 r3 : record) (p1 p2 p3 : list Z),
      is_nan T = false ->
      In (a, b, c) [(1, 2, 3); (1, 3, 2); (2, 1, 3);
                    (2, 3, 1); (3, 1, 2); (3, 2, 1)] ->
      exists st m,
        feed file_time relpath 3 (initial 3)
             [mkSample a T r1 p1; mkSample b T r2 p2; mkSample c T r3 p3]
        = Some st /\
        data_times st = [T] /\ particle_data st = Some (m, T) /\
        zplsc_channel m = [1; 2; 3] /\
        Forall (fun column => length column = 3%nat) (columns m)).
Proof.
  split.
  - intros ft rp tc samples st Hfeed.
    pose proof (first_capture ft rp tc samples [] (initial tc) st
                  (invariant_initial tc) eq_refl eq_refl Hfeed) as Hfirst.
    destruct (particle_data st) as [[m t] |]; [| exact Hfirst].
    simpl app in Hfirst. split; [exact Hfirst |].
    destruct Hfirst as (before & s & after & st0 & st1 & Hsamples & Hbefore
                        & _ & Hagg & _ & _ & Hm & Hlen & _).
    assert (Hinv0 : invariant tc st0).
    { eapply invariant_feed; [apply invariant_initial | exact Hbefore]. }
    pose proof (invariant_aggregate _ _ _ _ _ _ Hinv0 Hagg) as Hinv1.
    split.
    + subst m. eapply Forall_impl; [| apply columns_length].
      simpl. intros column Hc. rewrite Hc. exact Hlen.
    + intros Hchannels. subst m. cbn [metadata_from zplsc_channel].
      apply channel_order; [apply (temp_ordered _ _ Hinv1) | exact Hlen |].
      apply (temp_channels ft rp tc (fun c => 1 <= c <= tc) (before ++ [s])
               (initial tc) st1 (invariant_initial tc)).
      * rewrite feed_app, Hbefore. simpl. now rewrite Hagg.
      * constructor.
      * subst samples. rewrite Forall_app in Hchannels.
        destruct Hchannels as [Hb Ha]. apply Forall_app. split; [exact Hb |].
        inversion Ha; subst. now repeat constructor.
  - intros ft rp T a b c r1 r2 r3 p1 p2 p3 HT Habc.
    simpl in Habc.
    repeat match goal with
           | H : _ \/ _ |- _ => destruct H
           | H : False |- _ => destruct H
           | H : (_, _) = (_, _) |- _ => injection H as <-
           end; subst;
      (eexists; eexists;
       split; [run_feed HT HT HT; reflexivity |];
       split; [reflexivity |]; split; [reflexivity |];
       split; [reflexivity |]; repeat constructor).
Qed.

Lemma metadata_from_first_ping_only_witness :
  exists st m,
    feed "20141211214622" "OOI-D20141211-T214622.png" 3 (initial 3)
         [mkSample 2 (of_Z 100) [("frequency", 38)] [5];
          mkSample 1 (of_Z 100) [("frequency", 120)] [6];
          mkSample 3 (of_Z 100) [("frequency", 200)] [7]] = Some st /\
    data_times st = [of_Z 100] /\ particle_data st = Some (m, of_Z 100) /\
    zplsc_channel m = [1; 2; 3] /\
    Forall (fun column => length column = 3%nat) (columns m).
Proof.
  apply (proj2 metadata_from_first_ping_only); [reflexivity | simpl; auto].
Defined.

(** C3, counterexample: with three transducers, samples for channels 0,
    1, 2 at one time complete a ping, and the metadata arrays are in the
    order 0, 1, 2. *)
Lemma metadata_channel_order_with_channel_0 :
  exists st m,
    feed "20141211214622" "OOI-D20141211-T214622.png" 3 (initial 3)
         [mkSample 0 (of_Z 100) [] [5]; mkSample 1 (of_Z 100) [] [6];
          mkSample 2 (of_Z 100) [] [7]] = Some st /\
    data_times st = [of_Z 100] /\
    particle_data st = Some (m, of_Z 100) /\
    zplsc_channel m = [0; 1; 2] /\
    zplsc_channel m <> trans_keys 3.
Proof.
  eexists; eexists.
  split; [vm_compute; reflexivity |].
  split; [reflexivity |]. split; [reflexivity |].
  split; [reflexivity | discriminate].
Qed.

Lemma ordered_NoDup (l : list Z) : StronglySorted Z.lt l -> NoDup l.
Proof.
  induction 1 as [| a l Hs IH Hall]; constructor; [| exact IH].
  intros Hin. rewrite Forall_forall in Hall. apply Hall in Hin. lia.
Qed.

(** C7, as amended: after a ping has completed at time [T], a further
    sample with the same time whose channel is already in the channel
    map leaves the map at [transducer_count] entries, so the ping
    completes again: [T] is appended to the time series a second time
    and every channel's power matrix gets one more column. *)
Theorem completed_ping_completes_again
        file_time relpath transducer_count samples st s st1 s' :
  feed file_time relpath transducer_count
       (initial transducer_count) samples = Some st ->
  aggregate file_time relpath transducer_count st s = Some st1 ->
  len (sample_data_temp_dict st1) = transducer_count ->
  time_differs (ntp_time s') (last_time st1) = false ->
  In (channel s') (keys (sample_data_temp_dict st1)) ->
  exists st2,
    aggregate file_time relpath transducer_count st1 s' = Some st2 /\
    len (sample_data_temp_dict st2) = transducer_count /\
    data_times st2 = data_times st ++ [ntp_time s; ntp_time s'] /\
    particle_data st2 = particle_data st1 /\
    forall c columns,
      get c (power_data_dict st1) = Some columns ->
      exists pw,
        get c (power_data_temp_dict st2) = Some pw /\
        get c (power_data_dict st2) = Some (columns ++ [pw]).
Proof.
  intros Hfeed Hagg Hlen1 Hsame Hin.
  assert (Hinv : invariant transducer_count st).
  { eapply invariant_feed; [apply invariant_initial | exact Hfeed]. }
  pose proof (invariant_aggregate _ _ _ _ _ _ Hinv Hagg) as Hinv1.
  (* the step that completed the ping *)
  assert (Hlen : len (sample_data_temp_dict (collect st s))
                 = transducer_count).
  { destruct (Z.eq_dec (len (sample_data_temp_dict (collect st s)))
                       transducer_count) as [Hl | Hl]; [exact Hl |].
    rewrite (aggregate_incomplete file_time relpath _ st s Hinv Hl) in Hagg.
    injection Hagg as <-. contradiction. }
  pose proof (aggregate_complete file_time relpath _ st s Hinv Hlen) as Hc.
  rewrite Hagg in Hc.
  destruct Hc as (_ & _ & _ & Hdt1 & _ & Hne1 & _ & Hsub1 & _).
  (* the channel map after the further sample *)
  assert (Hks : keys (sample_data_temp_dict (collect st1 s'))
                = keys (sample_data_temp_dict st1)).
  { simpl. rewrite Hsame. apply keys_set_present.
    - apply (temp_ordered _ _ Hinv1).
    - now apply get_in_keys. }
  assert (Hkp : keys (power_data_temp_dict (collect st1 s'))
                = keys (power_data_temp_dict st1)).
  { pose proof (invariant_collect _ st1 s' Hinv1) as Hi.
    rewrite <- (same_keys _ _ Hi), Hks. apply (same_keys _ _ Hinv1). }
  assert (Hlen2 : len (sample_data_temp_dict (collect st1 s'))
                  = transducer_count).
  { rewrite (len_keys _ (sample_data_temp_dict st1) Hks). exact Hlen1. }
  destruct (aggregate_no_key_error file_time relpath _ st1 s' Hinv1 Hne1)
    as [st2 Hagg2].
  { intros c Hc. rewrite Hkp in Hc. now apply Hsub1. }
  exists st2. split; [exact Hagg2 |].
  pose proof (aggregate_complete file_time relpath _ st1 s' Hinv1 Hlen2)
    as Hc.
  rewrite Hagg2 in Hc.
  destruct Hc as (_ & Hst2 & Hpt2 & Hdt2 & _ & _ & Hpart2 & _ & Hget2).
  destruct (power_data_dict st1) as [| kv pd] eqn:Hpd1; [congruence |].
  cbn [is_empty] in Hpart2, Hget2. rewrite <- Hpd1 in *.
  split; [rewrite Hst2; exact Hlen2 |].
  split; [rewrite Hdt2, Hdt1, <- app_assoc; reflexivity |].
  split; [exact Hpart2 |].
  intros c columns Hcols.
  (* the matrices are those of the channels of the map *)
  assert (Hincl : incl (keys (power_data_dict st1))
                       (keys (power_data_temp_dict st1))).
  { apply NoDup_length_incl.
    - apply ordered_NoDup. unfold ordered in *.
      rewrite <- (same_keys _ _ Hinv1). apply (temp_ordered _ _ Hinv1).
    - pose proof (matrices_count _ _ Hinv1 Hne1) as Hm.
      pose proof (len_keys _ _ (same_keys _ _ Hinv1)) as Hk.
      unfold len, keys in *. rewrite !length_map. lia.
    - exact Hsub1. }
  assert (Hc : In c (keys (power_data_temp_dict st2))).
  { rewrite Hpt2, Hkp. apply Hincl, get_in_keys. congruence. }
  apply get_in_keys in Hc.
  destruct (get c (power_data_temp_dict st2)) as [pw |] eqn:Hpw;
    [| congruence].
  exists pw. split; [reflexivity |].
  rewrite Hget2, Hpw, Hcols. reflexivity.
Qed.

Lemma completed_ping_completes_again_witness :
  exists st2,
    aggregate "20141211214622" "OOI-D20141211-T214622.png" 1
      (mkState (Some (of_Z 100)) [(1, [])] [(1, [5])] [(1, [[5]])]
               [of_Z 100]
               (Some (mkMetadata "20141211214622"
                        "OOI-D20141211-T214622.png"
                        [1] [0] [0] [0] [0] [0] [0] [0] [0] [0], of_Z 100))
               [(1, Some 0)] (Some (0, 0)))
      (mkSample 1 (of_Z 100) [] [6]) = Some st2 /\
    len (sample_data_temp_dict st2) = 1 /\
    data_times st2 = [] ++ [of_Z 100; of_Z 100] /\
    particle_data st2
    = Some (mkMetadata "20141211214622" "OOI-D20141211-T214622.png"
              [1] [0] [0] [0] [0] [0] [0] [0] [0] [0], of_Z 100) /\
    forall c columns,
      get c [(1, [[5]])] = Some columns ->
      exists pw,
        get c (power_data_temp_dict st2) = Some pw /\
        get c (power_data_dict st2) = Some (columns ++ [pw]).
Proof.
  apply (completed_ping_completes_again
           "20141211214622" "OOI-D20141211-T214622.png" 1
           [] (initial 1) (mkSample 1 (of_Z 100) [] [5]));
    [reflexivity | reflexivity | reflexivity | reflexivity
     | simpl; auto].
Defined.

(** C7, counterexample: with three transducers, after the ping of
    channels 1, 2, 3 has completed at a time, a sample of the in-range
    channel 0 with the same time makes the channel map hold four entries;
    the ping does not complete again. *)
Lemma in_range_channel_does_not_complete_again :
  exists st1 st2,
    feed "20141211214622" "OOI-D20141211-T214622.png" 3 (initial 3)
         [mkSample 1 (of_Z 100) [] [5]; mkSample 2 (of_Z 100) [] [6];
          mkSample 3 (of_Z 100) [] [7]] = Some st1 /\
    data_times st1 = [of_Z 100] /\
    aggregate "20141211214622" "OOI-D20141211-T214622.png" 3 st1
              (mkSample 0 (of_Z 100) [] [8]) = Some st2 /\
    len (sample_data_temp_dict st2) = 4 /\
    data_times st2 = [of_Z 100] /\
    power_data_dict st2 = power_data_dict st1.
Proof.
  eexists; eexists.
  split; [vm_compute; reflexivity |].
  split; [reflexivity |].
  split; [vm_compute; reflexivity |].
  repeat split.
Qed.

End PingAggregatorTheorems.

(** ** The scanner: termination and search *)

Module ScannerFacts.
Import Numpy NumpyFacts RawFile RawFileFacts SampleDecoder.
Import SampleDecoderFacts PingAggregator Scanner.
Local Open Scope nat_scope.

Lemma BLOCK_SIZE_bytes : Z.of_nat BLOCK_SIZE = 4096%Z.
Proof. reflexivity. Qed.

Lemma fromfile_content size count f :
  content (snd (fromfile size count f)) = content f.
Proof. reflexivity. Qed.

Lemma fromfile_pos size count f : pos f <= pos (snd (fromfile size count f)).
Proof. simpl. lia. Qed.

Lemma chunks_length n size bs : length (chunks n size bs) = n.
Proof.
  revert bs. induction n as [| n IH]; intros bs; simpl; [reflexivity |].
  now rewrite IH.
Qed.

(** One whole item was read only if the position moved by its size. *)
Lemma fromfile_one_pos size f item items f1 :
  0 < size ->
  fromfile size 1 f = (item :: items, f1) ->
  content f1 = content f /\ pos f1 = pos f + size.
Proof.
  intros Hsize Hread. unfold fromfile in Hread.
  change (1 <? 0)%Z with false in Hread. cbv iota in Hread.
  change (Z.to_nat 1) with 1 in Hread.
  pose proof (f_equal fst Hread) as Hitems.
  pose proof (f_equal snd Hread) as Hf1.
  cbn [fst snd] in Hitems, Hf1. subst f1. cbn [content pos].
  split; [reflexivity |].
  pose proof (chunks_length (Nat.min 1 (length (rest f) / size)) size
                (rest f)) as Hn.
  rewrite Hitems in Hn. cbn [length] in Hn.
  assert (Hdiv : 1 <= length (rest f) / size) by lia.
  assert (size <= length (rest f)).
  { destruct (Nat.le_gt_cases size (length (rest f))) as [Hle | Hgt];
      [exact Hle |].
    rewrite (Nat.div_small _ _ Hgt) in Hdiv. lia. }
  lia.
Qed.

Lemma fromfile_content_eq size count f items f1 :
  fromfile size count f = (items, f1) -> content f1 = content f.
Proof. unfold fromfile. now intros [= _ <-]. Qed.

Lemma process_sample_content f tc :
  content (snd (process_sample f tc)) = content f.
Proof.
  unfold process_sample.
  destruct (fromfile (itemsize sample_dtype) 1 f) as [items f1] eqn:H1.
  apply fromfile_content_eq in H1.
  destruct items as [| item items]; [exact H1 |].
  destruct (_ || _); [exact H1 |].
  destruct (fromfile (itemsize power_dtype) _ f1) as [pitems f2] eqn:H2.
  apply fromfile_content_eq in H2.
  set (f3 := if (1 <? field "mode" (unpack sample_dtype item))%Z
             then snd (fromfile (itemsize angle_dtype)
                         (field "count" (unpack sample_dtype item)) f2)
             else f2).
  assert (H3 : content f3 = content f2).
  { unfold f3. destruct (1 <? _)%Z; reflexivity. }
  destruct (fromfile (itemsize len_dtype) 1 f3) as [litems f4] eqn:H4.
  apply fromfile_content_eq in H4.
  destruct litems; simpl; congruence.
Qed.

(** Unless it raises, [process_sample] has read a whole header. *)
Lemma process_sample_moves f tc outcome log f' :
  process_sample f tc = (outcome, log, f') ->
  (forall e, outcome <> Raise e) ->
  pos f + itemsize sample_dtype <= pos f'.
Proof.
  unfold process_sample. intros Hps Hok.
  destruct (fromfile (itemsize sample_dtype) 1 f) as [[| item items] f1]
    eqn:Hhead.
  - injection Hps as <- _ _. now contradiction (Hok IndexError).
  - apply fromfile_one_pos in Hhead; [| simpl; lia].
    destruct Hhead as [_ Hpos1].
    destruct (_ || _).
    + injection Hps as _ _ <-. lia.
    + destruct (fromfile (itemsize power_dtype) _ f1) as [pitems f2] eqn:Hp.
      assert (Hp2 : pos f1 <= pos f2).
      { change f2 with (snd (pitems, f2)). rewrite <- Hp.
        apply fromfile_pos. }
      set (f3 := if (1 <? field "mode" (unpack sample_dtype item))%Z
                 then snd (fromfile (itemsize angle_dtype)
                             (field "count" (unpack sample_dtype item)) f2)
                 else f2) in *.
      assert (Hp3 : pos f2 <= pos f3).
      { unfold f3. destruct (1 <? _)%Z; [apply fromfile_pos | lia]. }
      destruct (fromfile (itemsize len_dtype) 1 f3)
        as [[| litem litems] f4] eqn:Hl.
      * injection Hps as <- _ _. now contradiction (Hok IndexError).
      * injection Hps as _ _ <-.
        assert (Hp4 : pos f3 <= pos f4).
        { change f4 with (snd (litem :: litems, f4)). rewrite <- Hl.
          apply fromfile_pos. }
        lia.
Qed.

Section Scan.
Variable SAMPLE_MATCHER : list byte -> bool.
Variables (file_time relpath : string) (transducer_count : Z).

Notation scan_block :=
  (scan_block SAMPLE_MATCHER file_time relpath transducer_count).
Notation scan := (scan SAMPLE_MATCHER file_time relpath transducer_count).
Notation search := (search SAMPLE_MATCHER).

(** A pass that does not end the loop leaves the file further on. *)
Lemma scan_block_moves position raw f p f2 p2 :
  scan_block position raw f p = inl (f2, p2) ->
  content f2 = content f /\ position < pos f2.
Proof.
  unfold scan_block, seek.
  pose proof BLOCK_SIZE_bytes as HB.
  destruct (search raw) as [start |].
  - destruct (Z.ltb_spec
                (Z.of_nat position
                 + (Z.of_nat start - Z.of_nat LENGTH_SIZE)) 0);
      [discriminate |].
    set (f1 := mkFile (content f) _).
    destruct (process_sample f1 transducer_count) as [[outcome lg] f3]
      eqn:Hps.
    pose proof (process_sample_content f1 transducer_count) as Hc.
    rewrite Hps in Hc. simpl in Hc.
    pose proof (process_sample_moves _ _ _ _ _ Hps) as Hm.
    assert (Hsize : itemsize sample_dtype = 88) by reflexivity.
    assert (HL : LENGTH_SIZE = 4) by reflexivity.
    destruct outcome as [s | | e].
    + destruct (aggregate _ _ _ _ _); [| discriminate].
      intros [= <- <-]. split; [exact Hc |].
      assert (pos f1 + itemsize sample_dtype <= pos f3)
        by (apply Hm; discriminate).
      subst f1. simpl in *. lia.
    + intros [= <- <-]. split; [exact Hc |].
      assert (pos f1 + itemsize sample_dtype <= pos f3)
        by (apply Hm; discriminate).
      subst f1. simpl in *. lia.
    + discriminate.
  - destruct (Z.ltb_spec
                (Z.of_nat position + Z.of_nat BLOCK_SIZE - 4) 0);
      [discriminate |].
    intros [= <- <-]. simpl. split; [reflexivity | lia].
Qed.

Lemma more_to_scan_rest f :
  more_to_scan (fst (read BLOCK_SIZE f)) = true ->
  pos f < length (content f).
Proof.
  unfold more_to_scan, read, rest. cbn [fst]. intros Hmore.
  apply Nat.ltb_lt in Hmore.
  pose proof (length_firstn BLOCK_SIZE (skipn (pos f) (content f))) as Hl.
  rewrite length_skipn in Hl. lia.
Qed.

(** The loop ends: fuel beyond the bytes left changes nothing. *)
Lemma scan_fuel fuel :
  forall fuel' f p,
    length (content f) - pos f < fuel ->
    length (content f) - pos f < fuel' ->
    scan fuel f p = scan fuel' f p.
Proof.
  induction fuel as [| fuel IH]; intros [| fuel'] f p Hf Hf'; try lia.
  cbn [Scanner.scan].
  destruct (read BLOCK_SIZE f) as [raw f1] eqn:Hread.
  destruct (more_to_scan raw) eqn:Hmore; [| reflexivity].
  assert (Hpos : pos f < length (content f)).
  { apply more_to_scan_rest. now rewrite Hread. }
  assert (Hc1 : content f1 = content f).
  { unfold read in Hread. now injection Hread as _ <-. }
  destruct (scan_block (tell f) raw f1 p) as [[f2 p2] | r] eqn:Hblock;
    [| reflexivity].
  apply scan_block_moves in Hblock. destruct Hblock as [Hc2 Hp2].
  unfold tell in Hp2.
  apply IH; rewrite Hc2, Hc1; lia.
Qed.

Lemma scan_total fuel :
  forall f p, length (content f) - pos f < fuel -> scan fuel f p <> None.
Proof.
  induction fuel as [| fuel IH]; intros f p Hf; [lia |].
  cbn [Scanner.scan].
  destruct (read BLOCK_SIZE f) as [raw f1] eqn:Hread.
  destruct (more_to_scan raw) eqn:Hmore; [| discriminate].
  assert (Hpos : pos f < length (content f)).
  { apply more_to_scan_rest. now rewrite Hread. }
  assert (Hc1 : content f1 = content f).
  { unfold read in Hread. now injection Hread as _ <-. }
  destruct (scan_block (tell f) raw f1 p) as [[f2 p2] | r] eqn:Hblock;
    [| discriminate].
  apply scan_block_moves in Hblock. destruct Hblock as [Hc2 Hp2].
  unfold tell in Hp2.
  apply IH; rewrite Hc2, Hc1; lia.
Qed.

(** The loop, unrolled once. *)
Lemma scan_unfold fuel f p :
  length (content f) - pos f < fuel ->
  scan fuel f p
  = let raw := firstn BLOCK_SIZE (rest f) in
    if more_to_scan raw then
      match scan_block (pos f) raw
                       (mkFile (content f) (pos f + length raw)) p with
      | inl (f2, p') => scan fuel f2 p'
      | inr r => Some r
      end
    else Some (Finished p).
Proof.
  intros Hf.
  rewrite (scan_fuel fuel (S fuel) f p Hf) by lia.
  cbn [Scanner.scan]. unfold read, tell. reflexivity.
Qed.

End Scan.

Lemma window_cons x bs i : window (x :: bs) (S i) = window bs i.
Proof. reflexivity. Qed.

Lemma window_length bs i : length (window bs i) = Nat.min 4 (length bs - i).
Proof. unfold window. now rewrite length_firstn, length_skipn. Qed.

(** A window that lies inside a block is the window of the file. *)
Lemma window_block bs position n i :
  i + 4 <= n ->
  window (firstn n (skipn position bs)) i = window bs (position + i).
Proof.
  intros Hi. unfold window.
  rewrite skipn_firstn_comm, firstn_firstn, skipn_skipn.
  rewrite Nat.min_l by lia. f_equal. f_equal. lia.
Qed.

Lemma window_block_short bs position n i :
  n < i + 4 -> length (window (firstn n (skipn position bs)) i) < 4.
Proof.
  intros Hi. rewrite window_length, length_firstn. lia.
Qed.

Section Scan.
Variable SAMPLE_MATCHER : list byte -> bool.
Variables (file_time relpath : string) (transducer_count : Z).

(** A signature is four bytes long. *)
Hypothesis signature_length :
  forall w, SAMPLE_MATCHER w = true -> length w = 4.

Notation scan_block :=
  (scan_block SAMPLE_MATCHER file_time relpath transducer_count).
Notation scan := (scan SAMPLE_MATCHER file_time relpath transducer_count).
Notation search := (search SAMPLE_MATCHER).

Lemma search_none raw :
  (forall i, SAMPLE_MATCHER (window raw i) = false) -> search raw = None.
Proof.
  induction raw as [| x raw IH]; intros Hnone; [reflexivity |].
  cbn [Scanner.search]. rewrite (Hnone 0).
  rewrite IH; [reflexivity |].
  intros i. rewrite <- (window_cons x). apply Hnone.
Qed.

Lemma search_first p :
  forall raw,
    SAMPLE_MATCHER (window raw p) = true ->
    (forall i, i < p -> SAMPLE_MATCHER (window raw i) = false) ->
    search raw = Some p.
Proof.
  induction p as [| p IH]; intros raw Hp Hbefore.
  - destruct raw as [| x raw].
    + apply signature_length in Hp. discriminate.
    + cbn [Scanner.search]. now rewrite Hp.
  - destruct raw as [| x raw].
    + apply signature_length in Hp. discriminate.
    + cbn [Scanner.search]. rewrite (Hbefore 0) by lia.
      rewrite (IH raw); [reflexivity | exact Hp |].
      intros i Hi. rewrite <- (window_cons x). apply Hbefore. lia.
Qed.

(** A block without a signature: the file is left four bytes before
    the end of the block. *)
Lemma scan_block_miss position raw f p :
  search raw = None ->
  scan_block position raw f p
  = inl (mkFile (content f) (position + BLOCK_SIZE - 4), p).
Proof.
  intros Hnone. unfold scan_block, seek. rewrite Hnone.
  pose proof BLOCK_SIZE_bytes as HB.
  destruct (Z.ltb_spec (Z.of_nat position + Z.of_nat BLOCK_SIZE - 4) 0);
    [lia |].
  do 3 f_equal. lia.
Qed.

Lemma block_without_signature bs position :
  (forall i, position <= i -> i + 4 <= position + BLOCK_SIZE ->
             SAMPLE_MATCHER (window bs i) = false) ->
  search (firstn BLOCK_SIZE (skipn position bs)) = None.
Proof.
  intros Hnone. apply search_none. intros i.
  destruct (Nat.le_gt_cases (i + 4) BLOCK_SIZE) as [Hin | Hout].
  - rewrite window_block by exact Hin. apply Hnone; lia.
  - destruct (SAMPLE_MATCHER _) eqn:Hm; [| reflexivity].
    apply signature_length in Hm.
    pose proof (window_block_short bs position BLOCK_SIZE i Hout). lia.
Qed.

(** No candidate is found where no signature is left. *)
Lemma scan_without_signature bs n :
  forall position p fuel,
    length bs - position < n ->
    length bs - position < fuel ->
    (forall i, position <= i -> SAMPLE_MATCHER (window bs i) = false) ->
    scan fuel (mkFile bs position) p = Some (Finished p).
Proof.
  induction n as [| n IH]; intros position p fuel Hn Hfuel Hnone; [lia |].
  rewrite scan_unfold by exact Hfuel. cbv zeta.
  unfold rest. cbn [content pos].
  destruct (more_to_scan _) eqn:Hmore; [| reflexivity].
  assert (Hpos : position < length bs).
  { apply (more_to_scan_rest (mkFile bs position)). exact Hmore. }
  rewrite scan_block_miss.
  - cbn [content]. pose proof BLOCK_SIZE_bytes.
    apply IH; try lia. intros i Hi. apply Hnone. lia.
  - apply block_without_signature. intros i Hi _. now apply Hnone.
Qed.

(** The passes up to the block that holds the first signature, at
    offset [q]. *)
Lemma scan_to_signature bs q n :
  forall position p fuel,
    q - position < n ->
    position <= q ->
    q + 4 < length bs ->
    length bs - position < fuel ->
    (forall i, position <= i -> i < q ->
               SAMPLE_MATCHER (window bs i) = false) ->
    SAMPLE_MATCHER (window bs q) = true ->
    exists block_start raw f,
      search raw = Some (q - block_start) /\
      block_start <= q /\ content f = bs /\
      scan fuel (mkFile bs position) p
      = match scan_block block_start raw f p with
        | inl (f2, p') => scan fuel f2 p'
        | inr r => Some r
        end.
Proof.
  pose proof BLOCK_SIZE_bytes as HB.
  induction n as [| n IH];
    intros position p fuel Hn Hle Hq Hfuel Hnone Hsig; [lia |].
  rewrite scan_unfold by exact Hfuel. cbv zeta.
  unfold rest. cbn [content pos].
  assert (Hmore : more_to_scan (firstn BLOCK_SIZE (skipn position bs))
                  = true).
  { unfold more_to_scan. apply Nat.ltb_lt.
    rewrite length_firstn, length_skipn. lia. }
  rewrite Hmore.
  destruct (Nat.le_gt_cases (q + 4) (position + BLOCK_SIZE))
    as [Hin | Hout].
  - exists position, (firstn BLOCK_SIZE (skipn position bs)),
           (mkFile bs
              (position
               + length (firstn BLOCK_SIZE (skipn position bs)))).
    repeat split; [| exact Hle].
    apply search_first.
    + rewrite window_block by lia.
      replace (position + (q - position)) with q by lia. exact Hsig.
    + intros i Hi. rewrite window_block by lia. apply Hnone; lia.
  - rewrite scan_block_miss.
    + cbn [content].
      apply IH; try lia; [| exact Hsig].
      intros i Hi Hiq. apply Hnone; lia.
    + apply block_without_signature. intros i Hi Hi4.
      apply Hnone; lia.
Qed.


End Scan.

End ScannerFacts.

(** ** The scanner and the decoder together *)

Module ScannerTheorems.
Import Numpy NumpyFacts RawFile RawFileFacts SampleDecoder.
Import SampleDecoderFacts PingAggregator Scanner ScannerFacts.
Import Dict DictFacts PingAggregatorFacts.
Local Open Scope string_scope.
Local Open Scope list_scope.
Local Open Scope Z_scope.

Lemma is_RAW0_length w : is_RAW0 w = true -> length w = 4%nat.
Proof.
  unfold is_RAW0. destruct (list_eq_dec _ w RAW0) as [-> | _];
    [reflexivity | discriminate].
Qed.




Lemma in_range_test ch tc :
  (ch <? 0) || (tc <? ch) = false <-> 0 <= ch <= tc.
Proof.
  rewrite orb_false_iff, !Z.ltb_ge. lia.
Qed.

(** What the loop body does with a block in which a signature is found
    and the decoder's outcome there. *)
Lemma scan_block_match SAMPLE_MATCHER file_time relpath transducer_count
      position raw f p start f1 :
  search SAMPLE_MATCHER raw = Some start ->
  seek f (Z.of_nat position + (Z.of_nat start - Z.of_nat LENGTH_SIZE))
  = Some f1 ->
  scan_block SAMPLE_MATCHER file_time relpath transducer_count
             position raw f p
  = let p1 := mkProgress (agg p) (log p) (candidates p ++ [tell f1]) in
    match process_sample f1 transducer_count with
    | (Return s, warnings, f2) =>
        match aggregate file_time relpath transducer_count (agg p) s with
        | None =>
            inr (Raised KeyError
                   (mkProgress (agg p) (log p ++ warnings) (candidates p1)))
        | Some st' =>
            inl (f2, mkProgress st' (log p ++ warnings) (candidates p1))
        end
    | (InvalidTransducer, warnings, f2) =>
        inl (f2, mkProgress (agg p) (log p ++ warnings) (candidates p1))
    | (Raise e, warnings, f2) =>
        inr (Raised e
               (mkProgress (agg p) (log p ++ warnings) (candidates p1)))
    end.
Proof.
  intros Hsearch Hseek. unfold scan_block. rewrite Hsearch, Hseek.
  reflexivity.
Qed.

(** C4: the decoder accepts a sample datagram exactly when its channel
    is between 0 and [transducer_count]; otherwise it signals
    [InvalidTransducer], which the loop catches: the pass ends with the
    loop variables of the aggregator unchanged and the loop goes on from
    the position behind the header. *)
Theorem invalid_channel_is_skipped
        SAMPLE_MATCHER file_time relpath transducer_count :
  (forall f item items f1,
      fromfile (itemsize sample_dtype) 1 f = (item :: items, f1) ->
      let ch := field "channel_number" (unpack sample_dtype item) in
      (0 <= ch <= transducer_count <->
       fst (fst (process_sample f transducer_count)) <> InvalidTransducer)
      /\
      (~ 0 <= ch <= transducer_count ->
       process_sample f transducer_count
       = (InvalidTransducer, [InvalidChannel ch transducer_count], f1)))
  /\
  (forall header power angles length2 before after,
      well_formed header power angles length2 ->
      let ch := field "channel_number" (decoded_header header) in
      let bytes :=
        before ++ encode_sample header power angles length2 ++ after in
      (0 <= ch <= transducer_count ->
       exists warnings f',
         process_sample (mkFile bytes (length before)) transducer_count
         = (Return (decoded header power), warnings, f'))
      /\
      (~ 0 <= ch <= transducer_count ->
       process_sample (mkFile bytes (length before)) transducer_count
       = (InvalidTransducer, [InvalidChannel ch transducer_count],
          mkFile bytes (length before + itemsize sample_dtype))))
  /\
  (forall position raw f p start f1 warnings f2,
      search SAMPLE_MATCHER raw = Some start ->
      seek f (Z.of_nat position + (Z.of_nat start - Z.of_nat LENGTH_SIZE))
      = Some f1 ->
      process_sample f1 transducer_count
      = (InvalidTransducer, warnings, f2) ->
      scan_block SAMPLE_MATCHER file_time relpath transducer_count
                 position raw f p
      = inl (f2, mkProgress (agg p) (log p ++ warnings)
                            (candidates p ++ [tell f1]))).
Proof.
  split; [| split].
  - intros f item items f1 Hread ch.
    unfold process_sample. rewrite Hread. fold ch.
    destruct ((ch <? 0) || (transducer_count <? ch)) eqn:Htest.
    + assert (Hout : ~ 0 <= ch <= transducer_count).
      { intros Hin. apply in_range_test in Hin. congruence. }
      split; [| reflexivity].
      cbn [fst]. split; [contradiction | congruence].
    + assert (Hin : 0 <= ch <= transducer_count)
        by (now apply in_range_test).
      split; [| contradiction].
      split; [| intros _; exact Hin]. intros _.
      destruct (fromfile (itemsize power_dtype) _ f1) as [pitems f2].
      destruct (fromfile (itemsize len_dtype) 1 _) as [[| litem litems] f4];
        cbn [fst]; discriminate.
  - intros header power angles length2 before after Hwf ch bytes.
    pose proof (process_sample_encoded header power angles length2
                  before after transducer_count Hwf) as Hps.
    cbv zeta in Hps. fold ch bytes in Hps.
    destruct ((ch <? 0) || (transducer_count <? ch)) eqn:Htest.
    + assert (Hout : ~ 0 <= ch <= transducer_count).
      { intros Hin. apply in_range_test in Hin. congruence. }
      split; [contradiction | intros _; exact Hps].
    + assert (Hin : 0 <= ch <= transducer_count)
        by (now apply in_range_test).
      split; [intros _; eauto | contradiction].
  - intros position raw f p start f1 warnings f2 Hsearch Hseek Hps.
    rewrite (scan_block_match _ _ _ _ _ _ _ _ _ _ Hsearch Hseek).
    cbv zeta. rewrite Hps. reflexivity.
Qed.

Lemma example_well_formed channel :
  - 32768 <= channel < 32768 ->
  forall length2, - 2147483648 <= length2 < 2147483648 ->
  well_formed (example_header channel 0 2) [5; -7] [] length2.
Proof.
  intros Hc length2 Hl. unfold well_formed.
  split; [| split; [| split; [| split]]].
  - unfold example_header.
    repeat (constructor; [cbv -[Z.le Z.lt]; try lia |]).
    constructor.
  - repeat (constructor; [cbv -[Z.le Z.lt]; lia |]). constructor.
  - reflexivity.
  - reflexivity.
  - cbv -[Z.le Z.lt]. lia.
Qed.

Lemma invalid_channel_is_skipped_witness :
  process_sample
    (mkFile ([Byte.x00; Byte.x00]
             ++ encode_sample (example_header (-1) 0 2) [5; -7] [] 88
             ++ [])
            2) 3
  = (InvalidTransducer, [InvalidChannel (-1) 3],
     mkFile ([Byte.x00; Byte.x00]
             ++ encode_sample (example_header (-1) 0 2) [5; -7] [] 88
             ++ [])
            (2 + 88)).
Proof.
  apply (proj2 (proj1 (proj2 (invalid_channel_is_skipped
                                is_RAW0 "20141211214622"
                                "OOI-D20141211-T214622.png" 3))
                  (example_header (-1) 0 2) [5; -7] [] 88
                  [Byte.x00; Byte.x00] []
                  (example_well_formed (-1) ltac:(lia) 88 ltac:(lia)))).
  cbv. intros [H _]. now apply H.
Defined.

Lemma length_encode_sample header power angles length2 length2' :
  length (encode_sample header power angles length2)
  = length (encode_sample header power angles length2').
Proof.
  unfold encode_sample. rewrite !length_app, !length_encode. reflexivity.
Qed.

Lemma well_formed_length1 header power angles length2 :
  well_formed header power angles length2 ->
  well_formed header power angles (field "length1" (decoded_header header)).
Proof.
  intros (Hh & Hp & Hc & Ha & Hl). repeat split; try assumption;
    inversion Hh as [| k v ks vs Hv _]; subst; apply Hv.
Qed.

(** C6: a sample datagram whose trailing length differs from its leading
    length is decoded to the record it would give with matching lengths;
    the decoder logs a warning and returns; the record goes to the
    aggregator and the loop goes on from the position behind the
    datagram. *)
Theorem length_mismatch_is_only_logged
        SAMPLE_MATCHER file_time relpath transducer_count
        header power angles length2 before after :
  well_formed header power angles length2 ->
  let sd := decoded_header header in
  0 <= field "channel_number" sd <= transducer_count ->
  field "length1" sd <> length2 ->
  let data := encode_sample header power angles length2 in
  let matching := encode_sample header power angles (field "length1" sd) in
  let warning := MismatchingLength (field "length1" sd) length2 in
  process_sample (mkFile (before ++ data ++ after) (length before))
                 transducer_count
  = (Return (decoded header power), [warning],
     mkFile (before ++ data ++ after) (length before + length data))
  /\
  process_sample (mkFile (before ++ matching ++ after) (length before))
                 transducer_count
  = (Return (decoded header power), [],
     mkFile (before ++ matching ++ after) (length before + length data))
  /\
  forall position raw current p start,
    search SAMPLE_MATCHER raw = Some start ->
    Z.of_nat position + (Z.of_nat start - Z.of_nat LENGTH_SIZE)
    = Z.of_nat (length before) ->
    scan_block SAMPLE_MATCHER file_time relpath transducer_count
               position raw (mkFile (before ++ data ++ after) current) p
    = match aggregate file_time relpath transducer_count (agg p)
                      (decoded header power) with
      | Some st' =>
          inl (mkFile (before ++ data ++ after)
                      (length before + length data),
               mkProgress st' (log p ++ [warning])
                          (candidates p ++ [length before]))
      | None =>
          inr (Raised KeyError
                 (mkProgress (agg p) (log p ++ [warning])
                             (candidates p ++ [length before])))
      end.
Proof.
  intros Hwf sd Hch Hne data matching warning.
  subst data matching warning sd.
  apply in_range_test in Hch.
  set (sd := decoded_header header) in *.
  set (data := encode_sample header power angles length2).
  set (warning := MismatchingLength (field "length1" sd) length2).
  assert (Hbad : process_sample
                   (mkFile (before ++ data ++ after) (length before))
                   transducer_count
                 = (Return (decoded header power), [warning],
                    mkFile (before ++ data ++ after)
                           (length before + length data))).
  { unfold data, sd.
    rewrite (process_sample_encoded header power angles length2
               before after transducer_count Hwf).
    fold sd. rewrite Hch.
    destruct (Z.eqb_spec (field "length1" sd) length2);
      [contradiction | reflexivity]. }
  split; [exact Hbad | split].
  - unfold sd.
    rewrite (process_sample_encoded header power angles _
               before after transducer_count
               (well_formed_length1 _ _ _ _ Hwf)).
    fold sd. rewrite Hch, Z.eqb_refl.
    unfold data.
    now rewrite (length_encode_sample header power angles length2
                   (field "length1" sd)).
  - intros position raw current p start Hsearch Htarget.
    rewrite (scan_block_match _ _ _ _ _ _ _ _ _
               (mkFile (before ++ data ++ after) (length before)) Hsearch).
    + cbv zeta. rewrite Hbad. reflexivity.
    + unfold seek. rewrite Htarget.
      destruct (Z.ltb_spec (Z.of_nat (length before)) 0); [lia |].
      now rewrite Nat2Z.id.
Qed.

Lemma length_mismatch_is_only_logged_witness :
  process_sample
    (mkFile ([Byte.x00; Byte.x00]
             ++ encode_sample (example_header 1 0 2) [5; -7] [] 87
             ++ [])
            2) 3
  = (Return (decoded (example_header 1 0 2) [5; -7]),
     [MismatchingLength 88 87],
     mkFile ([Byte.x00; Byte.x00]
             ++ encode_sample (example_header 1 0 2) [5; -7] [] 87
             ++ [])
            (2 + 96)).
Proof.
  apply (length_mismatch_is_only_logged
           is_RAW0 "20141211214622" "OOI-D20141211-T214622.png" 3
           (example_header 1 0 2) [5; -7] [] 87 [Byte.x00; Byte.x00] []
           (example_well_formed 1 ltac:(lia) 87 ltac:(lia))).
  - cbv. split; discriminate.
  - cbv. discriminate.
Defined.

(** The first sample of a file never raises in the aggregator. *)
Lemma aggregate_first file_time relpath transducer_count st s :
  invariant transducer_count st ->
  power_data_dict st = [] ->
  exists st', aggregate file_time relpath transducer_count st s = Some st'.
Proof.
  intros Hinv Hempty. unfold aggregate.
  destruct (ping_complete _ _); [| eauto].
  change (power_data_dict (collect st s)) with (power_data_dict st).
  rewrite Hempty. cbn [is_empty].
  destruct (first_ping_fields file_time relpath (collect st s) (ntp_time s)
              (collect_not_empty st s))
    as (_ & _ & Hpt & Hpdd & _).
  rewrite Hpt, Hpdd.
  destruct (save_power_defined
              (power_data_temp_dict (collect st s))
              (map (fun kv => (fst kv, [])) (power_data_temp_dict (collect st s))))
    as [pd Hsave].
  { intros c Hc. now rewrite (keys_map_values (fun _ => [])). }
  rewrite Hsave. eauto.
Qed.





(** A signature that straddles the first block boundary: the datagram
    starts at offset 4089, its signature at 4093, and is found in the
    second block, read from offset 4092. *)
Example straddling_signature_is_found :
  match parse_loop is_RAW0 "20141211214622" "OOI-D20141211-T214622.png" 3
                   (repeat Byte.x00 4089
                    ++ encode_sample (example_header 1 0 2) [5; -7] [] 88)
                   0 with
  | Some (Finished p) =>
      candidates p = [4089%nat] /\ log p = [] /\
      sample_data_temp_dict (agg p)
      = [(1, decoded_header (example_header 1 0 2))] /\
      power_data_temp_dict (agg p) = [(1, [5; -7])]
  | _ => False
  end.
Proof. vm_compute. repeat split. Qed.

End ScannerTheorems.

(** ** The Sv conversion *)

Module SvConverterFacts.
Import SvConverter.
Local Open Scope nat_scope.

Section Lists.
Context {A B : Type}.

Lemma nth_tabulate (f : nat -> A) (n i : nat) (d : A) :
  i < n -> nth i (map f (seq 0 n)) d = f i.
Proof.
  intros Hi.
  rewrite (nth_indep _ d (f 0)) by (rewrite length_map, length_seq; lia).
  rewrite map_nth, seq_nth by lia. reflexivity.
Qed.


Lemma rev_tabulate (f : nat -> A) (n : nat) :
  rev (map f (seq 0 n)) = map (fun i => f (n - 1 - i)) (seq 0 n).
Proof.
  induction n as [| n IH]; [reflexivity |].
  rewrite seq_S at 1. rewrite map_app, rev_app_distr.
  cbn [map rev app plus].
  rewrite IH. cbn [seq map].
  replace (S n - 1 - 0) with n by lia. f_equal.
  rewrite <- seq_shift, map_map.
  apply map_ext. intros i. f_equal. lia.
Qed.

Lemma combine_tabulate (f : nat -> A) (g : nat -> B) (n : nat) :
  combine (map f (seq 0 n)) (map g (seq 0 n))
  = map (fun i => (f i, g i)) (seq 0 n).
Proof.
  generalize 0. induction n as [| n IH]; intros start; [reflexivity |].
  cbn [seq map combine]. now rewrite IH.
Qed.


End Lists.

Section Arrays.
Context {F : Type} `{FloatOps F}.
Notation tabulate := (@tabulate F).

Lemma tabulate_ext r c g g' :
  (forall i j, i < r -> j < c -> g i j = g' i j) ->
  tabulate r c g = tabulate r c g'.
Proof.
  intros Hg. unfold tabulate. f_equal.
  apply map_ext_in. intros i Hi. apply in_seq in Hi.
  apply map_ext_in. intros j Hj. apply in_seq in Hj.
  apply Hg; lia.
Qed.

Lemma at2_tabulate r c g i j :
  i < r -> j < c -> at2 (tabulate r c g) i j = g i j.
Proof.
  intros Hi Hj. unfold at2, tabulate. cbn [rows].
  rewrite (nth_tabulate _ r i) by exact Hi.
  apply nth_tabulate. exact Hj.
Qed.

Lemma well_shaped_tabulate r c g : well_shaped (tabulate r c g).
Proof.
  unfold well_shaped, tabulate. cbn [rows nrows ncols]. split.
  - now rewrite length_map, length_seq.
  - apply Forall_forall. intros row Hrow. apply in_map_iff in Hrow.
    destruct Hrow as (i & <- & _). now rewrite length_map, length_seq.
Qed.


Lemma transpose_tabulate r c g :
  transpose (tabulate r c g) = tabulate c r (fun j i => g i j).
Proof.
  unfold transpose, tabulate. cbn [rows nrows ncols]. f_equal.
  apply map_ext_in. intros j Hj. apply in_seq in Hj.
  rewrite map_map. apply map_ext. intros i.
  apply nth_tabulate. lia.
Qed.

Lemma flipud_tabulate r c g :
  flipud (tabulate r c g) = tabulate r c (fun i j => g (r - 1 - i) j).
Proof.
  unfold flipud, tabulate. cbn [rows nrows ncols]. f_equal.
  apply (rev_tabulate (fun i => map (g i) (seq 0 c))).
Qed.

Lemma with_scalar_tabulate op r c g s :
  with_scalar op (tabulate r c g) s
  = tabulate r c (fun i j => op (g i j) s).
Proof.
  unfold with_scalar, tabulate. cbn [rows nrows ncols]. f_equal.
  rewrite map_map. apply map_ext. intros i. now rewrite map_map.
Qed.

(** Broadcasting a vector as long as the rows. *)
Lemma with_vector_tabulate op r c g (h : nat -> F) :
  with_vector op (tabulate r c g) (map h (seq 0 c))
  = Some (tabulate r c (fun i j => op (g i j) (h j))).
Proof.
  unfold with_vector. cbn [ncols tabulate].
  rewrite length_map, length_seq, Nat.eqb_refl.
  unfold tabulate. cbn [rows nrows]. do 2 f_equal.
  rewrite map_map. apply map_ext. intros i.
  now rewrite combine_tabulate, map_map.
Qed.

(** Broadcasting a vector of one entry. *)
Lemma with_vector_single op r c g (x : F) :
  with_vector op (tabulate r c g) [x]
  = Some (tabulate r c (fun i j => op (g i j) x)).
Proof.
  unfold with_vector. cbn [ncols tabulate length].
  destruct (Nat.eqb_spec c 1) as [-> | Hc].
  - unfold tabulate. cbn [rows nrows seq map combine fst snd].
    do 2 f_equal. rewrite map_map. reflexivity.
  - cbn [Nat.eqb nth]. now rewrite with_scalar_tabulate.
Qed.



End Arrays.

Section Conversion.
Context {F : Type} `{FloatOps F}.
Notation before_Sac := (@before_Sac F _).

Lemma fill_masked_cons (x : F) a b mask s :
  fill_masked (x :: a) (b :: mask) s
  = (if b then s else x) :: fill_masked a mask s.
Proof. reflexivity. Qed.

Lemma fill_masked_map (p : F -> bool) (l : list F) (s : F) :
  fill_masked l (map p l) s = map (fun x => if p x then s else x) l.
Proof.
  induction l as [| x l IH]; [reflexivity |].
  cbn [map]. now rewrite fill_masked_cons, IH.
Qed.

(** The two masked assignments of [TVG] together assign every entry. *)
Lemma masked_assignments (p : F -> bool) (g : F -> F) (z z' : F) rc :
  fill_masked
    (put_masked (repeat z (length rc))
                (map (fun r => negb (p r)) rc)
                (map g (select rc (map (fun r => negb (p r)) rc))))
    (map p rc) z'
  = map (fun r => if p r then z' else g r) rc.
Proof.
  induction rc as [| r rc IH]; [reflexivity |].
  cbn [length repeat map select put_masked].
  destruct (p r); cbn [negb map put_masked];
    rewrite fill_masked_cons; cbn iota; now rewrite IH.
Qed.

Lemma rangeCorrected_spec cal n :
  rangeCorrected cal n = map (rangeCorrected_at cal) (seq 0 n).
Proof.
  unfold rangeCorrected. cbv zeta.
  rewrite fill_masked_map, !map_map. reflexivity.
Qed.

Lemma TVG_spec cal n :
  TVG (rangeCorrected cal n) = map (TVG_at cal) (seq 0 n).
Proof.
  unfold TVG. cbv zeta.
  rewrite (masked_assignments (fun r => eqb r (of_int 0))
             (fun r => mul (of_int 20) (log10 r))).
  now rewrite rangeCorrected_spec, map_map.
Qed.

Lemma Sac_single cal i s :
  matches_from 0 (pulselengthtable cal) (pulselength cal) = [i] ->
  nth_error (sacorrectiontable cal) i = Some s ->
  Sac cal = Some [mul (of_int 2) s].
Proof.
  intros Hm Hn. unfold Sac. rewrite Hm. cbn [take_indices].
  now rewrite Hn.
Qed.


Lemma power2Sv_steps cal K P g :
  power2Sv_channel cal (tabulate K P g)
  = match Sac cal with
    | None => None
    | Some sac =>
        match with_vector sub (tabulate P K (before_Sac cal g)) sac with
        | None => None
        | Some a3 => Some (flipud (transpose a3))
        end
    end.
Proof.
  unfold power2Sv_channel.
  destruct (Sac cal) as [sac |]; [| reflexivity].
  cbn [nrows tabulate]. fold (tabulate K P g).
  rewrite TVG_spec, rangeCorrected_spec, transpose_tabulate.
  rewrite with_vector_tabulate.
  rewrite map_map.
  rewrite (with_vector_tabulate add P K _
             (fun k => mul (mul (of_int 2) (absorptioncoefficient cal))
                           (rangeCorrected_at cal k))).
  rewrite with_scalar_tabulate. reflexivity.
Qed.

Lemma power2Sv_tabulate cal K P g i s :
  matches_from 0 (pulselengthtable cal) (pulselength cal) = [i] ->
  nth_error (sacorrectiontable cal) i = Some s ->
  power2Sv_channel cal (tabulate K P g)
  = Some (tabulate K P
            (fun k ping => sub (before_Sac cal g ping (K - 1 - k))
                               (mul (of_int 2) s))).
Proof.
  intros Hm Hn.
  rewrite power2Sv_steps, (Sac_single cal i s Hm Hn).
  rewrite with_vector_single, transpose_tabulate, flipud_tabulate.
  reflexivity.
Qed.

End Conversion.

End SvConverterFacts.

Module SvConverterTheorems.
Import SvConverter SvConverterFacts Dict DictFacts.
Local Open Scope nat_scope.

Section Loop.
Context {F : Type} `{FloatOps F}.

(** The loop of [power2Sv] converts channel [n + 1] with
    [cal_params[n]]. *)
Lemma power2Sv_from_spec count :
  forall n pdd cal Sv0 Sv,
    power2Sv_from n count pdd cal Sv0 = Some Sv ->
    (forall k, (k < Z.of_nat n + 1)%Z -> get k Sv = get k Sv0) /\
    (forall m, n <= m < n + count ->
               exists c power sv,
                 nth_error cal m = Some c /\
                 get (Z.of_nat m + 1)%Z pdd = Some power /\
                 power2Sv_channel c power = Some sv /\
                 get (Z.of_nat m + 1)%Z Sv = Some sv).
Proof.
  induction count as [| count IH]; intros n pdd cal Sv0 Sv Hloop.
  - simpl in Hloop. injection Hloop as <-. split; [reflexivity | lia].
  - cbn [power2Sv_from] in Hloop.
    destruct (nth_error cal n) as [c |] eqn:Hc; [| discriminate].
    destruct (get (Z.of_nat n + 1)%Z pdd) as [power |] eqn:Hp;
      [| discriminate].
    destruct (power2Sv_channel c power) as [sv |] eqn:Hsv;
      [| discriminate].
    apply IH in Hloop. destruct Hloop as [Hkept Hdone]. split.
    + intros k Hk. rewrite Hkept by lia.
      apply get_set_other. lia.
    + intros m Hm. destruct (Nat.eq_dec m n) as [-> | Hne].
      * exists c, power, sv. repeat split; try assumption.
        rewrite Hkept by lia. apply get_set_same.
      * apply Hdone. lia.
Qed.

End Loop.




End SvConverterTheorems.

(** ** The Sv conversion over the real numbers *)

Module SvConverterExamples.
Import SvConverter SvConverterFacts SvConverterTheorems.
Import RealArith.
Import Reals Lra.

Lemma Reqb_refl (x : R) : Reqb x x = true.
Proof. unfold Reqb. destruct (Req_dec_T x x); congruence. Qed.

Lemma Reqb_neq (x y : R) : x <> y -> Reqb x y = false.
Proof. intros Hne. unfold Reqb. destruct (Req_dec_T x y); congruence. Qed.

Lemma example_match :
  matches_from 0 (pulselengthtable (example_cal true))
               (pulselength (example_cal true)) = [1%nat].
Proof.
  cbn [example_cal pulselengthtable pulselength matches_from
       SvConverter.eqb R_FloatOps].
  rewrite Reqb_neq, Reqb_refl; [reflexivity |].
  intros Heq. apply Rmult_eq_compat_r with (r := IZR 2000) in Heq.
  field_simplify in Heq. lra.
Qed.








End SvConverterExamples.

(** ** The words of a time stamp *)

Module TimeCodecWords.
Import TimeCodec.

Lemma int64_small z : - 2 ^ 63 <= z < 2 ^ 63 -> int64 z = z.
Proof.
  intros Hz. unfold int64.
  rewrite Z.mod_small by lia. lia.
Qed.

Lemma int64_high z : 2 ^ 63 <= z < 2 ^ 64 -> int64 z = z - 2 ^ 64.
Proof.
  intros Hz. unfold int64.
  replace (z + 2 ^ 63) with (z - 2 ^ 63 + 1 * 2 ^ 64) by lia.
  rewrite Z.mod_add by lia.
  rewrite Z.mod_small by lia. lia.
Qed.

(** X1: the two 32-bit words of a time stamp are put together without loss
    as long as the high word is below [2^31]; from there on the shift
    overflows the 64-bit integer and the result is negative. *)
Theorem build_windows_time_words (high_word low_word : Z) :
  0 <= high_word < 2 ^ 32 ->
  0 <= low_word < 2 ^ 32 ->
  build_windows_time high_word low_word
  = if high_word <? 2 ^ 31
    then high_word * 2 ^ 32 + low_word
    else high_word * 2 ^ 32 + low_word - 2 ^ 64.
Proof.
  intros Hh Hl. unfold build_windows_time.
  rewrite Z.shiftl_mul_pow2 by lia.
  destruct (Z.ltb_spec high_word (2 ^ 31)) as [Hlt | Hge].
  - rewrite (int64_small (high_word * 2 ^ 32)) by lia.
    apply int64_small. lia.
  - rewrite (int64_high (high_word * 2 ^ 32)) by lia.
    rewrite int64_small by lia. lia.
Qed.

Lemma build_windows_time_words_witness :
  build_windows_time 30414661 3858759680
  = 30414661 * 2 ^ 32 + 3858759680.
Proof.
  apply (build_windows_time_words 30414661 3858759680); lia.
Defined.

End TimeCodecWords.

(** ** The decoder and the end of the file *)

Module SampleDecoderBounds.
Import Numpy NumpyFacts RawFile RawFileFacts SampleDecoder.
Import SampleDecoderFacts ScannerFacts.
Local Open Scope string_scope.
Local Open Scope list_scope.
Local Open Scope Z_scope.

Lemma length_rest f : length (rest f) = (length (content f) - pos f)%nat.
Proof. unfold rest. apply length_skipn. Qed.

(** One item was asked for and one was read: it is the next [size]
    bytes, and the file has moved past them. *)
Lemma fromfile_one_inv size f item items f1 :
  (0 < size)%nat ->
  fromfile size 1 f = (item :: items, f1) ->
  (size <= length (rest f))%nat /\
  item = firstn size (rest f) /\
  f1 = mkFile (content f) (pos f + size).
Proof.
  intros Hsize Hread. unfold fromfile in Hread.
  change (1 <? 0) with false in Hread. cbv iota in Hread.
  change (Z.to_nat 1) with 1%nat in Hread.
  pose proof (f_equal fst Hread) as Hitems.
  pose proof (f_equal snd Hread) as Hf1.
  cbn [fst snd] in Hitems, Hf1.
  assert (Hle : (size <= length (rest f))%nat).
  { destruct (Nat.le_gt_cases size (length (rest f))) as [Hle | Hgt];
      [exact Hle |].
    rewrite (Nat.div_small _ _ Hgt) in Hitems. discriminate. }
  assert (Hdiv : (1 <= length (rest f) / size)%nat).
  { apply Nat.div_le_lower_bound; lia. }
  rewrite Nat.min_l in Hitems by exact Hdiv.
  cbn [chunks] in Hitems. injection Hitems as Hitem _.
  split; [exact Hle |]. split; [now symmetry |].
  subst f1. f_equal. lia.
Qed.

Lemma fromfile_one_none size f f1 :
  (0 < size)%nat ->
  fromfile size 1 f = ([], f1) -> (length (rest f) < size)%nat.
Proof.
  intros Hsize Hread. unfold fromfile in Hread.
  change (1 <? 0) with false in Hread. cbv iota in Hread.
  change (Z.to_nat 1) with 1%nat in Hread.
  pose proof (f_equal fst Hread) as Hitems. cbn [fst] in Hitems.
  destruct (Nat.le_gt_cases size (length (rest f))) as [Hle | Hgt];
    [| exact Hgt].
  assert (Hdiv : (1 <= length (rest f) / size)%nat).
  { apply Nat.div_le_lower_bound; lia. }
  rewrite Nat.min_l in Hitems by exact Hdiv. discriminate.
Qed.

(** What a read of [count] items leaves unread. *)
Lemma fromfile_left size count f :
  (0 < size)%nat ->
  let f' := snd (fromfile size count f) in
  content f' = content f /\
  if count <? 0 then (length (rest f') < size)%nat
  else
    (length (rest f') = length (rest f) - Z.to_nat count * size)%nat /\
    ((0 < length (rest f'))%nat ->
     pos f' = (pos f + Z.to_nat count * size)%nat /\
     length (fst (fromfile size count f)) = Z.to_nat count).
Proof.
  intros Hsize. cbv zeta. unfold fromfile. cbn [fst snd content].
  split; [reflexivity |].
  rewrite !length_rest. cbn [content pos]. rewrite <- !length_rest.
  set (avail := length (rest f)).
  assert (Havail : avail = (length (content f) - pos f)%nat)
    by apply length_rest.
  destruct (Z.ltb_spec count 0) as [Hneg | Hpos].
  - pose proof (Nat.div_mod_eq avail size) as Hdm.
    pose proof (Nat.mod_upper_bound avail size ltac:(lia)) as Hmod.
    assert (Hused : (avail / size * size <= avail)%nat) by nia.
    rewrite Nat.min_l by exact Hused. nia.
  - split.
    + destruct (Nat.le_gt_cases (Z.to_nat count * size) avail)
        as [Hle | Hgt].
      * rewrite Nat.min_l by exact Hle. lia.
      * rewrite Nat.min_r by lia. lia.
    + intros Hleft.
      assert (Hle : (Z.to_nat count * size < avail)%nat).
      { destruct (Nat.le_gt_cases avail (Z.to_nat count * size))
          as [Hge | Hlt]; [| exact Hlt].
        rewrite Nat.min_r in Hleft by exact Hge. lia. }
      rewrite Nat.min_l by lia. split; [reflexivity |].
      rewrite chunks_length. apply Nat.min_l.
      apply Nat.div_le_lower_bound; lia.
Qed.

(** The decoder ends in one of three ways. *)
Lemma process_sample_outcome f tc :
  let header := unpack sample_dtype (firstn 88 (rest f)) in
  match fst (fst (process_sample f tc)) with
  | Return s => (88 <= length (rest f))%nat /\ sample_data s = header
  | InvalidTransducer =>
      (88 <= length (rest f))%nat /\
      ~ 0 <= field "channel_number" header <= tc
  | Raise e => e = IndexError
  end.
Proof.
  cbv zeta. unfold process_sample.
  destruct (fromfile (itemsize sample_dtype) 1 f) as [[| item items] f1]
    eqn:Hhead; [reflexivity |].
  apply fromfile_one_inv in Hhead; [| simpl; lia].
  destruct Hhead as (Hlen & -> & ->).
  change (itemsize sample_dtype) with 88%nat in *.
  destruct (Z.ltb_spec (field "channel_number"
                          (unpack sample_dtype (firstn 88 (rest f)))) 0)
    as [Hneg | Hnn]; cbn [orb].
  - cbn [fst]. split; [exact Hlen | lia].
  - destruct (Z.ltb_spec tc (field "channel_number"
                               (unpack sample_dtype (firstn 88 (rest f)))))
      as [Hbig | Hle].
    + cbn [fst]. split; [exact Hlen | lia].
    + destruct (fromfile (itemsize power_dtype) _ _) as [pitems f2].
      destruct (fromfile (itemsize len_dtype) 1 _) as [[| litem litems] f4];
        cbn [fst sample_data]; [reflexivity |].
      split; [exact Hlen | reflexivity].
Qed.

(** What a returned sample tells about the bytes read, in terms of the
    header at the position of the file. *)
Lemma process_sample_return_inv f tc s warnings f' :
  process_sample f tc = (Return s, warnings, f') ->
  let header := unpack sample_dtype (firstn 88 (rest f)) in
  let count := field "count" header in
  sample_data s = header /\
  channel s = field "channel_number" header /\
  0 <= field "channel_number" header <= tc /\
  0 <= count /\
  Z.of_nat (length (power_data s)) = count /\
  content f' = content f /\
  Z.of_nat (pos f')
  = Z.of_nat (pos f) + 88 + 2 * count
    + (if 1 <? field "mode" header then 2 * count else 0) + 4 /\
  (pos f' <= length (content f))%nat.
Proof.
  cbv zeta. unfold process_sample.
  destruct (fromfile (itemsize sample_dtype) 1 f) as [[| item items] f1]
    eqn:Hhead; [discriminate |].
  apply fromfile_one_inv in Hhead; [| simpl; lia].
  destruct Hhead as (Hlen & -> & ->).
  change (itemsize sample_dtype) with 88%nat in *.
  remember (unpack sample_dtype (firstn 88 (rest f))) as header
    eqn:Hheader.
  set (f1 := mkFile (content f) (pos f + 88)).
  assert (Hrest1 : length (rest f1) = (length (rest f) - 88)%nat).
  { rewrite !length_rest. unfold f1. cbn [content pos]. lia. }
  assert (Hpos1 : pos f1 = (pos f + 88)%nat) by reflexivity.
  assert (Hc1 : content f1 = content f) by reflexivity.
  clearbody f1.
  destruct (Z.ltb_spec (field "channel_number" header) 0) as [Hneg | Hnn];
    cbv beta iota delta [orb]; [discriminate |].
  destruct (Z.ltb_spec tc (field "channel_number" header)) as [Hbig | Hle];
    [discriminate |].
  remember (field "count" header) as count eqn:Hcountdef.
  pose proof (fromfile_left (itemsize power_dtype) count f1
                ltac:(simpl; lia)) as Hpower.
  cbv zeta in Hpower.
  destruct (fromfile (itemsize power_dtype) count f1) as [pitems f2]
    eqn:Hp.
  cbn [fst snd] in Hpower. destruct Hpower as [Hc2 Hpower].
  change (itemsize power_dtype) with 2%nat in *.
  pose proof (fromfile_left (itemsize angle_dtype) count f2
                ltac:(simpl; lia)) as Hangle.
  cbv zeta in Hangle. destruct Hangle as [Hc3a Hangle].
  change (itemsize angle_dtype) with 2%nat in *.
  remember (if 1 <? field "mode" header
            then snd (fromfile 2 count f2) else f2) as f3 eqn:Hf3.
  destruct (fromfile (itemsize len_dtype) 1 f3) as [[| litem litems] f4]
    eqn:Hl; [discriminate |].
  apply fromfile_one_inv in Hl; [| simpl; lia].
  destruct Hl as (Hlen3 & _ & ->).
  change (itemsize len_dtype) with 4%nat in *.
  assert (Hcount : 0 <= count).
  { destruct (count <? 0) eqn:Hcneg; [| now apply Z.ltb_ge].
    exfalso. rewrite Hf3 in Hlen3.
    destruct (1 <? field "mode" header); lia. }
  apply Z.ltb_ge in Hcount. rewrite Hcount in Hpower, Hangle.
  apply Z.ltb_ge in Hcount.
  destruct Hpower as [Hrest2 Hpower].
  destruct Hangle as [Hrest3 Hangle].
  assert (Hleft2 : (0 < length (rest f2))%nat).
  { rewrite Hf3 in Hlen3. destruct (1 <? field "mode" header); lia. }
  destruct (Hpower Hleft2) as [Hpos2 Hitems].
  assert (Hc3 : content f3 = content f).
  { rewrite Hf3. destruct (1 <? field "mode" header);
      [rewrite Hc3a |]; congruence. }
  assert (Hpos3 : Z.of_nat (pos f3)
                  = Z.of_nat (pos f2)
                    + (if 1 <? field "mode" header then 2 * count else 0)).
  { rewrite Hf3 in Hlen3 |- *.
    destruct (1 <? field "mode" header); [| lia].
    destruct (Hangle ltac:(lia)) as [Hpos3 _]. lia. }
  rewrite length_rest, Hc3 in Hlen3.
  clear Hf3 Hp Hpower Hangle.
  intros Heq.
  assert (Hs : s = mkSample (field "channel_number" header)
                 (TimeCodec.windows_to_ntp
                    (TimeCodec.build_windows_time
                       (field "high_date_time" header)
                       (field "low_date_time" header)))
                 header
                 (map (fun c => field "power_data" (unpack power_dtype c))
                      pitems)).
  { congruence. }
  assert (Hf' : f' = mkFile (content f3) (pos f3 + 4)) by congruence.
  subst s f'. clear Heq.
  cbv beta iota delta [sample_data channel power_data].
  split; [reflexivity |]. split; [reflexivity |].
  split; [lia |]. split; [exact Hcount |].
  split; [rewrite length_map, Hitems; lia |].
  split; [destruct f3; exact Hc3 |].
  destruct f3 as [c3 p3]. cbn [content pos] in *.
  split; lia.
Qed.

(** X2: whenever the decoder returns a sample, the header's count is not
    negative, as many power samples were read as the header counts, and
    the file has moved over exactly one datagram: the 88-byte header,
    two bytes for each power sample, two more for each angle pair when
    the mode is above 1, and the 4-byte trailing length. *)
Theorem process_sample_reads_one_datagram f tc s warnings f' :
  process_sample f tc = (Return s, warnings, f') ->
  let count := field "count" (sample_data s) in
  let mode := field "mode" (sample_data s) in
  sample_data s = unpack sample_dtype (firstn 88 (rest f)) /\
  channel s = field "channel_number" (sample_data s) /\
  0 <= channel s <= tc /\
  0 <= count /\
  Z.of_nat (length (power_data s)) = count /\
  content f' = content f /\
  Z.of_nat (pos f')
  = Z.of_nat (pos f) + 88 + 2 * count
    + (if 1 <? mode then 2 * count else 0) + 4 /\
  (pos f' <= length (content f))%nat.
Proof.
  intros Hps. cbv zeta.
  pose proof (process_sample_return_inv _ _ _ _ _ Hps) as Hinv.
  cbv zeta in Hinv.
  destruct Hinv as (Hsd & Hch & Hrange & Hcount & Hlen & Hc & Hpos & Hend).
  rewrite Hsd, Hch.
  repeat split; try assumption; lia.
Qed.

(** With fewer than 88 bytes left, the header is not read. *)
Lemma process_sample_short_header f tc :
  (length (rest f) < 88)%nat ->
  exists f', process_sample f tc = (Raise IndexError, [], f').
Proof.
  intros Hshort. unfold process_sample.
  destruct (fromfile (itemsize sample_dtype) 1 f) as [[| item items] f1]
    eqn:Hhead; [now exists f1 |].
  apply fromfile_one_inv in Hhead; [| simpl; lia].
  destruct Hhead as (Hlen & _). change (itemsize sample_dtype) with 88%nat in *.
  lia.
Qed.

(** X3: a datagram cut short by the end of the file, or whose count is
    negative, makes the decoder raise [IndexError]: the header is
    incomplete, or the trailing length cannot be read. *)
Theorem process_sample_truncated f tc :
  let header := unpack sample_dtype (firstn 88 (rest f)) in
  let count := field "count" header in
  let size :=
    88 + 2 * count + (if 1 <? field "mode" header then 2 * count else 0)
    + 4 in
  (Z.of_nat (length (rest f)) < 88 \/
   0 <= field "channel_number" header <= tc /\
   (count < 0 \/ Z.of_nat (length (rest f)) < size)) ->
  fst (fst (process_sample f tc)) = Raise IndexError.
Proof.
  cbv zeta. intros Hshort.
  pose proof (process_sample_outcome f tc) as Hout. cbv zeta in Hout.
  destruct (process_sample f tc) as [[outcome warnings] f'] eqn:Hps.
  cbn [fst] in *.
  destruct outcome as [s | | e].
  - exfalso. destruct Hout as [Hlen Hsd].
    pose proof (process_sample_return_inv _ _ _ _ _ Hps) as Hr.
    cbv zeta in Hr.
    destruct Hr as (_ & _ & _ & Hcount & _ & _ & Hpos & Hend).
    rewrite length_rest in Hshort, Hlen.
    destruct Hshort as [Hs | [_ [Hs | Hs]]]; lia.
  - exfalso. destruct Hout as [Hlen Hch].
    destruct Hshort as [Hs | [Hin _]]; [lia | contradiction].
  - now subst e.
Qed.

Lemma process_sample_reads_one_datagram_witness :
  let f := mkFile (encode_sample (Scanner.example_header 1 0 2)
                                 [5; -7] [] 88) 0 in
  let f' := mkFile (content f) 96 in
  process_sample f 3
  = (Return (decoded (Scanner.example_header 1 0 2) [5; -7]), [], f') /\
  (pos f' <= length (content f))%nat.
Proof.
  cbv zeta.
  split; [vm_compute; reflexivity |].
  pose proof (process_sample_reads_one_datagram
                (mkFile (encode_sample (Scanner.example_header 1 0 2)
                                       [5; -7] [] 88) 0)
                3 (decoded (Scanner.example_header 1 0 2) [5; -7]) []
                (mkFile (encode_sample (Scanner.example_header 1 0 2)
                                       [5; -7] [] 88) 96)
                ltac:(vm_compute; reflexivity)) as Hread.
  cbv zeta in Hread.
  destruct Hread as (_ & _ & _ & _ & _ & _ & _ & Hend). exact Hend.
Defined.

Lemma process_sample_truncated_witness :
  fst (fst (process_sample (mkFile [Byte.x00; Byte.x00; Byte.x00] 0) 3))
  = Raise IndexError.
Proof.
  apply (process_sample_truncated
           (mkFile [Byte.x00; Byte.x00; Byte.x00] 0) 3).
  left. vm_compute. reflexivity.
Defined.

End SampleDecoderBounds.

(** ** The aggregator: time series and power columns *)

Module PingAggregatorPings.
Import Numpy SampleDecoder PingAggregator Dict DictFacts.
Import PingAggregatorFacts.
Local Open Scope string_scope.
Local Open Scope list_scope.
Local Open Scope Z_scope.

Section Pings.
Variables (file_time relpath : string) (transducer_count : Z).

Notation aggregate := (aggregate file_time relpath transducer_count).
Notation feed := (feed file_time relpath transducer_count).
Notation invariant := (invariant transducer_count).

(** A completed ping over as many channels as the power matrices have
    covers every one of them. *)
Lemma complete_ping_covers st s :
  invariant st ->
  power_data_dict st <> [] ->
  len (sample_data_temp_dict (collect st s)) = transducer_count ->
  (forall c, In c (keys (power_data_temp_dict (collect st s))) ->
             In c (keys (power_data_dict st))) ->
  forall c, In c (keys (power_data_dict st)) ->
            In c (keys (power_data_temp_dict (collect st s))).
Proof.
  intros Hinv Hne Hlen Hincl.
  pose proof (invariant_collect _ st s Hinv) as Hinv1.
  pose proof (same_keys _ _ Hinv1) as Hsame.
  pose proof (temp_ordered _ _ Hinv1) as Hord.
  unfold ordered in Hord. rewrite Hsame in Hord.
  pose proof (matrices_ordered _ _ Hinv) as Hmat.
  pose proof (matrices_count _ _ Hinv Hne) as Hcount.
  apply NoDup_length_incl.
  - apply PingAggregatorTheorems.ordered_NoDup. exact Hord.
  - rewrite <- Hsame. unfold keys. rewrite !length_map.
    unfold len in Hlen, Hcount. lia.
  - exact Hincl.
Qed.

Lemma columns_step st s st' :
  invariant st ->
  (forall c cols, get c (power_data_dict st) = Some cols ->
                  length cols = length (data_times st)) ->
  aggregate st s = Some st' ->
  forall c cols, get c (power_data_dict st') = Some cols ->
                 length cols = length (data_times st').
Proof.
  intros Hinv Hbal Hagg c cols Hget.
  destruct (Z.eq_dec (len (sample_data_temp_dict (collect st s)))
                     transducer_count) as [Hlen | Hlen].
  - pose proof (aggregate_complete file_time relpath _ st s Hinv Hlen)
      as Hc.
    rewrite Hagg in Hc.
    destruct Hc as (_ & _ & Hpt & Hdt & Hkeys & _ & _ & Hincl & Hcols).
    rewrite Hdt, length_app. cbn [length].
    rewrite (Hcols c) in Hget.
    destruct (power_data_dict st) as [| kv pdd] eqn:Hpdd.
    + cbn [is_empty] in Hget.
      pose proof (captured _ _ Hinv) as Hcap.
      destruct (particle_data st).
      * destruct Hcap as [_ Hcap]. now contradiction Hcap.
      * destruct Hcap as [-> _].
        destruct (get c (power_data_temp_dict st')); [| discriminate].
        injection Hget as <-. reflexivity.
    + cbn [is_empty] in Hget, Hkeys.
      destruct (get c (power_data_temp_dict st')) as [pw |] eqn:Hpw.
      * destruct (get c (kv :: pdd)) as [cols0 |] eqn:Hc0;
          [| discriminate].
        injection Hget as <-. rewrite length_app. cbn [length].
        rewrite (Hbal c cols0 Hc0). reflexivity.
      * exfalso.
        assert (Hin : In c (keys (kv :: pdd))).
        { apply get_in_keys. congruence. }
        rewrite <- Hpdd in Hin.
        apply (complete_ping_covers st s Hinv) in Hin.
        -- rewrite <- Hpt in Hin. apply get_in_keys in Hin.
           contradiction.
        -- rewrite Hpdd. discriminate.
        -- exact Hlen.
        -- intros c' Hc'. rewrite <- Hpt in Hc'. apply Hincl in Hc'.
           rewrite Hkeys in Hc'. now rewrite Hpdd.
  - rewrite (aggregate_incomplete file_time relpath _ st s Hinv Hlen)
      in Hagg.
    injection Hagg as <-. exact (Hbal c cols Hget).
Qed.

Lemma columns_feed samples :
  forall st st',
    invariant st ->
    (forall c cols, get c (power_data_dict st) = Some cols ->
                    length cols = length (data_times st)) ->
    feed st samples = Some st' ->
    forall c cols, get c (power_data_dict st') = Some cols ->
                   length cols = length (data_times st').
Proof.
  induction samples as [| s samples IH]; intros st st' Hinv Hbal Hfeed.
  - injection Hfeed as <-. exact Hbal.
  - cbn [PingAggregator.feed] in Hfeed.
    destruct (aggregate st s) as [st1 |] eqn:Hagg; [| discriminate].
    apply (IH st1 st').
    + exact (invariant_aggregate _ _ _ _ _ _ Hinv Hagg).
    + exact (columns_step st s st1 Hinv Hbal Hagg).
    + exact Hfeed.
Qed.

End Pings.

(** X4: whatever samples were fed, every channel's power matrix has one
    column for each time of the time series. *)
Theorem power_columns_match_times
        file_time relpath transducer_count samples st c cols :
  feed file_time relpath transducer_count
       (initial transducer_count) samples = Some st ->
  get c (power_data_dict st) = Some cols ->
  length cols = length (data_times st).
Proof.
  intros Hfeed.
  apply (columns_feed file_time relpath transducer_count samples
           (initial transducer_count) st).
  - apply invariant_initial.
  - intros c' cols'. discriminate.
  - exact Hfeed.
Qed.

(** X5: the aggregator raises [KeyError] exactly when a ping completes on
    a set of channels other than that of the first completed ping. *)
Theorem key_error_on_other_channels
        file_time relpath transducer_count samples st s :
  feed file_time relpath transducer_count
       (initial transducer_count) samples = Some st ->
  aggregate file_time relpath transducer_count st s = None <->
  len (sample_data_temp_dict (collect st s)) = transducer_count /\
  power_data_dict st <> [] /\
  exists c, In c (keys (power_data_temp_dict (collect st s))) /\
            ~ In c (keys (power_data_dict st)).
Proof.
  intros Hfeed.
  assert (Hinv : invariant transducer_count st).
  { eapply invariant_feed; [apply invariant_initial | exact Hfeed]. }
  split.
  - intros Hnone.
    destruct (Z.eq_dec (len (sample_data_temp_dict (collect st s)))
                       transducer_count) as [Hlen | Hlen].
    2:{ rewrite (aggregate_incomplete file_time relpath _ st s Hinv Hlen)
          in Hnone. discriminate. }
    split; [exact Hlen |].
    destruct (power_data_dict st) as [| kv pdd] eqn:Hpdd.
    { destruct (ScannerTheorems.aggregate_first
                  file_time relpath _ st s Hinv Hpdd) as [st' Hst'].
      congruence. }
    split; [discriminate |].
    destruct (Exists_dec
                (fun c => ~ In c (keys (kv :: pdd)))
                (keys (power_data_temp_dict (collect st s)))) as [Hex | Hall].
    { intros c. destruct (in_dec Z.eq_dec c (keys (kv :: pdd)));
        [right | left]; tauto. }
    + apply Exists_exists in Hex. exact Hex.
    + exfalso.
      destruct (aggregate_no_key_error file_time relpath _ st s Hinv)
        as [st' Hst'].
      * rewrite Hpdd. discriminate.
      * intros c Hc. rewrite Hpdd.
        destruct (in_dec Z.eq_dec c (keys (kv :: pdd))) as [Hin | Hout];
          [exact Hin |].
        contradiction Hall. apply Exists_exists. eauto.
      * congruence.
  - intros (Hlen & Hne & c & Hin & Hout).
    unfold aggregate.
    pose proof (invariant_collect _ st s Hinv) as Hinv1.
    rewrite (ping_complete_len _ _ Hinv1).
    apply Z.eqb_eq in Hlen. rewrite Hlen.
    change (power_data_dict (collect st s)) with (power_data_dict st).
    destruct (power_data_dict st) as [| kv pdd] eqn:Hpdd;
      [now contradiction Hne |].
    cbn [is_empty].
    change (power_data_dict (collect st s)) with (power_data_dict st).
    rewrite Hpdd.
    destruct (save_power _ _) as [pd |] eqn:Hsave; [| reflexivity].
    exfalso. apply Hout.
    exact (save_power_channels _ _ _ Hsave c Hin).
Qed.

(** X6: with a transducer count of zero or less no ping ever completes:
    nothing is raised, and no time, metadata or power column is kept. *)
Theorem no_ping_without_transducers
        file_time relpath transducer_count samples :
  transducer_count <= 0 ->
  exists st,
    feed file_time relpath transducer_count
         (initial transducer_count) samples = Some st /\
    data_times st = [] /\ particle_data st = None /\
    power_data_dict st = [].
Proof.
  intros Htc.
  assert (Hgen : forall st0,
             invariant transducer_count st0 ->
             data_times st0 = [] -> particle_data st0 = None ->
             power_data_dict st0 = [] ->
             exists st,
               feed file_time relpath transducer_count st0 samples
               = Some st /\
               data_times st = [] /\ particle_data st = None /\
               power_data_dict st = []).
  { induction samples as [| s samples IH]; intros st0 Hinv Hdt Hpd Hpw.
    - exists st0. repeat split; assumption.
    - cbn [feed].
      assert (Hlen : len (sample_data_temp_dict (collect st0 s))
                     <> transducer_count).
      { pose proof (collect_not_empty st0 s) as Hne. unfold len.
        destruct (sample_data_temp_dict (collect st0 s));
          [now contradiction Hne | cbn [length]; lia]. }
      rewrite (aggregate_incomplete file_time relpath _ st0 s Hinv Hlen).
      apply IH; [now apply invariant_collect | exact Hdt | exact Hpd
                 | exact Hpw]. }
  apply Hgen; [apply invariant_initial | reflexivity | reflexivity
               | reflexivity].
Qed.

Lemma power_columns_match_times_witness :
  exists st,
    feed "20141211214622" "OOI-D20141211-T214622.png" 2 (initial 2)
         [mkSample 1 (Float64.of_Z 100) [] [5];
          mkSample 2 (Float64.of_Z 100) [] [6];
          mkSample 1 (Float64.of_Z 101) [] [7];
          mkSample 2 (Float64.of_Z 101) [] [8]] = Some st /\
    length [[5]; [7]] = length (data_times st).
Proof.
  eexists. split; [vm_compute; reflexivity |].
  apply (power_columns_match_times
           "20141211214622" "OOI-D20141211-T214622.png" 2
           [mkSample 1 (Float64.of_Z 100) [] [5];
            mkSample 2 (Float64.of_Z 100) [] [6];
            mkSample 1 (Float64.of_Z 101) [] [7];
            mkSample 2 (Float64.of_Z 101) [] [8]] _ 1);
    vm_compute; reflexivity.
Defined.

Lemma key_error_on_other_channels_witness :
  exists st,
    feed "20141211214622" "OOI-D20141211-T214622.png" 2 (initial 2)
         [mkSample 1 (Float64.of_Z 100) [] [5];
          mkSample 2 (Float64.of_Z 100) [] [6];
          mkSample 0 (Float64.of_Z 101) [] [7]] = Some st /\
    aggregate "20141211214622" "OOI-D20141211-T214622.png" 2 st
              (mkSample 1 (Float64.of_Z 101) [] [8]) = None.
Proof.
  eexists. split; [vm_compute; reflexivity |].
  apply (proj2 (key_error_on_other_channels
                  "20141211214622" "OOI-D20141211-T214622.png" 2
                  [mkSample 1 (Float64.of_Z 100) [] [5];
                   mkSample 2 (Float64.of_Z 100) [] [6];
                   mkSample 0 (Float64.of_Z 101) [] [7]] _
                  (mkSample 1 (Float64.of_Z 101) [] [8])
                  ltac:(vm_compute; reflexivity))).
  split; [vm_compute; reflexivity |].
  split; [discriminate |].
  exists 0. split; [vm_compute; auto |].
  vm_compute. intros [H | [H | H]]; [discriminate | discriminate | exact H].
Defined.

Lemma no_ping_without_transducers_witness :
  exists st,
    feed "20141211214622" "OOI-D20141211-T214622.png" 0 (initial 0)
         [mkSample 0 (Float64.of_Z 100) [] [5]] = Some st /\
    data_times st = [] /\ particle_data st = None /\
    power_data_dict st = [].
Proof.
  apply (no_ping_without_transducers
           "20141211214622" "OOI-D20141211-T214622.png" 0
           [mkSample 0 (Float64.of_Z 100) [] [5]]).
  lia.
Defined.

End PingAggregatorPings.

(** ** The aggregator: what the first ping sets *)

Module PingAggregatorCapture.
Import Numpy SampleDecoder PingAggregator Dict DictFacts.
Import PingAggregatorFacts.
Local Open Scope string_scope.
Local Open Scope list_scope.
Local Open Scope Z_scope.

Section Capture.
Variables (file_time relpath : string) (transducer_count : Z).

Notation aggregate := (aggregate file_time relpath transducer_count).
Notation feed := (feed file_time relpath transducer_count).
Notation first_ping := (first_ping file_time relpath).
Notation first_ping_step := (first_ping_step file_time relpath).
Notation metadata_from := (metadata_from file_time relpath).
Notation invariant := (invariant transducer_count).

(** *** The metadata, the time series and the matrices go together *)

Lemma channels_step st s st' :
  invariant st ->
  match particle_data st with
  | Some (m, t) =>
      zplsc_channel m = keys (power_data_dict st) /\
      exists later, data_times st = t :: later
  | None => True
  end ->
  aggregate st s = Some st' ->
  match particle_data st' with
  | Some (m, t) =>
      zplsc_channel m = keys (power_data_dict st') /\
      exists later, data_times st' = t :: later
  | None => True
  end.
Proof.
  intros Hinv Hst Hagg.
  destruct (Z.eq_dec (len (sample_data_temp_dict (collect st s)))
                     transducer_count) as [Hlen | Hlen].
  - pose proof (aggregate_complete file_time relpath _ st s Hinv Hlen)
      as Hc.
    rewrite Hagg in Hc.
    destruct Hc as (_ & Hst' & Hpt & Hdt & Hkeys & _ & Hpd & _).
    pose proof (invariant_aggregate _ _ _ _ _ _ Hinv Hagg) as Hinv'.
    pose proof (same_keys _ _ Hinv') as Hsame.
    pose proof (captured _ _ Hinv) as Hcap.
    rewrite Hpd, Hkeys, Hdt.
    destruct (power_data_dict st) as [| kv pdd] eqn:Hpdd; cbn [is_empty].
    + destruct (particle_data st) as [[m t] |].
      * destruct Hcap as [_ Hcap]. now contradiction Hcap.
      * destruct Hcap as [-> _]. split; [exact Hsame |].
        now exists [].
    + destruct (particle_data st) as [[m t] |]; [| exact I].
      destruct Hst as [Hch [later ->]]. split; [exact Hch |].
      now exists (later ++ [ntp_time s]).
  - rewrite (aggregate_incomplete file_time relpath _ st s Hinv Hlen)
      in Hagg.
    injection Hagg as <-. exact Hst.
Qed.

Lemma channels_feed samples :
  forall st st',
    invariant st ->
    match particle_data st with
    | Some (m, t) =>
        zplsc_channel m = keys (power_data_dict st) /\
        exists later, data_times st = t :: later
    | None => True
    end ->
    feed st samples = Some st' ->
    match particle_data st' with
    | Some (m, t) =>
        zplsc_channel m = keys (power_data_dict st') /\
        exists later, data_times st' = t :: later
    | None => True
    end.
Proof.
  induction samples as [| s samples IH]; intros st st' Hinv Hst Hfeed.
  - injection Hfeed as <-. exact Hst.
  - cbn [PingAggregator.feed] in Hfeed.
    destruct (aggregate st s) as [st1 |] eqn:Hagg; [| discriminate].
    apply (IH st1 st').
    + exact (invariant_aggregate _ _ _ _ _ _ Hinv Hagg).
    + exact (channels_step st s st1 Hinv Hst Hagg).
    + exact Hfeed.
Qed.

(** *** Frequencies and bin size *)

Lemma first_ping_loop_rest (d : dict record) :
  forall m fr b,
    snd (fst (fold_left first_ping_step d (m, fr, b)))
    = fold_left (fun f kv =>
                   set (fst kv) (Some (field "frequency" (snd kv))) f)
                d fr /\
    snd (fold_left first_ping_step d (m, fr, b))
    = match b with
      | Some x => Some x
      | None =>
          match d with
          | [] => None
          | (_, sd) :: _ =>
              Some (field "sound_velocity" sd, field "sample_interval" sd)
          end
      end.
Proof.
  induction d as [| [c sd] d IH]; intros m fr b.
  - cbn. split; [reflexivity | now destruct b].
  - cbn [fold_left PingAggregator.first_ping_step].
    destruct (IH (append_metadata m file_time relpath c sd)
                 (set c (Some (field "frequency" sd)) fr)
                 (match b with
                  | Some x => Some x
                  | None => Some (field "sound_velocity" sd,
                                  field "sample_interval" sd)
                  end)) as [Hfr Hb].
    split; [exact Hfr |]. rewrite Hb. now destruct b.
Qed.

Lemma get_fold_set (d : dict record) :
  forall (fr : dict (option Z)) c,
    ordered d ->
    get c (fold_left (fun f kv =>
                        set (fst kv) (Some (field "frequency" (snd kv))) f)
                     d fr)
    = match get c d with
      | Some sd => Some (Some (field "frequency" sd))
      | None => get c fr
      end.
Proof.
  induction d as [| [k sd] d IH]; intros fr c Hord; [reflexivity |].
  cbn [fold_left fst snd get].
  unfold ordered in Hord. cbn [keys map fst] in Hord.
  inversion Hord as [| ? ? Hsorted Hall]; subst.
  rewrite IH by exact Hsorted.
  destruct (Z.eqb_spec c k) as [-> | Hne].
  - assert (Hnone : get k d = None).
    { destruct (get k d) eqn:Hg; [| reflexivity].
      assert (Hin : In k (keys d)) by (apply get_in_keys; congruence).
      rewrite Forall_forall in Hall. apply Hall in Hin. lia. }
    rewrite Hnone. apply get_set_same.
  - destruct (get c d); [reflexivity |].
    now apply get_set_other.
Qed.

Lemma aggregate_frequencies st s st' :
  aggregate st s = Some st' ->
  (frequencies st', bin_size st')
  = if ping_complete transducer_count (collect st s)
       && is_empty (power_data_dict st)
    then (frequencies (first_ping (collect st s) (ntp_time s)),
          bin_size (first_ping (collect st s) (ntp_time s)))
    else (frequencies st, bin_size st).
Proof.
  unfold PingAggregator.aggregate.
  destruct (ping_complete transducer_count (collect st s)); cbn [andb].
  - change (power_data_dict (collect st s)) with (power_data_dict st).
    destruct (is_empty (power_data_dict st)).
    + destruct (save_power _ _); [| discriminate].
      now intros [= <-].
    + destruct (save_power _ _); [| discriminate].
      now intros [= <-].
  - now intros [= <-].
Qed.

Lemma in_combine_get (d : dict record) name c v :
  ordered d ->
  In (c, v) (combine (keys d) (map (fun kv => field name (snd kv)) d)) ->
  exists sd, get c d = Some sd /\ v = field name sd.
Proof.
  induction d as [| [k sd] d IH]; intros Hord Hin; [destruct Hin |].
  unfold ordered in Hord. cbn [keys map fst] in Hord.
  inversion Hord as [| ? ? Hsorted Hall]; subst.
  cbn [keys map fst snd combine] in Hin. destruct Hin as [[= <- <-] | Hin].
  - exists sd. cbn [get]. now rewrite Z.eqb_refl.
  - destruct (IH Hsorted Hin) as (sd' & Hget & ->).
    exists sd'. split; [| reflexivity]. cbn [get].
    destruct (Z.eqb_spec c k) as [-> | _]; [| exact Hget].
    assert (Hk : In k (keys d)) by (apply get_in_keys; congruence).
    rewrite Forall_forall in Hall. apply Hall in Hk. lia.
Qed.

Lemma frequencies_step st s st' :
  invariant st ->
  match particle_data st with
  | Some (m, _) =>
      (forall c fr,
          In (c, fr) (combine (zplsc_channel m) (zplsc_frequency m)) ->
          get c (frequencies st) = Some (Some fr)) /\
      (forall c, ~ In c (zplsc_channel m) ->
                 get c (frequencies st)
                 = get c (frequencies (initial transducer_count))) /\
      bin_size st = Some (hd 0 (zplsc_sound_velocity m),
                          hd 0 (zplsc_sample_interval m))
  | None =>
      frequencies st = frequencies (initial transducer_count) /\
      bin_size st = None
  end ->
  aggregate st s = Some st' ->
  match particle_data st' with
  | Some (m, _) =>
      (forall c fr,
          In (c, fr) (combine (zplsc_channel m) (zplsc_frequency m)) ->
          get c (frequencies st') = Some (Some fr)) /\
      (forall c, ~ In c (zplsc_channel m) ->
                 get c (frequencies st')
                 = get c (frequencies (initial transducer_count))) /\
      bin_size st' = Some (hd 0 (zplsc_sound_velocity m),
                           hd 0 (zplsc_sample_interval m))
  | None =>
      frequencies st' = frequencies (initial transducer_count) /\
      bin_size st' = None
  end.
Proof.
  intros Hinv Hst Hagg.
  pose proof (aggregate_frequencies st s st' Hagg) as Hfb.
  pose proof (invariant_collect _ st s Hinv) as Hinv1.
  rewrite (ping_complete_len _ _ Hinv1) in Hfb.
  pose proof (captured _ _ Hinv) as Hcap.
  destruct (Z.eq_dec (len (sample_data_temp_dict (collect st s)))
                     transducer_count) as [Hlen | Hlen].
  - pose proof (aggregate_complete file_time relpath _ st s Hinv Hlen)
      as Hc.
    rewrite Hagg in Hc.
    destruct Hc as (_ & Hst' & _ & _ & _ & _ & Hpd & _).
    apply Z.eqb_eq in Hlen. rewrite Hlen in Hfb. cbn [andb] in Hfb.
    rewrite Hpd.
    destruct (power_data_dict st) as [| kv pdd] eqn:Hpdd;
      cbn [is_empty] in *.
    + destruct (particle_data st) as [[m t] |].
      { destruct Hcap as [_ Hcap]. now contradiction Hcap. }
      destruct Hst as [Hfr0 Hb0].
      injection Hfb as Hfr Hb. rewrite Hfr, Hb, Hst'.
      unfold PingAggregator.first_ping.
      set (d := sample_data_temp_dict (collect st s)).
      pose proof (temp_ordered _ _ Hinv1) as Hord. fold d in Hord.
      destruct (first_ping_loop_rest d no_metadata
                  (frequencies (collect st s)) (bin_size (collect st s)))
        as [Hloop1 Hloop2].
      destruct (fold_left first_ping_step d
                  (no_metadata, frequencies (collect st s),
                   bin_size (collect st s))) as [[m1 fr1] b1].
      cbn [fst snd] in Hloop1, Hloop2. cbn [frequencies bin_size].
      subst fr1 b1.
      change (frequencies (collect st s)) with (frequencies st).
      change (bin_size (collect st s)) with (bin_size st).
      rewrite Hfr0, Hb0.
      unfold PingAggregator.metadata_from.
      cbn [zplsc_channel zplsc_frequency zplsc_sound_velocity
           zplsc_sample_interval].
      split; [| split].
      * intros c fr Hin. rewrite get_fold_set by exact Hord.
        apply in_combine_get in Hin; [| exact Hord].
        destruct Hin as (sd & -> & ->). reflexivity.
      * intros c Hc. rewrite get_fold_set by exact Hord.
        destruct (get c d) eqn:Hg; [| reflexivity].
        exfalso. apply Hc. apply get_in_keys. congruence.
      * pose proof (collect_not_empty st s) as Hne. fold d in Hne.
        destruct d as [| [c sd] d']; [now contradiction Hne |].
        reflexivity.
    + injection Hfb as Hfr Hb. rewrite Hfr, Hb. exact Hst.
  - apply Z.eqb_neq in Hlen. rewrite Hlen in Hfb. cbn [andb] in Hfb.
    injection Hfb as Hfr Hb. rewrite Hfr, Hb.
    apply Z.eqb_neq in Hlen.
    rewrite (aggregate_incomplete file_time relpath _ st s Hinv Hlen)
      in Hagg.
    injection Hagg as <-. exact Hst.
Qed.

Lemma frequencies_feed samples :
  forall st st',
    invariant st ->
    match particle_data st with
    | Some (m, _) =>
        (forall c fr,
            In (c, fr) (combine (zplsc_channel m) (zplsc_frequency m)) ->
            get c (frequencies st) = Some (Some fr)) /\
        (forall c, ~ In c (zplsc_channel m) ->
                   get c (frequencies st)
                   = get c (frequencies (initial transducer_count))) /\
        bin_size st = Some (hd 0 (zplsc_sound_velocity m),
                            hd 0 (zplsc_sample_interval m))
    | None =>
        frequencies st = frequencies (initial transducer_count) /\
        bin_size st = None
    end ->
    feed st samples = Some st' ->
    match particle_data st' with
    | Some (m, _) =>
        (forall c fr,
            In (c, fr) (combine (zplsc_channel m) (zplsc_frequency m)) ->
            get c (frequencies st') = Some (Some fr)) /\
        (forall c, ~ In c (zplsc_channel m) ->
                   get c (frequencies st')
                   = get c (frequencies (initial transducer_count))) /\
        bin_size st' = Some (hd 0 (zplsc_sound_velocity m),
                             hd 0 (zplsc_sample_interval m))
    | None =>
        frequencies st' = frequencies (initial transducer_count) /\
        bin_size st' = None
    end.
Proof.
  induction samples as [| s samples IH]; intros st st' Hinv Hst Hfeed.
  - injection Hfeed as <-. exact Hst.
  - cbn [PingAggregator.feed] in Hfeed.
    destruct (aggregate st s) as [st1 |] eqn:Hagg; [| discriminate].
    apply (IH st1 st').
    + exact (invariant_aggregate _ _ _ _ _ _ Hinv Hagg).
    + exact (frequencies_step st s st1 Hinv Hst Hagg).
    + exact Hfeed.
Qed.

End Capture.

(** X7: once metadata has been captured, its channel array lists the
    channels of the power matrices, in their order, and its time is the
    first of the time series. *)
Theorem metadata_channels_are_matrix_channels
        file_time relpath transducer_count samples st m t :
  feed file_time relpath transducer_count
       (initial transducer_count) samples = Some st ->
  particle_data st = Some (m, t) ->
  zplsc_channel m = keys (power_data_dict st) /\
  exists later, data_times st = t :: later.
Proof.
  intros Hfeed Hp.
  pose proof (channels_feed file_time relpath transducer_count samples
                (initial transducer_count) st
                (invariant_initial transducer_count) I Hfeed) as H.
  now rewrite Hp in H.
Qed.

(** X8: the frequency table and the bin size are those of the ping the
    metadata was captured from: each channel of that ping has its
    frequency, every other channel keeps the entry it started with, and
    the bin size is made of the sound velocity and sample interval of
    the lowest channel. Before that ping nothing is set. *)
Theorem frequencies_come_from_first_ping
        file_time relpath transducer_count samples st :
  feed file_time relpath transducer_count
       (initial transducer_count) samples = Some st ->
  match particle_data st with
  | Some (m, _) =>
      (forall c fr,
          In (c, fr) (combine (zplsc_channel m) (zplsc_frequency m)) ->
          get c (frequencies st) = Some (Some fr)) /\
      (forall c, ~ In c (zplsc_channel m) ->
                 get c (frequencies st)
                 = get c (frequencies (initial transducer_count))) /\
      bin_size st = Some (hd 0 (zplsc_sound_velocity m),
                          hd 0 (zplsc_sample_interval m))
  | None =>
      frequencies st = frequencies (initial transducer_count) /\
      bin_size st = None
  end.
Proof.
  intros Hfeed.
  apply (frequencies_feed file_time relpath transducer_count samples
           (initial transducer_count) st
           (invariant_initial transducer_count)); [| exact Hfeed].
  split; reflexivity.
Qed.

Lemma metadata_channels_are_matrix_channels_witness :
  exists st m,
    feed "20141211214622" "OOI-D20141211-T214622.png" 2 (initial 2)
         [mkSample 2 (Float64.of_Z 100) [("frequency", 120)] [5];
          mkSample 1 (Float64.of_Z 100) [("frequency", 38)] [6]]
    = Some st /\
    particle_data st = Some (m, Float64.of_Z 100) /\
    zplsc_channel m = keys (power_data_dict st).
Proof.
  eexists. eexists.
  split; [vm_compute; reflexivity |].
  split; [reflexivity |].
  refine (proj1 (metadata_channels_are_matrix_channels
                   "20141211214622" "OOI-D20141211-T214622.png" 2
                   [mkSample 2 (Float64.of_Z 100) [("frequency", 120)] [5];
                    mkSample 1 (Float64.of_Z 100) [("frequency", 38)] [6]]
                   _ _ (Float64.of_Z 100) _ _));
    vm_compute; reflexivity.
Defined.

Lemma frequencies_come_from_first_ping_witness :
  exists st,
    feed "20141211214622" "OOI-D20141211-T214622.png" 2 (initial 2)
         [mkSample 2 (Float64.of_Z 100) [("frequency", 120)] [5];
          mkSample 1 (Float64.of_Z 100) [("frequency", 38)] [6]]
    = Some st /\
    match particle_data st with
    | Some (m, _) =>
        (forall c fr,
            In (c, fr) (combine (zplsc_channel m) (zplsc_frequency m)) ->
            get c (frequencies st) = Some (Some fr)) /\
        (forall c, ~ In c (zplsc_channel m) ->
                   get c (frequencies st) = get c (frequencies (initial 2)))
        /\
        bin_size st = Some (hd 0 (zplsc_sound_velocity m),
                            hd 0 (zplsc_sample_interval m))
    | None =>
        frequencies st = frequencies (initial 2) /\ bin_size st = None
    end.
Proof.
  eexists. split; [vm_compute; reflexivity |].
  apply (frequencies_come_from_first_ping
           "20141211214622" "OOI-D20141211-T214622.png" 2
           [mkSample 2 (Float64.of_Z 100) [("frequency", 120)] [5];
            mkSample 1 (Float64.of_Z 100) [("frequency", 38)] [6]]).
  vm_compute. reflexivity.
Defined.

End PingAggregatorCapture.

(** ** The scanner: how a scan ends *)

Module ScannerRuns.
Import Numpy NumpyFacts RawFile RawFileFacts SampleDecoder.
Import SampleDecoderFacts PingAggregator Scanner ScannerFacts.
Import SampleDecoderBounds.
Local Open Scope nat_scope.

Section Scan.
Variable SAMPLE_MATCHER : list byte -> bool.
Variables (file_time relpath : string) (transducer_count : Z).

Notation scan_block :=
  (scan_block SAMPLE_MATCHER file_time relpath transducer_count).
Notation scan := (scan SAMPLE_MATCHER file_time relpath transducer_count).
Notation search := (search SAMPLE_MATCHER).

(** The decoder raises nothing but [IndexError]. *)
Lemma process_sample_raises f tc e warnings f' :
  process_sample f tc = (Raise e, warnings, f') -> e = IndexError.
Proof.
  intros Hps. pose proof (process_sample_outcome f tc) as Hout.
  cbv zeta in Hout. rewrite Hps in Hout. exact Hout.
Qed.

(** From an offset of four or more the seek of the loop body cannot
    fail; what ends the loop early is the decoder's [IndexError] or the
    aggregator's [KeyError]. *)
Lemma scan_block_ends position raw f p r :
  4 <= position ->
  scan_block position raw f p = inr r ->
  exists p', r = Raised IndexError p' \/ r = Raised KeyError p'.
Proof.
  intros Hpos. unfold Scanner.scan_block, seek.
  pose proof BLOCK_SIZE_bytes as HB.
  assert (HL : LENGTH_SIZE = 4) by reflexivity.
  destruct (search raw) as [start |].
  - destruct (Z.ltb_spec
                (Z.of_nat position
                 + (Z.of_nat start - Z.of_nat LENGTH_SIZE)) 0);
      [lia |].
    destruct (process_sample _ transducer_count) as [[outcome lg] f3]
      eqn:Hps.
    destruct outcome as [s | | e].
    + destruct (aggregate _ _ _ _ _); [discriminate |].
      intros [= <-]. eauto.
    + discriminate.
    + apply process_sample_raises in Hps. subst e.
      intros [= <-]. eauto.
  - destruct (Z.ltb_spec
                (Z.of_nat position + Z.of_nat BLOCK_SIZE - 4) 0);
      [lia | discriminate].
Qed.

Lemma scan_ends fuel :
  forall f p r,
    4 <= pos f ->
    scan fuel f p = Some r ->
    exists p', r = Finished p' \/ r = Raised IndexError p'
               \/ r = Raised KeyError p'.
Proof.
  induction fuel as [| fuel IH]; intros f p r Hpos Hscan; [discriminate |].
  cbn [Scanner.scan] in Hscan.
  destruct (read BLOCK_SIZE f) as [raw f1] eqn:Hread.
  destruct (more_to_scan raw).
  - destruct (scan_block (tell f) raw f1 p) as [[f2 p2] | r'] eqn:Hblock.
    + apply scan_block_moves in Hblock. destruct Hblock as [_ Hp2].
      unfold tell in Hp2.
      apply (IH f2 p2 r); [lia | exact Hscan].
    + injection Hscan as <-.
      apply scan_block_ends in Hblock; [| exact Hpos].
      destruct Hblock as [p' [-> | ->]]; eauto.
  - injection Hscan as <-. eauto.
Qed.

Notation spaced := (StronglySorted (fun a b => a + 84 <= b)).

Lemma spaced_snoc l x :
  spaced l -> (forall c, In c l -> c + 84 <= x) -> spaced (l ++ [x]).
Proof.
  induction 1 as [| a l Hs IH Hall]; intros Hx.
  - repeat constructor.
  - cbn [app]. constructor.
    + apply IH. intros c Hc. apply Hx. now right.
    + apply Forall_app. split; [exact Hall |].
      constructor; [| constructor]. apply Hx. now left.
Qed.

Lemma scan_block_spaced position raw f p :
  spaced (candidates p) ->
  (forall c, In c (candidates p) -> c + 88 <= position) ->
  match scan_block position raw f p with
  | inl (f2, p2) =>
      spaced (candidates p2) /\
      forall c, In c (candidates p2) -> c + 88 <= pos f2
  | inr (Finished p2) | inr (Raised _ p2) => spaced (candidates p2)
  end.
Proof.
  intros Hsp Hbefore. unfold Scanner.scan_block, seek.
  pose proof BLOCK_SIZE_bytes as HB.
  assert (HL : LENGTH_SIZE = 4) by reflexivity.
  assert (Hsize : itemsize sample_dtype = 88) by reflexivity.
  destruct (search raw) as [start |].
  - destruct (Z.ltb_spec
                (Z.of_nat position
                 + (Z.of_nat start - Z.of_nat LENGTH_SIZE)) 0) as [| Hnn];
      [exact Hsp |].
    set (f1 := mkFile (content f) _).
    assert (Hf1 : pos f1 = position + start - 4).
    { unfold f1. cbn [pos]. lia. }
    assert (Hge : 4 <= position + start) by lia.
    assert (Hnew : spaced (candidates p ++ [tell f1])).
    { apply spaced_snoc; [exact Hsp |].
      intros c Hc. apply Hbefore in Hc. unfold tell. lia. }
    destruct (process_sample f1 transducer_count) as [[outcome lg] f3]
      eqn:Hps.
    pose proof (process_sample_moves _ _ _ _ _ Hps) as Hm.
    destruct outcome as [s | | e]; cbn [candidates agg log].
    + destruct (aggregate _ _ _ _ _); cbn [candidates]; [| exact Hnew].
      split; [exact Hnew |].
      assert (pos f1 + itemsize sample_dtype <= pos f3)
        by (apply Hm; discriminate).
      intros c Hc. apply in_app_or in Hc.
      destruct Hc as [Hc | [<- | []]];
        [apply Hbefore in Hc | unfold tell]; lia.
    + split; [exact Hnew |].
      assert (pos f1 + itemsize sample_dtype <= pos f3)
        by (apply Hm; discriminate).
      intros c Hc. apply in_app_or in Hc.
      destruct Hc as [Hc | [<- | []]];
        [apply Hbefore in Hc | unfold tell]; lia.
    + exact Hnew.
  - destruct (Z.ltb_spec
                (Z.of_nat position + Z.of_nat BLOCK_SIZE - 4) 0);
      [exact Hsp |].
    split; [exact Hsp |].
    intros c Hc. apply Hbefore in Hc. cbn [pos]. lia.
Qed.

Lemma scan_spaced fuel :
  forall f p r,
    spaced (candidates p) ->
    (forall c, In c (candidates p) -> c + 88 <= pos f) ->
    scan fuel f p = Some r ->
    match r with
    | Finished p' | Raised _ p' => spaced (candidates p')
    end.
Proof.
  induction fuel as [| fuel IH]; intros f p r Hsp Hbefore Hscan;
    [discriminate |].
  cbn [Scanner.scan] in Hscan.
  destruct (read BLOCK_SIZE f) as [raw f1] eqn:Hread.
  destruct (more_to_scan raw).
  - pose proof (scan_block_spaced (tell f) raw f1 p Hsp Hbefore) as Hb.
    destruct (scan_block (tell f) raw f1 p) as [[f2 p2] | r'].
    + destruct Hb as [Hsp2 Hbefore2].
      exact (IH f2 p2 r Hsp2 Hbefore2 Hscan).
    + injection Hscan as <-. exact Hb.
  - injection Hscan as <-. exact Hsp.
Qed.

End Scan.

(** X9: started four or more bytes into the file, the scan never fails to
    seek: it ends at the end of the file, or with the [IndexError] of a
    datagram cut short, or with the [KeyError] of a ping on other
    channels. *)
Theorem scan_ends_in_three_ways
        SAMPLE_MATCHER file_time relpath transducer_count bs position :
  4 <= position ->
  exists p,
    let r := parse_loop SAMPLE_MATCHER file_time relpath transducer_count
                        bs position in
    r = Some (Finished p) \/ r = Some (Raised IndexError p)
    \/ r = Some (Raised KeyError p).
Proof.
  intros Hpos. cbv zeta. unfold parse_loop.
  destruct (scan SAMPLE_MATCHER file_time relpath transducer_count
                 (S (length bs)) (mkFile bs position)
                 (mkProgress (initial transducer_count) [] []))
    as [r |] eqn:Hscan.
  - apply scan_ends in Hscan; [| exact Hpos].
    destruct Hscan as [p [-> | [-> | ->]]]; eauto.
  - exfalso. revert Hscan. apply scan_total. cbn [content pos]. lia.
Qed.

(** X10: the decoder is never tried twice at one offset: the offsets it is
    tried at increase, each at least 84 bytes after the one before. *)
Theorem candidates_lie_apart
        SAMPLE_MATCHER file_time relpath transducer_count bs position r :
  parse_loop SAMPLE_MATCHER file_time relpath transducer_count bs position
  = Some r ->
  match r with
  | Finished p | Raised _ p =>
      StronglySorted (fun a b => a + 84 <= b) (candidates p)
  end.
Proof.
  unfold parse_loop. apply scan_spaced.
  - constructor.
  - intros c [].
Qed.

(** X11: a file that holds no signature from the start of the scan on gives
    nothing: no sample is decoded, nothing is logged, and the state of
    the aggregator is the initial one. *)
Theorem file_without_signature
        SAMPLE_MATCHER file_time relpath transducer_count bs position :
  (forall w, SAMPLE_MATCHER w = true -> length w = 4) ->
  (forall i, position <= i -> SAMPLE_MATCHER (window bs i) = false) ->
  parse_loop SAMPLE_MATCHER file_time relpath transducer_count bs position
  = Some (Finished (mkProgress (initial transducer_count) [] [])).
Proof.
  intros Hsig Hnone. unfold parse_loop.
  apply (scan_without_signature SAMPLE_MATCHER file_time relpath
           transducer_count Hsig bs (S (length bs)));
    [lia | lia | exact Hnone].
Qed.

(** X12: a file that ends inside the header of the first datagram found is
    not parsed at all: the [IndexError] of the decoder ends the scan. *)
Theorem truncated_header_aborts
        SAMPLE_MATCHER file_time relpath transducer_count junk tail start :
  (forall w, SAMPLE_MATCHER w = true -> length w = 4) ->
  let bs := junk ++ tail in
  start <= length junk ->
  SAMPLE_MATCHER (window bs (length junk + LENGTH_SIZE)) = true ->
  (forall i, start <= i -> i < length junk + LENGTH_SIZE ->
             SAMPLE_MATCHER (window bs i) = false) ->
  8 < length tail < 88 ->
  parse_loop SAMPLE_MATCHER file_time relpath transducer_count bs start
  = Some (Raised IndexError
            (mkProgress (initial transducer_count) [] [length junk])).
Proof.
  intros Hsig bs Hstart Htag Hbefore Htail.
  assert (HL : LENGTH_SIZE = 4) by reflexivity.
  assert (Hbs : length bs = length junk + length tail).
  { unfold bs. now rewrite length_app. }
  destruct (scan_to_signature SAMPLE_MATCHER file_time relpath
              transducer_count Hsig bs (length junk + LENGTH_SIZE)
              (S (length junk + LENGTH_SIZE - start)) start
              (mkProgress (initial transducer_count) [] [])
              (S (length bs)))
    as (block_start & raw & f & Hsearch & Hle & Hcontent & Hscan);
    try lia; try assumption.
  assert (Hseek : seek f (Z.of_nat block_start
                          + (Z.of_nat (length junk + LENGTH_SIZE
                                       - block_start)
                             - Z.of_nat LENGTH_SIZE))
                  = Some (mkFile bs (length junk))).
  { unfold seek. rewrite Hcontent.
    destruct (Z.ltb_spec (Z.of_nat block_start
                          + (Z.of_nat (length junk + LENGTH_SIZE
                                       - block_start)
                             - Z.of_nat LENGTH_SIZE)) 0); [lia |].
    do 2 f_equal. lia. }
  unfold parse_loop. rewrite Hscan.
  rewrite (ScannerTheorems.scan_block_match
             _ _ _ _ _ _ _ _ _ _ Hsearch Hseek).
  cbv zeta.
  destruct (process_sample_short_header (mkFile bs (length junk))
              transducer_count) as [f2 Hps].
  { rewrite length_rest. cbn [content pos]. lia. }
  rewrite Hps. reflexivity.
Qed.

Lemma scan_ends_in_three_ways_witness :
  exists p,
    let r := parse_loop is_RAW0 "20141211214622"
                        "OOI-D20141211-T214622.png" 3
                        (repeat Byte.x00 12) 4 in
    r = Some (Finished p) \/ r = Some (Raised IndexError p)
    \/ r = Some (Raised KeyError p).
Proof.
  apply (scan_ends_in_three_ways
           is_RAW0 "20141211214622" "OOI-D20141211-T214622.png" 3
           (repeat Byte.x00 12) 4).
  lia.
Defined.

Lemma candidates_lie_apart_witness :
  let bs := [Byte.x00; Byte.x00]
            ++ encode_sample (example_header 1 0 2) [5; -7]%Z [] 88
            ++ encode_sample (example_header 2 0 2) [6; -8]%Z [] 88 in
  exists p,
    parse_loop is_RAW0 "20141211214622" "OOI-D20141211-T214622.png" 3
               bs 0 = Some (Finished p) /\
    candidates p = [2; 98] /\
    StronglySorted (fun a b => a + 84 <= b) (candidates p).
Proof.
  cbv zeta. eexists.
  split; [vm_compute; reflexivity |].
  split; [reflexivity |].
  apply (candidates_lie_apart
           is_RAW0 "20141211214622" "OOI-D20141211-T214622.png" 3
           ([Byte.x00; Byte.x00]
            ++ encode_sample (example_header 1 0 2) [5; -7]%Z [] 88
            ++ encode_sample (example_header 2 0 2) [6; -8]%Z [] 88)
           0 (Finished _)).
  vm_compute. reflexivity.
Defined.

Lemma no_RAW0_in_zeros n i : is_RAW0 (window (repeat Byte.x00 n) i) = false.
Proof.
  unfold is_RAW0.
  destruct (list_eq_dec Byte.byte_eq_dec (window (repeat Byte.x00 n) i)
                        RAW0) as [Heq | _]; [| reflexivity].
  exfalso.
  assert (Hin : In Byte.x52 (window (repeat Byte.x00 n) i)).
  { rewrite Heq. now left. }
  unfold window in Hin.
  apply (In_nth _ _ Byte.x00) in Hin. destruct Hin as (k & _ & Hk).
  assert (Hall : forall x, In x (firstn 4 (skipn i (repeat Byte.x00 n)))
                           -> x = Byte.x00).
  { intros x Hx.
    assert (Hx' : In x (repeat Byte.x00 n)).
    { rewrite <- (firstn_skipn i (repeat Byte.x00 n)).
      apply in_or_app. right.
      rewrite <- (firstn_skipn 4 (skipn i (repeat Byte.x00 n))).
      apply in_or_app. now left. }
    now apply repeat_spec in Hx'. }
  destruct (Nat.lt_ge_cases k
              (length (firstn 4 (skipn i (repeat Byte.x00 n)))))
    as [Hlt | Hge].
  - pose proof (Hall _ (nth_In _ Byte.x00 Hlt)) as Hz.
    rewrite Hk in Hz. discriminate.
  - rewrite nth_overflow in Hk by exact Hge. discriminate.
Qed.

Lemma file_without_signature_witness :
  parse_loop is_RAW0 "20141211214622" "OOI-D20141211-T214622.png" 3
             (repeat Byte.x00 5000) 8
  = Some (Finished (mkProgress (initial 3) [] [])).
Proof.
  apply (file_without_signature
           is_RAW0 "20141211214622" "OOI-D20141211-T214622.png" 3
           (repeat Byte.x00 5000) 8).
  - exact ScannerTheorems.is_RAW0_length.
  - intros i _. apply no_RAW0_in_zeros.
Defined.

Lemma truncated_header_aborts_witness :
  parse_loop is_RAW0 "20141211214622" "OOI-D20141211-T214622.png" 3
             ([Byte.x00; Byte.x00]
              ++ firstn 40 (encode_sample (example_header 1 0 2)
                                          [5; -7]%Z [] 88)) 0
  = Some (Raised IndexError (mkProgress (initial 3) [] [2])).
Proof.
  apply (truncated_header_aborts
           is_RAW0 "20141211214622" "OOI-D20141211-T214622.png" 3
           [Byte.x00; Byte.x00]
           (firstn 40 (encode_sample (example_header 1 0 2)
                                     [5; -7]%Z [] 88)) 0).
  - exact ScannerTheorems.is_RAW0_length.
  - cbn [length]. lia.
  - vm_compute. reflexivity.
  - intros i _ Hi. cbn [length] in Hi.
    change LENGTH_SIZE with 4 in Hi.
    do 6 (destruct i as [| i]; [vm_compute; reflexivity |]). lia.
  - vm_compute. split; lia.
Defined.

End ScannerRuns.

(** ** The Sv conversion: channels *)

Module SvConverterChannels.
Import SvConverter SvConverterFacts SvConverterTheorems Dict DictFacts.
Local Open Scope nat_scope.

Section Channels.
Context {F : Type} `{FloatOps F}.

(** A key above all others goes to the end. *)
Lemma set_last {V} (k : Z) (v : V) (d : dict V) :
  Forall (fun k' => (k' < k)%Z) (keys d) -> set k v d = d ++ [(k, v)].
Proof.
  induction d as [| [k' v'] d IH]; intros Hall; [reflexivity |].
  cbn [keys map fst] in Hall. inversion Hall as [| ? ? Hk Hrest]; subst.
  cbn [set app].
  destruct (Z.ltb_spec k k'); [lia |].
  destruct (Z.eqb_spec k k'); [lia |].
  f_equal. apply IH. exact Hrest.
Qed.

Lemma NoDup_channels n :
  forall a, NoDup (map (fun i => (Z.of_nat i + 1)%Z) (seq a n)).
Proof.
  induction n as [| n IH]; intros a; cbn [seq map]; constructor.
  - intros Hin. apply in_map_iff in Hin. destruct Hin as (m & Heq & Hm).
    apply in_seq in Hm. lia.
  - apply IH.
Qed.

Lemma power2Sv_from_keys count :
  forall n pdd cal (Sv0 Sv : dict (array2 F)),
    power2Sv_from n count pdd cal Sv0 = Some Sv ->
    Forall (fun k => (k < Z.of_nat n + 1)%Z) (keys Sv0) ->
    keys Sv
    = keys Sv0 ++ map (fun i => (Z.of_nat i + 1)%Z) (seq n count).
Proof.
  induction count as [| count IH]; intros n pdd cal Sv0 Sv Hloop Hall.
  - cbn in Hloop. injection Hloop as <-. cbn. now rewrite app_nil_r.
  - cbn [power2Sv_from] in Hloop.
    destruct (nth_error cal n) as [c |]; [| discriminate].
    destruct (get (Z.of_nat n + 1)%Z pdd) as [power |]; [| discriminate].
    destruct (power2Sv_channel c power) as [sv |]; [| discriminate].
    rewrite (set_last _ _ _ Hall) in Hloop.
    apply IH in Hloop.
    + rewrite Hloop. unfold keys. rewrite map_app. cbn [map fst seq].
      now rewrite <- app_assoc.
    + unfold keys. rewrite map_app. apply Forall_app. split.
      * eapply Forall_impl; [| exact Hall]. cbv beta. intros k Hk. lia.
      * cbn [map fst]. constructor; [lia | constructor].
Qed.

(** A dictionary with channel 1 alone. *)
Lemma power2Sv_single (cal : cal_params F) (power sv : array2 F) :
  power2Sv_channel cal power = Some sv ->
  power2Sv [(1%Z, power)] [cal] = Some [(1%Z, sv)].
Proof.
  intros Hsv. unfold power2Sv. cbn [length power2Sv_from nth_error].
  change (get (Z.of_nat 0 + 1)%Z [(1%Z, power)]) with (Some power).
  cbv beta iota. rewrite Hsv. reflexivity.
Qed.

End Channels.

(** X13: [power2Sv] returns only when the channels of the power dictionary
    are exactly 1 to their number [n] and there are calibration
    parameters for each; the result has the same channels. A dictionary
    with another channel, such as 0, makes it raise. *)
Theorem power2Sv_channels {F : Type} `{FloatOps F}
        (power_data_dict : dict (array2 F)) (cal : list (cal_params F))
        (Sv : dict (array2 F)) :
  ordered power_data_dict ->
  power2Sv power_data_dict cal = Some Sv ->
  keys power_data_dict
  = map (fun i => (1 + Z.of_nat i)%Z) (seq 0 (length power_data_dict)) /\
  keys Sv = keys power_data_dict /\
  length power_data_dict <= length cal.
Proof.
  intros Hord Hsv. unfold power2Sv in Hsv.
  pose proof (power2Sv_from_keys _ _ _ _ _ _ Hsv (Forall_nil _)) as Hkeys.
  apply power2Sv_from_spec in Hsv. destruct Hsv as [_ Hdone].
  cbn [keys map app] in Hkeys.
  set (n := length power_data_dict) in *.
  assert (Hlen : length (keys power_data_dict) = n).
  { unfold keys. apply length_map. }
  assert (Hincl : incl (map (fun i => (Z.of_nat i + 1)%Z) (seq 0 n))
                       (keys power_data_dict)).
  { intros k Hk. apply in_map_iff in Hk. destruct Hk as (m & <- & Hm).
    apply in_seq in Hm.
    destruct (Hdone m ltac:(lia)) as (c & power & sv & _ & Hget & _).
    apply get_in_keys. congruence. }
  assert (Hback : incl (keys power_data_dict)
                       (map (fun i => (Z.of_nat i + 1)%Z) (seq 0 n))).
  { apply NoDup_length_incl; [| | exact Hincl].
    - apply NoDup_channels.
    - rewrite length_map, length_seq. lia. }
  assert (Hrange : keys power_data_dict
                   = map (fun i => (1 + Z.of_nat i)%Z) (seq 0 n)).
  { rewrite <- Hlen. apply sorted_full_range; [exact Hord |].
    apply Forall_forall. intros k Hk. apply Hback in Hk.
    apply in_map_iff in Hk. destruct Hk as (m & <- & Hm).
    apply in_seq in Hm. lia. }
  split; [exact Hrange |]. split.
  - rewrite Hkeys, Hrange. apply map_ext. intros i. lia.
  - destruct n as [| n']; [lia |].
    destruct (Hdone n' ltac:(lia)) as (c & _ & _ & Hc & _).
    assert (Hlt : n' < length cal).
    { apply nth_error_Some. congruence. }
    lia.
Qed.

End SvConverterChannels.

Module SvConverterChannelsExample.
Import SvConverter SvConverterFacts SvConverterTheorems Dict DictFacts.
Import SvConverterChannels SvConverterExamples RealArith.
Import Reals.

Lemma power2Sv_channels_witness :
  exists Sv,
    power2Sv [(1%Z, tabulate 2 1 (fun k _ => IZR (Z.of_nat k)))]
             [example_cal true] = Some Sv /\
    keys Sv = [1%Z].
Proof.
  pose proof (power2Sv_single _ _ _
                (power2Sv_tabulate (example_cal true) 2 1
                   (fun k _ => IZR (Z.of_nat k)) 1
                   (Rdiv (IZR (-3)) (IZR 10)) example_match eq_refl))
    as Hsv.
  eexists. split; [exact Hsv |].
  refine (proj1 (proj2 (power2Sv_channels _ _ _ _ Hsv))).
  repeat constructor.
Defined.

End SvConverterChannelsExample.

(** ** The Sv conversion: shapes *)

Module SvConverterShape.
Import SvConverter SvConverterFacts Dict DictFacts.
Local Open Scope nat_scope.

Section Shape.
Context {F : Type} `{FloatOps F}.

Lemma take_indices_length (table : list F) idx :
  forall l, take_indices table idx = Some l -> length l = length idx.
Proof.
  induction idx as [| i idx IH]; intros l; cbn [take_indices].
  - now intros [= <-].
  - destruct (nth_error table i); [| discriminate].
    destruct (take_indices table idx) as [xs |]; [| discriminate].
    intros [= <-]. cbn [length]. now rewrite (IH xs).
Qed.

(** Broadcasting a vector over the columns keeps the rows, and keeps
    the columns unless the array has one column and the vector another
    length. *)
Lemma with_vector_shape op (a b : array2 F) (v : list F) :
  with_vector op a v = Some b ->
  nrows b = nrows a /\
  ncols b = (if (ncols a =? 1) && negb (length v =? 1)
             then length v else ncols a).
Proof.
  unfold with_vector.
  destruct (Nat.eqb_spec (ncols a) (length v)) as [Hcv | Hcv].
  - intros [= <-]. cbn [nrows ncols]. split; [reflexivity |].
    destruct (Nat.eqb_spec (ncols a) 1) as [H1 | H1]; [| reflexivity].
    destruct (Nat.eqb_spec (length v) 1); cbn [negb andb]; lia.
  - destruct (Nat.eqb_spec (length v) 1) as [Hv | Hv].
    + intros [= <-]. cbn [with_scalar nrows ncols]. split; [reflexivity |].
      cbn [negb]. now rewrite andb_false_r.
    + destruct (Nat.eqb_spec (ncols a) 1) as [Ha | Ha];
        [| discriminate].
      intros [= <-]. cbn [nrows ncols]. split; reflexivity.
Qed.

End Shape.

(** X14: the Sv matrix of a channel has the shape of its power matrix,
    unless the power matrix has a single range sample and the pulse
    length does not match exactly one entry of its table. *)
Theorem power2Sv_keeps_shape {F : Type} `{FloatOps F}
        (cal : cal_params F) (power sv : array2 F) :
  power2Sv_channel cal power = Some sv ->
  nrows power <> 1 \/
  length (matches_from 0 (pulselengthtable cal) (pulselength cal)) = 1 ->
  nrows sv = nrows power /\ ncols sv = ncols power.
Proof.
  unfold power2Sv_channel. intros Hsv Hcase.
  destruct (Sac cal) as [sac |] eqn:Hsac; [| discriminate].
  assert (Hlen : length sac
                 = length (matches_from 0 (pulselengthtable cal)
                                        (pulselength cal))).
  { unfold Sac in Hsac.
    destruct (take_indices _ _) as [l |] eqn:Ht; [| discriminate].
    injection Hsac as <-. rewrite length_map.
    now apply take_indices_length in Ht. }
  cbv zeta in Hsv.
  destruct (with_vector add (transpose power) _) as [a1 |] eqn:H1;
    [| discriminate].
  destruct (with_vector add a1 _) as [a2 |] eqn:H2; [| discriminate].
  destruct (with_vector sub (with_scalar sub a2 (CSv cal)) sac)
    as [a3 |] eqn:H3; [| discriminate].
  injection Hsv as <-.
  apply with_vector_shape in H1, H2, H3.
  rewrite TVG_spec, length_map, length_seq in H1.
  rewrite rangeCorrected_spec, !length_map, length_seq in H2.
  cbn [transpose with_scalar flipud nrows ncols] in *.
  destruct H1 as [Hr1 Hc1]. destruct H2 as [Hr2 Hc2].
  destruct H3 as [Hr3 Hc3].
  assert (Hk1 : ncols a1 = nrows power).
  { rewrite Hc1. destruct (nrows power =? 1) eqn:E; [| reflexivity].
    apply Nat.eqb_eq in E. rewrite E. reflexivity. }
  assert (Hk2 : ncols a2 = nrows power).
  { rewrite Hc2, Hk1. destruct (nrows power =? 1) eqn:E; [| reflexivity].
    apply Nat.eqb_eq in E. rewrite E. reflexivity. }
  split; [| lia].
  rewrite Hc3, Hk2.
  destruct (Nat.eqb_spec (nrows power) 1) as [E | E]; [| reflexivity].
  destruct Hcase as [Hcase | Hcase]; [contradiction |].
  rewrite Hlen, Hcase. reflexivity.
Qed.

End SvConverterShape.

Module SvConverterShapeExample.
Import SvConverter SvConverterFacts SvConverterShape SvConverterExamples.
Import RealArith.
Import Reals.
Local Open Scope nat_scope.

Lemma power2Sv_keeps_shape_witness :
  exists sv,
    power2Sv_channel (example_cal true)
                     (tabulate 2 1 (fun k _ => IZR (Z.of_nat k)))
    = Some sv /\
    nrows sv = 2 /\ ncols sv = 1.
Proof.
  pose proof (power2Sv_tabulate (example_cal true) 2 1
                (fun k _ => IZR (Z.of_nat k)) 1
                (Rdiv (IZR (-3)) (IZR 10)) example_match eq_refl) as Hsv.
  eexists. split; [exact Hsv |].
  apply (power2Sv_keeps_shape (example_cal true)
           (tabulate 2 1 (fun k _ => IZR (Z.of_nat k))) _ Hsv).
  left. discriminate.
Defined.

End SvConverterShapeExample.

(** ** Strings and the file name pattern *)

Module StrFacts.
Import Str.
Local Open Scope nat_scope.

Lemma startswith_app (p s : str) : startswith p (p ++ s) = true.
Proof.
  induction p as [| a p IH]; [reflexivity |].
  cbn [startswith app]. now rewrite Ascii.eqb_refl, IH.
Qed.

Lemma startswith_split (p : str) :
  forall s, startswith p s = true -> s = p ++ skipn (length p) s.
Proof.
  induction p as [| a p IH]; intros s Hp; [reflexivity |].
  destruct s as [| b s]; [discriminate |].
  cbn [startswith] in Hp. apply andb_true_iff in Hp.
  destruct Hp as [Hab Hp]. apply Ascii.eqb_eq in Hab. subst b.
  cbn [length skipn app]. f_equal. now apply IH.
Qed.

Lemma startswith_firstn (p s : str) :
  startswith p s = true -> firstn (length p) s = p.
Proof.
  intros Hp. apply startswith_split in Hp.
  rewrite Hp at 1. rewrite firstn_app, firstn_all, Nat.sub_diag.
  cbn [firstn]. apply app_nil_r.
Qed.

Lemma startswith_length (p s : str) :
  startswith p s = true -> length p <= length s.
Proof.
  intros Hp. apply startswith_split in Hp.
  rewrite Hp, length_app. lia.
Qed.

End StrFacts.

Module FileTimeFacts.
Import Str StrFacts FileNames.
Local Open Scope string_scope.
Local Open Scope list_scope.
Local Open Scope nat_scope.

(** *** Backtracking *)

Lemma backtrack_some {A} (try : nat -> option A) k r :
  backtrack try k = Some r -> exists j, j <= k /\ try j = Some r.
Proof.
  induction k as [| k IH]; cbn [backtrack]; intros Hb.
  - destruct (try 0) eqn:Ht; [| discriminate].
    exists 0. split; [lia | congruence].
  - destruct (try (S k)) eqn:Ht.
    + exists (S k). split; [lia | congruence].
    + destruct (IH Hb) as (j & Hj & Hr). exists j. split; [lia | exact Hr].
Qed.

Lemma backtrack_none {A} (try : nat -> option A) k :
  (forall j, j <= k -> try j = None) -> backtrack try k = None.
Proof.
  induction k as [| k IH]; cbn [backtrack]; intros Hnone.
  - now rewrite (Hnone 0).
  - rewrite (Hnone (S k)) by lia. apply IH. intros j Hj. apply Hnone. lia.
Qed.

(** The longest candidate that succeeds is the one taken. *)
Lemma backtrack_first {A} (try : nat -> option A) k j r :
  j <= k -> try j = Some r ->
  (forall i, j < i -> i <= k -> try i = None) ->
  backtrack try k = Some r.
Proof.
  induction k as [| k IH]; intros Hj Hr Hnone.
  - assert (j = 0) by lia. subst j. cbn [backtrack]. now rewrite Hr.
  - cbn [backtrack]. destruct (Nat.eq_dec j (S k)) as [-> | Hne].
    + now rewrite Hr.
    + rewrite (Hnone (S k)) by lia.
      apply IH; [lia | exact Hr |]. intros i Hi Hik. apply Hnone; lia.
Qed.

Lemma backtrack_ext {A} (try try' : nat -> option A) k :
  (forall j, j <= k -> try j = try' j) ->
  backtrack try k = backtrack try' k.
Proof.
  induction k as [| k IH]; cbn [backtrack]; intros Hext.
  - now rewrite (Hext 0).
  - rewrite (Hext (S k)) by lia.
    destruct (try' (S k)); [reflexivity |].
    apply IH. intros j Hj. apply Hext. lia.
Qed.

(** *** Character runs *)

Lemma longest_firstn cs (s : str) :
  forall j, j <= longest cs s -> forallb (member cs) (firstn j s) = true.
Proof.
  induction s as [| c s IH]; intros j Hj.
  - now rewrite firstn_nil.
  - destruct j as [| j]; [reflexivity |].
    cbn [longest] in Hj. cbn [firstn forallb].
    destruct (member cs c); [| lia].
    cbn [andb]. apply IH. lia.
Qed.

Lemma longest_length cs (s : str) : longest cs s <= length s.
Proof.
  induction s as [| c s IH]; cbn [longest length]; [lia |].
  destruct (member cs c); lia.
Qed.

Lemma longest_all cs (a b : str) :
  forallb (member cs) a = true -> length a <= longest cs (a ++ b).
Proof.
  induction a as [| c a IH]; cbn [forallb app longest length]; [lia |].
  intros Hall. apply andb_true_iff in Hall. destruct Hall as [-> Hall].
  specialize (IH Hall). lia.
Qed.

(** A character outside the set ends the run. *)
Lemma longest_stop cs (a : str) c (b : str) :
  member cs c = false -> longest cs (a ++ c :: b) = longest cs a.
Proof.
  intros Hc. induction a as [| x a IH]; cbn [app longest].
  - now rewrite Hc.
  - destruct (member cs x); [now rewrite IH | reflexivity].
Qed.

(** *** One item of a pattern *)

Lemma match_star name cs r (s : str) g :
  match_here ((name, Star cs) :: r) s = Some g ->
  exists j g',
    forallb (member cs) (firstn j s) = true /\
    match_here r (skipn j s) = Some g' /\
    g = capture name (firstn j s) g'.
Proof.
  cbn [match_here]. intros Hb. apply backtrack_some in Hb.
  destruct Hb as (j & Hj & Hr).
  destruct (match_here r (skipn j s)) as [g' |] eqn:Hg; [| discriminate].
  injection Hr as <-. exists j, g'.
  split; [now apply longest_firstn | split; [exact Hg | reflexivity]].
Qed.

Lemma match_lit name l r (s : str) g :
  match_here ((name, Lit l) :: r) s = Some g ->
  exists s' g',
    s = l ++ s' /\ match_here r s' = Some g' /\ g = capture name l g'.
Proof.
  cbn [match_here]. destruct (startswith l s) eqn:Hl; [| discriminate].
  rewrite (startswith_firstn _ _ Hl).
  destruct (match_here r (skipn (length l) s)) as [g' |] eqn:Hr;
    [| discriminate].
  intros [= <-]. exists (skipn (length l) s), g'.
  split; [now apply startswith_split | split; [exact Hr | reflexivity]].
Qed.

Lemma match_times name n cs r (s : str) g :
  match_here ((name, Times n cs) :: r) s = Some g ->
  exists t s' g',
    s = t ++ s' /\ length t = n /\ forallb (member cs) t = true /\
    match_here r s' = Some g' /\ g = capture name t g'.
Proof.
  cbn [match_here].
  destruct ((n <=? length s) && forallb (member cs) (firstn n s)) eqn:Hn;
    [| discriminate].
  apply andb_true_iff in Hn. destruct Hn as [Hlen Hall].
  apply Nat.leb_le in Hlen.
  destruct (match_here r (skipn n s)) as [g' |] eqn:Hr; [| discriminate].
  intros [= <-]. exists (firstn n s), (skipn n s), g'.
  split; [symmetry; apply firstn_skipn |].
  split; [apply firstn_length_le; exact Hlen |].
  split; [exact Hall | split; [exact Hr | reflexivity]].
Qed.

Lemma match_lit_app name l r (s : str) :
  match_here ((name, Lit l) :: r) (l ++ s)
  = option_map (capture name l) (match_here r s).
Proof.
  cbn [match_here]. rewrite startswith_app.
  rewrite firstn_app, firstn_all, Nat.sub_diag. cbn [firstn].
  rewrite app_nil_r, skipn_app, skipn_all, Nat.sub_diag.
  reflexivity.
Qed.

Lemma match_times_app name n cs r (t s : str) :
  length t = n -> forallb (member cs) t = true ->
  match_here ((name, Times n cs) :: r) (t ++ s)
  = option_map (capture name t) (match_here r s).
Proof.
  intros Hlen Hall. cbn [match_here]. subst n.
  rewrite firstn_app, firstn_all, Nat.sub_diag. cbn [firstn].
  rewrite app_nil_r, skipn_app, skipn_all, Nat.sub_diag.
  rewrite Hall, length_app.
  replace (length t <=? length t + length s) with true
    by (symmetry; apply Nat.leb_le; lia).
  reflexivity.
Qed.

(** *** The file name pattern *)

(** The pattern after its two stars. *)
Notation TAIL := (skipn 2 FILE_NAME_REGEX).

Lemma tail_inv (s : str) g :
  match_here TAIL s = Some g ->
  exists d tm rest,
    s = lit "OOI-D" ++ d ++ lit "-T" ++ tm ++ lit ".raw" ++ rest /\
    length d = 8 /\ forallb is_digit d = true /\
    length tm = 6 /\ forallb is_digit tm = true /\
    g = [("Date", d); ("Time", tm)].
Proof.
  intros Hm. cbn [skipn FILE_NAME_REGEX] in Hm.
  apply match_lit in Hm. destruct Hm as (s1 & g1 & -> & Hm & ->).
  apply match_times in Hm.
  destruct Hm as (d & s2 & g2 & -> & Hd & Hdd & Hm & ->).
  apply match_lit in Hm. destruct Hm as (s3 & g3 & -> & Hm & ->).
  apply match_times in Hm.
  destruct Hm as (tm & s4 & g4 & -> & Ht & Htd & Hm & ->).
  apply match_lit in Hm. destruct Hm as (s5 & g5 & -> & Hm & ->).
  cbn [match_here] in Hm. injection Hm as <-.
  exists d, tm, s5. repeat split; assumption.
Qed.

Lemma tail_app (d tm rest : str) :
  length d = 8 -> forallb is_digit d = true ->
  length tm = 6 -> forallb is_digit tm = true ->
  match_here TAIL
    (lit "OOI-D" ++ d ++ lit "-T" ++ tm ++ lit ".raw" ++ rest)
  = Some [("Date", d); ("Time", tm)].
Proof.
  intros Hd Hdd Ht Htd. cbn [skipn FILE_NAME_REGEX].
  rewrite match_lit_app, (match_times_app _ 8 Digit _ d _ Hd Hdd).
  rewrite match_lit_app, (match_times_app _ 6 Digit _ tm _ Ht Htd).
  rewrite match_lit_app. reflexivity.
Qed.

Lemma tail_length (s : str) g :
  match_here TAIL s = Some g -> 25 <= length s.
Proof.
  intros Hm. apply tail_inv in Hm.
  destruct Hm as (d & tm & rest & -> & Hd & _ & Ht & _).
  rewrite !length_app, Hd, Ht. cbn. lia.
Qed.

Lemma digit_not_space c : is_digit c = true -> is_space c = false.
Proof.
  unfold is_digit, is_space. cbv zeta.
  intros H. apply andb_true_iff in H. destruct H as [H1 H2].
  apply Nat.leb_le in H1. apply Nat.leb_le in H2.
  apply orb_false_iff. split.
  - apply Nat.eqb_neq. lia.
  - apply andb_false_iff. right. apply Nat.leb_gt. lia.
Qed.

Lemma digits_not_space (d : str) :
  forallb is_digit d = true -> forallb (member NonSpace) d = true.
Proof.
  induction d as [| c d IH]; [reflexivity |].
  cbn [forallb member]. intros H. apply andb_true_iff in H.
  destruct H as [Hc Hd]. now rewrite (digit_not_space c Hc), IH.
Qed.

Lemma underscores_not_space (u : str) :
  forallb (member (Chr "_"%char)) u = true ->
  forallb (member NonSpace) u = true.
Proof.
  induction u as [| c u IH]; [reflexivity |].
  cbn [forallb member]. intros H. apply andb_true_iff in H.
  destruct H as [Hc Hu]. apply Ascii.eqb_eq in Hc. subst c.
  now rewrite IH.
Qed.

(** What a match of the whole pattern looks like. *)
Lemma file_name_inv (s : str) g :
  match_here FILE_NAME_REGEX s = Some g ->
  exists refdes d tm rest,
    s = refdes ++ lit "OOI-D" ++ d ++ lit "-T" ++ tm ++ lit ".raw" ++ rest /\
    forallb (member NonSpace) refdes = true /\
    length d = 8 /\ forallb is_digit d = true /\
    length tm = 6 /\ forallb is_digit tm = true /\
    group "Date" g = d /\ group "Time" g = tm.
Proof.
  intros Hm. unfold FILE_NAME_REGEX in Hm.
  apply match_star in Hm. destruct Hm as (j & g1 & Hj & Hm & ->).
  apply match_star in Hm. destruct Hm as (k & g2 & Hk & Hm & ->).
  apply tail_inv in Hm.
  destruct Hm as (d & tm & rest & Hs & Hd & Hdd & Ht & Htd & ->).
  exists (firstn j s ++ firstn k (skipn j s)), d, tm, rest.
  split.
  { rewrite <- app_assoc, <- Hs, firstn_skipn. symmetry.
    apply firstn_skipn. }
  split.
  { rewrite forallb_app, Hj. now apply underscores_not_space. }
  repeat split; assumption.
Qed.

End FileTimeFacts.

(** ** The file time *)

Module FileTimeTheorems.
Import Str StrFacts FileNames FileTimeFacts.
Local Open Scope string_scope.
Local Open Scope list_scope.
Local Open Scope nat_scope.

Notation TAIL := (skipn 2 FILE_NAME_REGEX).

(** X15: whenever a file time is returned, it is the eight digits of the
    date followed by the six digits of the time of a name
    [OOI-Ddddddddd-Tdddddd.raw] in the path, and nothing before that
    name is white space. *)
Theorem file_time_comes_from_the_name (filepath t : str) :
  extract_file_time filepath = inr t ->
  exists refdes d tm rest,
    filepath
    = refdes ++ lit "OOI-D" ++ d ++ lit "-T" ++ tm ++ lit ".raw" ++ rest /\
    t = d ++ tm /\
    length d = 8 /\ forallb is_digit d = true /\
    length tm = 6 /\ forallb is_digit tm = true /\
    forallb (fun c => negb (is_space c)) refdes = true.
Proof.
  unfold extract_file_time.
  destruct (match_here FILE_NAME_REGEX filepath) as [g |] eqn:Hm;
    [| discriminate].
  intros [= <-]. apply file_name_inv in Hm.
  destruct Hm as (refdes & d & tm & rest & Hs & Hr & Hd & Hdd & Ht & Htd
                  & -> & ->).
  exists refdes, d, tm, rest. repeat split; assumption.
Qed.

(** No match of the rest of the pattern starts where fewer than 25
    characters are left. *)
Lemma underscores_then_tail_none (s : str) :
  length s < 25 ->
  match_here ((None, Star (Chr "_"%char)) :: TAIL) s = None.
Proof.
  intros Hlen. cbn [match_here]. apply backtrack_none. intros j _.
  destruct (match_here TAIL (skipn j s)) as [g |] eqn:Hm; [| reflexivity].
  apply tail_length in Hm. rewrite length_skipn in Hm. lia.
Qed.

Lemma match_star_first name cs r (s : str) j g' :
  j <= longest cs s ->
  match_here r (skipn j s) = Some g' ->
  (forall i, j < i -> i <= longest cs s ->
             match_here r (skipn i s) = None) ->
  match_here ((name, Star cs) :: r) s
  = Some (capture name (firstn j s) g').
Proof.
  intros Hj Hm Hnone. cbn [match_here].
  apply (backtrack_first _ _ j); [exact Hj | now rewrite Hm |].
  intros i Hi Hle. now rewrite (Hnone i Hi Hle).
Qed.

(** X16: the file time of a path that ends in a name of the expected form:
    the digits of its date and time. *)
Theorem file_time_of_raw_file (refdes d tm : str) :
  forallb (fun c => negb (is_space c)) refdes = true ->
  length d = 8 -> forallb is_digit d = true ->
  length tm = 6 -> forallb is_digit tm = true ->
  extract_file_time
    (refdes ++ lit "OOI-D" ++ d ++ lit "-T" ++ tm ++ lit ".raw")
  = inr (d ++ tm).
Proof.
  intros Hr Hd Hdd Ht Htd. unfold extract_file_time.
  set (body := lit "OOI-D" ++ d ++ lit "-T" ++ tm ++ lit ".raw").
  assert (Hbody : length body = 25).
  { unfold body. rewrite !length_app, Hd, Ht. reflexivity. }
  assert (Hm : match_here FILE_NAME_REGEX (refdes ++ body)
               = Some [("Refdes", refdes); ("Date", d); ("Time", tm)]).
  { unfold FILE_NAME_REGEX.
    rewrite (match_star_first _ _ _ _ (length refdes)
               [("Date", d); ("Time", tm)]).
    - rewrite firstn_app, firstn_all, Nat.sub_diag. cbn [firstn].
      now rewrite app_nil_r.
    - apply (longest_all NonSpace). exact Hr.
    - rewrite skipn_app, skipn_all, Nat.sub_diag. cbn [skipn app].
      rewrite (match_star_first _ _ _ _ 0 [("Date", d); ("Time", tm)]);
        [reflexivity | lia | |].
      + pose proof (tail_app d tm [] Hd Hdd Ht Htd) as Htail.
        rewrite app_nil_r in Htail. exact Htail.
      + intros i Hi Hle.
        replace (longest (Chr "_"%char) body) with 0 in Hle
          by reflexivity.
        lia.
    - intros i Hi _.
      apply (underscores_then_tail_none (skipn i (refdes ++ body))).
      rewrite length_skipn, length_app. lia. }
  rewrite Hm. reflexivity.
Qed.

(** *** White space ends what is looked at *)

Lemma lit_cut name (l : str) r (x : str) c (b : str) :
  (forall y, match_here r (y ++ c :: b) = match_here r y) ->
  ~ In c l ->
  match_here ((name, Lit l) :: r) (x ++ c :: b)
  = match_here ((name, Lit l) :: r) x.
Proof.
  intros Hr Hc. cbn [match_here].
  destruct (startswith l x) eqn:Hx.
  - assert (Hsplit : exists x', x = l ++ x').
    { eexists. now apply startswith_split. }
    destruct Hsplit as [x' ->]. clear Hx.
    rewrite <- app_assoc, startswith_app.
    rewrite !firstn_app, !firstn_all, Nat.sub_diag. cbn [firstn].
    rewrite !skipn_app, !skipn_all, Nat.sub_diag.
    cbn [skipn app]. now rewrite Hr.
  - destruct (startswith l (x ++ c :: b)) eqn:Hxc; [| reflexivity].
    exfalso.
    pose proof (startswith_split _ _ Hxc) as Hsplit.
    destruct (Nat.le_gt_cases (length l) (length x)) as [Hle | Hgt].
    + assert (Hpre : startswith l x = true).
      { rewrite <- (firstn_skipn (length l) x).
        replace (firstn (length l) x) with l; [apply startswith_app |].
        apply (f_equal (firstn (length l))) in Hsplit.
        rewrite firstn_app in Hsplit.
        replace (length l - length x) with 0 in Hsplit by lia.
        cbn [firstn] in Hsplit. rewrite app_nil_r in Hsplit.
        rewrite Hsplit. rewrite firstn_app, firstn_all, Nat.sub_diag.
        cbn [firstn]. now rewrite app_nil_r. }
      congruence.
    + apply Hc.
      apply (f_equal (fun s => nth_error s (length x))) in Hsplit.
      rewrite nth_error_app2 in Hsplit by lia.
      rewrite Nat.sub_diag in Hsplit. cbn [nth_error] in Hsplit.
      rewrite nth_error_app1 in Hsplit by lia.
      symmetry in Hsplit. now apply nth_error_In in Hsplit.
Qed.

Lemma times_cut name n cs r (x : str) c (b : str) :
  (forall y, match_here r (y ++ c :: b) = match_here r y) ->
  member cs c = false ->
  match_here ((name, Times n cs) :: r) (x ++ c :: b)
  = match_here ((name, Times n cs) :: r) x.
Proof.
  intros Hr Hc. cbn [match_here].
  destruct (Nat.le_gt_cases n (length x)) as [Hle | Hgt].
  - rewrite firstn_app. replace (n - length x) with 0 by lia.
    cbn [firstn]. rewrite app_nil_r.
    rewrite skipn_app. replace (n - length x) with 0 by lia.
    cbn [skipn]. rewrite Hr, length_app.
    replace (n <=? length x + length (c :: b)) with true
      by (symmetry; apply Nat.leb_le; lia).
    replace (n <=? length x) with true
      by (symmetry; apply Nat.leb_le; lia).
    reflexivity.
  - replace (n <=? length x) with false
      by (symmetry; apply Nat.leb_gt; lia).
    cbn [andb].
    replace (forallb (member cs) (firstn n (x ++ c :: b))) with false.
    { now rewrite andb_false_r. }
    symmetry. rewrite firstn_app, forallb_app.
    destruct (n - length x) as [| m] eqn:Hm; [lia |].
    cbn [firstn forallb]. rewrite Hc. cbn [andb]. apply andb_false_r.
Qed.

Lemma tail_cut (x : str) c (b : str) :
  is_space c = true ->
  match_here TAIL (x ++ c :: b) = match_here TAIL x.
Proof.
  intros Hc. cbn [skipn FILE_NAME_REGEX].
  assert (Hd : member Digit c = false).
  { cbn [member]. destruct (is_digit c) eqn:Hdc; [| reflexivity].
    apply digit_not_space in Hdc. congruence. }
  assert (Hl : forall l : str,
             forallb (fun a => negb (is_space a)) l = true -> ~ In c l).
  { intros l Hall Hin. rewrite forallb_forall in Hall.
    apply Hall in Hin. rewrite Hc in Hin. discriminate. }
  apply lit_cut; [| apply Hl; reflexivity]. intros x1.
  apply times_cut; [| exact Hd]. intros x2.
  apply lit_cut; [| apply Hl; reflexivity]. intros x3.
  apply times_cut; [| exact Hd]. intros x4.
  apply lit_cut; [| apply Hl; reflexivity]. intros x5.
  reflexivity.
Qed.

Lemma star_cut name cs r (x : str) c (b : str) :
  (forall y, match_here r (y ++ c :: b) = match_here r y) ->
  member cs c = false ->
  match_here ((name, Star cs) :: r) (x ++ c :: b)
  = match_here ((name, Star cs) :: r) x.
Proof.
  intros Hr Hc. cbn [match_here]. rewrite (longest_stop _ _ _ _ Hc).
  apply backtrack_ext. intros j Hj.
  pose proof (longest_length cs x) as Hlen.
  rewrite firstn_app. replace (j - length x) with 0 by lia.
  cbn [firstn]. rewrite app_nil_r.
  rewrite skipn_app. replace (j - length x) with 0 by lia.
  cbn [skipn]. now rewrite Hr.
Qed.

(** X17: nothing from the first white space character on is looked at: the
    file time, or the failure to find one, is that of the path before
    it. *)
Theorem file_time_stops_at_white_space (a : str) (c : ascii) (b : str) :
  is_space c = true ->
  match extract_file_time a with
  | inr t => extract_file_time (a ++ c :: b) = inr t
  | inl _ => exists e, extract_file_time (a ++ c :: b) = inl e
  end.
Proof.
  intros Hc. unfold extract_file_time.
  assert (Hm : match_here FILE_NAME_REGEX (a ++ c :: b)
               = match_here FILE_NAME_REGEX a).
  { unfold FILE_NAME_REGEX.
    apply star_cut; [| cbn [member]; now rewrite Hc].
    intros y. apply star_cut.
    - intros z. apply (tail_cut z c b Hc).
    - cbn [member]. destruct (Ascii.eqb_spec "_"%char c) as [<- |];
        [discriminate | reflexivity]. }
  rewrite Hm.
  destruct (match_here FILE_NAME_REGEX a); [reflexivity | eauto].
Qed.

Lemma file_time_comes_from_the_name_witness :
  exists refdes d tm rest,
    lit "/data/CE04_OOI-D20141211-T214622.raw"
    = refdes ++ lit "OOI-D" ++ d ++ lit "-T" ++ tm ++ lit ".raw" ++ rest /\
    lit "20141211214622" = d ++ tm /\
    length d = 8 /\ forallb is_digit d = true /\
    length tm = 6 /\ forallb is_digit tm = true /\
    forallb (fun c => negb (is_space c)) refdes = true.
Proof.
  apply (file_time_comes_from_the_name
           (lit "/data/CE04_OOI-D20141211-T214622.raw")
           (lit "20141211214622")).
  vm_compute. reflexivity.
Defined.

Lemma file_time_of_raw_file_witness :
  extract_file_time
    (lit "/data/CE04_" ++ lit "OOI-D" ++ lit "20141211" ++ lit "-T"
     ++ lit "214622" ++ lit ".raw")
  = inr (lit "20141211" ++ lit "214622").
Proof.
  apply (file_time_of_raw_file (lit "/data/CE04_") (lit "20141211")
                               (lit "214622")); reflexivity.
Defined.

Lemma file_time_stops_at_white_space_witness :
  extract_file_time
    (lit "OOI-D20141211-T214622.raw"
     ++ " "%char :: lit "OOI-D20150101-T000000.raw")
  = inr (lit "20141211214622").
Proof.
  apply (file_time_stops_at_white_space
           (lit "OOI-D20141211-T214622.raw") " "%char
           (lit "OOI-D20150101-T000000.raw")).
  reflexivity.
Defined.

End FileTimeTheorems.

(** ** Paths *)

Module PathFacts.
Import Str StrFacts PosixPath FileNames.
Local Open Scope string_scope.
Local Open Scope list_scope.
Local Open Scope nat_scope.

Notation slash := ("/"%char).

Lemma startswith_app_l (p a b : str) :
  startswith p a = true -> startswith p (a ++ b) = true.
Proof.
  intros Hp. apply startswith_split in Hp. rewrite Hp, <- app_assoc.
  apply startswith_app.
Qed.

Lemma startswith_In (p s : str) c :
  startswith p s = true -> In c p -> In c s.
Proof.
  intros Hp Hc. apply startswith_split in Hp. rewrite Hp.
  apply in_or_app. now left.
Qed.

(** An occurrence found in [a ++ b] of a word whose last character is
    not in [b] lies in [a]. *)
Lemma startswith_before (u : str) c (a b : str) :
  ~ In c b ->
  startswith (u ++ [c]) (a ++ b) = true ->
  startswith (u ++ [c]) a = true /\ length u < length a.
Proof.
  intros Hb. revert a.
  induction u as [| x u IH]; intros a Hp.
  - destruct a as [| y a].
    + exfalso. apply Hb. cbn [app] in Hp.
      destruct b as [| z b]; [discriminate |].
      cbn [startswith] in Hp. apply andb_true_iff in Hp.
      destruct Hp as [Hp _]. apply Ascii.eqb_eq in Hp. subst z.
      now left.
    + cbn [app startswith] in *. apply andb_true_iff in Hp.
      destruct Hp as [-> _]. cbn [length]. split; [reflexivity | lia].
  - destruct a as [| y a].
    + exfalso. apply Hb.
      apply (startswith_In _ _ c Hp). apply in_or_app. right. now left.
    + cbn [app startswith] in *. apply andb_true_iff in Hp.
      destruct Hp as [-> Hp]. apply IH in Hp.
      destruct Hp as [-> Hlen]. cbn [length]. split; [reflexivity | lia].
Qed.

(** *** [find] *)

Lemma find_none (sub s : str) :
  (forall j, startswith sub (skipn j s) = false) -> find sub s = None.
Proof.
  induction s as [| c s IH]; intros Hnone;
    pose proof (Hnone 0) as H0; cbn [skipn] in H0.
  - cbn [find]. now rewrite H0.
  - cbn [find]. rewrite H0. rewrite IH; [reflexivity |].
    intros j. exact (Hnone (S j)).
Qed.

Lemma find_first (sub : str) :
  forall (s : str) i,
    startswith sub (skipn i s) = true ->
    (forall j, j < i -> startswith sub (skipn j s) = false) ->
    find sub s = Some i.
Proof.
  intros s i. revert s.
  induction i as [| i IH]; intros s Hi Hbefore.
  - cbn [skipn] in Hi. destruct s; cbn [find]; now rewrite Hi.
  - destruct s as [| c s].
    + cbn [skipn] in Hi. pose proof (Hbefore 0 ltac:(lia)) as H0.
      cbn [skipn] in H0. congruence.
    + cbn [find]. pose proof (Hbefore 0 ltac:(lia)) as H0.
      cbn [skipn] in H0. rewrite H0.
      rewrite (IH s); [reflexivity | exact Hi |].
      intros j Hj. apply (Hbefore (S j)). lia.
Qed.

Lemma find_some (sub : str) :
  forall (s : str) i,
    find sub s = Some i -> startswith sub (skipn i s) = true.
Proof.
  induction s as [| c s IH]; intros i; cbn [find].
  - destruct (startswith sub []) eqn:H0; [| discriminate].
    now intros [= <-].
  - destruct (startswith sub (c :: s)) eqn:H0.
    + now intros [= <-].
    + destruct (find sub s) as [k |]; [| discriminate].
      intros [= <-]. cbn [skipn]. now apply IH.
Qed.

Lemma find_char_none c (s : str) : ~ In c s -> find [c] s = None.
Proof.
  intros Hc. apply find_none. intros j.
  destruct (startswith [c] (skipn j s)) eqn:Hp; [| reflexivity].
  exfalso. apply Hc.
  assert (Hin : In c (skipn j s)).
  { apply (startswith_In _ _ c Hp). now left. }
  rewrite <- (firstn_skipn j s). apply in_or_app. now right.
Qed.

Lemma find_char_first c (a b : str) :
  ~ In c a -> find [c] (a ++ c :: b) = Some (length a).
Proof.
  intros Hc. apply find_first.
  - rewrite skipn_app, skipn_all, Nat.sub_diag. cbn [skipn app startswith].
    now rewrite Ascii.eqb_refl.
  - intros j Hj.
    destruct (startswith [c] (skipn j (a ++ c :: b))) eqn:Hp;
      [| reflexivity].
    exfalso. apply Hc.
    rewrite skipn_app in Hp. replace (j - length a) with 0 in Hp by lia.
    cbn [skipn] in Hp.
    destruct (skipn j a) as [| x t] eqn:Ht.
    { apply (f_equal (@length _)) in Ht. rewrite length_skipn in Ht.
      cbn [length] in Ht. lia. }
    cbn [app startswith] in Hp. apply andb_true_iff in Hp.
    destruct Hp as [Hp _]. apply Ascii.eqb_eq in Hp. subst x.
    rewrite <- (firstn_skipn j a), Ht. apply in_or_app. right. now left.
Qed.

(** *** [replace] *)

Lemma replace_skip (old new a s : str) :
  replace_from old new (length a) (a ++ s) = replace_from old new 0 s.
Proof.
  induction a as [| c a IH]; cbn [length app]; [| exact IH].
  destruct s as [| c s]; reflexivity.
Qed.

Lemma replace_head (old new s : str) :
  old <> [] ->
  replace_from old new 0 (old ++ s) = new ++ replace_from old new 0 s.
Proof.
  intros Hne. destruct old as [| c old]; [now contradiction Hne |].
  change ((c :: old) ++ s) with (c :: (old ++ s)).
  cbn [replace_from].
  change (c :: (old ++ s)) with ((c :: old) ++ s).
  rewrite startswith_app.
  replace (length (c :: old) - 1) with (length old)
    by (cbn [length]; lia).
  now rewrite replace_skip.
Qed.

Lemma replace_nothing (old new s : str) :
  (forall j, startswith old (skipn j s) = false) ->
  replace_from old new 0 s = s.
Proof.
  induction s as [| c s IH]; intros Hnone; [reflexivity |].
  pose proof (Hnone 0) as H0. cbn [skipn] in H0.
  cbn [replace_from]. rewrite H0. f_equal. apply IH.
  intros j. exact (Hnone (S j)).
Qed.

(** A word that ends with a character not in [fn] is replaced in
    [h ++ fn] as in [h]. *)
Lemma replace_keeps (u : str) c (new fn : str) :
  ~ In c fn ->
  forall (h : str) skip,
    skip <= length h ->
    replace_from (u ++ [c]) new skip (h ++ fn)
    = replace_from (u ++ [c]) new skip h ++ fn.
Proof.
  intros Hfn.
  induction h as [| x h IH]; intros skip Hskip.
  - cbn [length] in Hskip. assert (skip = 0) by lia. subst skip.
    cbn [app replace_from]. apply replace_nothing. intros j.
    destruct (startswith (u ++ [c]) (skipn j fn)) eqn:Hp; [| reflexivity].
    exfalso. apply Hfn.
    assert (Hin : In c (skipn j fn)).
    { apply (startswith_In _ _ c Hp). apply in_or_app. right. now left. }
    rewrite <- (firstn_skipn j fn). apply in_or_app. now right.
  - cbn [app replace_from]. destruct skip as [| k].
    + change (x :: h ++ fn) with ((x :: h) ++ fn).
      destruct (startswith (u ++ [c]) ((x :: h) ++ fn)) eqn:Hp.
      * apply (startswith_before u c (x :: h) fn Hfn) in Hp.
        destruct Hp as [Hp Hlen]. rewrite Hp.
        rewrite <- app_assoc. f_equal. apply IH.
        rewrite length_app. cbn [length] in *. lia.
      * destruct (startswith (u ++ [c]) (x :: h)) eqn:Hq.
        { apply (startswith_app_l _ _ fn) in Hq. congruence. }
        cbn [app]. f_equal. apply IH. lia.
    + apply IH. cbn [length] in Hskip. lia.
Qed.

(** *** [basename] *)

Lemma rfind_slash_spec (p : str) :
  (rfind_slash p = (-1)%Z /\ ~ In slash p) \/
  (0 <= rfind_slash p < Z.of_nat (length p))%Z /\
  nth_error p (Z.to_nat (rfind_slash p)) = Some slash /\
  ~ In slash (skipn (Z.to_nat (rfind_slash p + 1)) p).
Proof.
  induction p as [| c p IH]; [left; split; [reflexivity | intros []] |].
  cbn [rfind_slash length]. cbv zeta.
  destruct IH as [[Hr Hno] | (Hr & Hnth & Hno)].
  - rewrite Hr. cbn [Z.leb Z.compare].
    destruct (Ascii.eqb_spec c slash) as [-> | Hc].
    + right. split; [lia |]. split; [reflexivity |]. exact Hno.
    + left. split; [reflexivity |]. intros [Hin | Hin]; congruence.
  - destruct (Z.leb_spec 0 (rfind_slash p)); [| lia].
    right. split; [lia |].
    replace (Z.to_nat (rfind_slash p + 1))
      with (S (Z.to_nat (rfind_slash p))) by lia.
    split; [exact Hnth |].
    replace (Z.to_nat (rfind_slash p + 1 + 1))
      with (S (Z.to_nat (rfind_slash p + 1))) by lia.
    exact Hno.
Qed.

Lemma basename_no_slash (p : str) : ~ In slash (basename p).
Proof.
  unfold basename.
  destruct (rfind_slash_spec p) as [[-> Hno] | (_ & _ & Hno)];
    [exact Hno | exact Hno].
Qed.

(** The path is its directory part, which is empty or ends with a
    slash, followed by its base name. *)
Lemma basename_split (p : str) :
  exists h, p = h ++ basename p /\
            (h = [] \/ exists h', h = h' ++ [slash]).
Proof.
  unfold basename.
  destruct (rfind_slash_spec p) as [[-> Hno] | (Hr & Hnth & Hno)].
  - exists []. split; [reflexivity | now left].
  - exists (firstn (Z.to_nat (rfind_slash p + 1)) p).
    split; [symmetry; apply firstn_skipn |]. right.
    exists (firstn (Z.to_nat (rfind_slash p)) p).
    replace (Z.to_nat (rfind_slash p + 1))
      with (S (Z.to_nat (rfind_slash p))) by lia.
    revert Hnth. generalize (Z.to_nat (rfind_slash p)). clear.
    induction p as [| c p IH]; intros [| n]; cbn; try discriminate.
    + now intros [= ->].
    + intros Hn. f_equal. now apply IH.
Qed.

Lemma rfind_slash_app (a b : str) :
  ~ In slash b ->
  rfind_slash (a ++ slash :: b) = Z.of_nat (length a).
Proof.
  intros Hb. induction a as [| c a IH].
  - cbn [app rfind_slash length]. cbv zeta.
    destruct (rfind_slash_spec b) as [[-> _] | (Hr & Hnth & _)].
    + reflexivity.
    + exfalso. apply Hb. eapply nth_error_In. exact Hnth.
  - cbn [app rfind_slash length]. cbv zeta. rewrite IH.
    destruct (Z.leb_spec 0 (Z.of_nat (length a))); lia.
Qed.

Lemma basename_app (a b : str) :
  ~ In slash b -> basename (a ++ slash :: b) = b.
Proof.
  intros Hb. unfold basename. rewrite (rfind_slash_app a b Hb).
  replace (Z.to_nat (Z.of_nat (length a) + 1)) with (length a + 1) by lia.
  rewrite skipn_app.
  rewrite skipn_all2 by lia.
  replace (length a + 1 - length a) with 1 by lia. reflexivity.
Qed.

Lemma basename_plain (b : str) : ~ In slash b -> basename b = b.
Proof.
  intros Hb. unfold basename.
  destruct (rfind_slash_spec b) as [[-> _] | (Hr & Hnth & _)];
    [reflexivity |].
  exfalso. apply Hb. eapply nth_error_In. exact Hnth.
Qed.

End PathFacts.

Module RelativePathTheorems.
Import Str StrFacts PosixPath FileNames PathFacts.
Local Open Scope string_scope.
Local Open Scope list_scope.
Local Open Scope nat_scope.

(** X18: a path whose file name has no underscore is reduced to that file
    name. *)
Theorem relative_path_without_underscore (filepath : str) :
  ~ In "_"%char (basename filepath) ->
  generate_relative_file_path filepath = basename filepath.
Proof.
  intros Hno. unfold generate_relative_file_path, split_once. cbv zeta.
  change (lit "_") with ["_"%char].
  now rewrite (find_char_none _ _ Hno).
Qed.

(** X19: whatever the path, the result ends with its file name. *)
Theorem relative_path_ends_with_file_name (filepath : str) :
  exists directories,
    generate_relative_file_path filepath
    = directories ++ basename filepath.
Proof.
  unfold generate_relative_file_path, split_once. cbv zeta.
  destruct (find (lit "_") (basename filepath)) as [k |];
    [| now exists []].
  set (refdes := firstn k (basename filepath)).
  destruct (find (refdes ++ sep) filepath) as [i |] eqn:Hfind;
    [| now exists []].
  apply find_some in Hfind.
  destruct (basename_split filepath) as (h & Hp & _).
  pose proof (basename_no_slash filepath) as Hno.
  set (fn := basename filepath) in *.
  change sep with [slash] in *.
  assert (Hocc : startswith (refdes ++ [slash]) (skipn i h) = true
                 /\ length refdes < length (skipn i h)).
  { rewrite Hp in Hfind.
    destruct (Nat.le_gt_cases i (length h)) as [Hle | Hgt].
    - rewrite skipn_app in Hfind.
      replace (i - length h) with 0 in Hfind by lia.
      cbn [skipn] in Hfind.
      exact (startswith_before _ _ _ _ Hno Hfind).
    - exfalso. apply Hno.
      rewrite skipn_app, skipn_all2 in Hfind by lia.
      cbn [app] in Hfind.
      assert (Hin : In slash (skipn (i - length h) fn)).
      { apply (startswith_In _ _ slash Hfind).
        apply in_or_app. right. now left. }
      rewrite <- (firstn_skipn (i - length h) fn).
      apply in_or_app. now right. }
  destruct Hocc as [_ Hlen].
  assert (Hi : i <= length h).
  { rewrite length_skipn in Hlen. lia. }
  exists (replace (refdes ++ [slash]) [] (skipn i h)).
  assert (Hsk : skipn i filepath = skipn i h ++ fn).
  { rewrite Hp at 1. rewrite skipn_app.
    replace (i - length h) with 0 by lia. reflexivity. }
  rewrite Hsk. unfold replace.
  destruct (refdes ++ [slash]) as [| x d] eqn:Hd.
  { destruct refdes; discriminate. }
  rewrite <- Hd. apply replace_keeps; [exact Hno | lia].
Qed.

(** X20: a file under the directory named after its reference designator
    (the part of the file name before the first underscore): the result
    is the path from inside that directory. *)
Theorem relative_path_from_designator
        (dir refdes sub name : str) :
  ~ In "_"%char refdes -> ~ In slash refdes -> ~ In slash name ->
  (sub = [] \/ exists s', sub = s' ++ [slash]) ->
  let delimiter := refdes ++ [slash] in
  let filepath := dir ++ delimiter ++ sub ++ refdes ++ "_"%char :: name in
  (forall j, j < length dir ->
             startswith delimiter (skipn j filepath) = false) ->
  (forall j, startswith delimiter (skipn j sub) = false) ->
  generate_relative_file_path filepath
  = sub ++ refdes ++ "_"%char :: name.
Proof.
  intros Hu Hs Hn Hsub delimiter filepath Hbefore Hin.
  set (fn := refdes ++ "_"%char :: name).
  assert (Hfn : ~ In slash fn).
  { unfold fn. intros H. apply in_app_or in H.
    destruct H as [H | [H | H]]; [now apply Hs | discriminate
                                  | now apply Hn]. }
  assert (Hbase : basename filepath = fn).
  { unfold filepath, delimiter. fold fn.
    destruct Hsub as [-> | [s' ->]].
    - replace (dir ++ (refdes ++ [slash]) ++ [] ++ fn)
        with ((dir ++ refdes) ++ slash :: fn)
        by (now rewrite <- !app_assoc).
      now apply basename_app.
    - replace (dir ++ (refdes ++ [slash]) ++ (s' ++ [slash]) ++ fn)
        with ((dir ++ refdes ++ slash :: s') ++ slash :: fn)
        by (now rewrite <- !app_assoc).
      now apply basename_app. }
  unfold generate_relative_file_path, split_once. cbv zeta.
  rewrite Hbase. unfold fn at 1. change (lit "_") with ["_"%char].
  rewrite (find_char_first _ _ _ Hu).
  replace (firstn (length refdes) fn) with refdes
    by (unfold fn; rewrite firstn_app, firstn_all, Nat.sub_diag;
        cbn [firstn]; now rewrite app_nil_r).
  change sep with [slash]. fold delimiter.
  assert (Hfind : find delimiter filepath = Some (length dir)).
  { apply find_first; [| exact Hbefore].
    unfold filepath. rewrite skipn_app, skipn_all, Nat.sub_diag.
    cbn [skipn app]. apply startswith_app. }
  rewrite Hfind.
  unfold filepath. rewrite skipn_app, skipn_all, Nat.sub_diag.
  cbn [skipn app]. fold fn.
  unfold replace.
  destruct delimiter as [| x d] eqn:Hd.
  { unfold delimiter in Hd. destruct refdes; discriminate. }
  rewrite <- Hd.
  rewrite replace_head by (rewrite Hd; discriminate).
  cbn [app]. unfold delimiter in *.
  rewrite replace_keeps; [| exact Hfn | lia].
  f_equal. apply replace_nothing. rewrite <- Hd in Hin. exact Hin.
Qed.

Lemma relative_path_without_underscore_witness :
  generate_relative_file_path (lit "/data/2014/OOI-D20141211-T214622.png")
  = basename (lit "/data/2014/OOI-D20141211-T214622.png").
Proof.
  apply (relative_path_without_underscore
           (lit "/data/2014/OOI-D20141211-T214622.png")).
  vm_compute. intros H.
  repeat (destruct H as [H | H]; [discriminate |]). exact H.
Defined.

Lemma relative_path_from_designator_witness :
  generate_relative_file_path
    (lit "/rsn/" ++ (lit "CE04" ++ [slash]) ++ lit "2015/"
     ++ lit "CE04" ++ "_"%char :: lit "OOI-D20141211-T214622.png")
  = lit "2015/" ++ lit "CE04" ++ "_"%char :: lit "OOI-D20141211-T214622.png".
Proof.
  apply (relative_path_from_designator
           (lit "/rsn/") (lit "CE04") (lit "2015/")
           (lit "OOI-D20141211-T214622.png")).
  - vm_compute. intros H.
    repeat (destruct H as [H | H]; [discriminate |]). exact H.
  - vm_compute. intros H.
    repeat (destruct H as [H | H]; [discriminate |]). exact H.
  - vm_compute. intros H.
    repeat (destruct H as [H | H]; [discriminate |]). exact H.
  - right. now exists (lit "2015").
  - intros j Hj.
    do 5 (destruct j as [| j]; [reflexivity |]).
    cbn in Hj. lia.
  - intros j.
    do 5 (destruct j as [| j]; [reflexivity |]).
    now destruct j.
Defined.

End RelativePathTheorems.

(** ** The image path *)

Module ImagePathFacts.
Import Str StrFacts PosixPath FileNames PathFacts.
Local Open Scope string_scope.
Local Open Scope list_scope.
Local Open Scope nat_scope.

Notation slash := ("/"%char).

Lemma str_eqb_false (a b : str) : a <> b -> str_eqb a b = false.
Proof.
  intros Hne. unfold str_eqb.
  destruct (list_eq_dec ascii_dec a b); [contradiction | reflexivity].
Qed.

Lemma str_eqb_true (a b : str) : str_eqb a b = true -> a = b.
Proof.
  unfold str_eqb. destruct (list_eq_dec ascii_dec a b);
    [trivial | discriminate].
Qed.

(** *** Splitting and joining at slashes *)

Lemma split_slash_cons (s : str) : exists w ws, split_slash s = w :: ws.
Proof.
  induction s as [| c s (w & ws & IH)]; cbn [split_slash]; [eauto |].
  destruct (Ascii.eqb c slash); [eauto |]. rewrite IH. eauto.
Qed.

Lemma split_slash_plain (s : str) : ~ In slash s -> split_slash s = [s].
Proof.
  induction s as [| c s IH]; intros Hno; [reflexivity |].
  cbn [split_slash].
  destruct (Ascii.eqb_spec c slash) as [-> | _].
  - exfalso. apply Hno. now left.
  - rewrite IH; [reflexivity |]. intros Hin. apply Hno. now right.
Qed.

Lemma split_slash_app (a b : str) :
  split_slash (a ++ slash :: b) = split_slash a ++ split_slash b.
Proof.
  induction a as [| c a IH]; [reflexivity |].
  cbn [app split_slash]. rewrite IH.
  destruct (Ascii.eqb c slash); [reflexivity |].
  destruct (split_slash_cons a) as (w & ws & ->). reflexivity.
Qed.

Lemma join_slash_snoc (comps : list str) (name : str) :
  join_slash (comps ++ [name])
  = match comps with
    | [] => name
    | _ => join_slash comps ++ slash :: name
    end.
Proof.
  induction comps as [| c comps IH]; [reflexivity |].
  cbn [app]. destruct comps as [| c' comps]; [reflexivity |].
  change (join_slash (c :: (c' :: comps) ++ [name]))
    with (c ++ slash :: join_slash ((c' :: comps) ++ [name])).
  rewrite IH.
  change (join_slash (c :: c' :: comps))
    with (c ++ slash :: join_slash (c' :: comps)).
  now rewrite <- app_assoc.
Qed.

Lemma norm_step_plain n comps (name : str) :
  plain name -> norm_step n comps name = comps ++ [name].
Proof.
  intros (_ & H0 & H1 & H2). unfold norm_step.
  rewrite (str_eqb_false _ _ H0), (str_eqb_false _ _ H1).
  rewrite (str_eqb_false _ _ H2). reflexivity.
Qed.

(** The normal form of a path that ends in a plain name ends in that
    name, after nothing or after a slash. *)
Lemma normpath_name (x name : str) :
  plain name ->
  exists h, normpath (x ++ slash :: name) = h ++ name /\
            (h = [] \/ exists h', h = h' ++ [slash]).
Proof.
  intros Hplain. pose proof Hplain as (Hno & Hne & _).
  unfold normpath.
  rewrite str_eqb_false by (destruct x; discriminate).
  cbv zeta.
  set (n := if startswith (lit "/") (x ++ slash :: name) then _ else _).
  rewrite split_slash_app, (split_slash_plain name Hno).
  rewrite fold_left_app. cbn [fold_left].
  rewrite (norm_step_plain _ _ _ Hplain).
  set (comps := fold_left (norm_step n) (split_slash x) []).
  rewrite join_slash_snoc.
  match goal with
  | |- context [str_eqb ?e []] => set (res := e)
  end.
  assert (Hres : exists h,
             res = h ++ name /\
             (h = [] \/ exists h', h = h' ++ [slash])).
  { unfold res. destruct comps as [| c comps'].
    - exists (repeat slash n). split; [reflexivity |].
      destruct n as [| n']; [now left |]. right.
      exists (repeat slash n').
      change (slash :: repeat slash n') with (repeat slash (S n')).
      rewrite <- repeat_cons. reflexivity.
    - exists (repeat slash n ++ join_slash (c :: comps') ++ [slash]).
      split; [now rewrite <- !app_assoc |].
      right. exists (repeat slash n ++ join_slash (c :: comps')).
      now rewrite <- app_assoc. }
  destruct Hres as (h & Heq & Hh). rewrite Heq.
  rewrite str_eqb_false.
  - exists h. split; [reflexivity | exact Hh].
  - destruct h; [cbn [app]; exact Hne | discriminate].
Qed.

Lemma basename_after (h name : str) :
  ~ In slash name ->
  (h = [] \/ exists h', h = h' ++ [slash]) ->
  basename (h ++ name) = name.
Proof.
  intros Hno [-> | [h' ->]].
  - now apply basename_plain.
  - rewrite <- app_assoc. cbn [app]. now apply basename_app.
Qed.

Lemma join_form (a b : str) :
  startswith (lit "/") b = false ->
  exists h, join a b = h ++ b /\
            (h = [] \/ exists h', h = h' ++ [slash]).
Proof.
  intros Hb. unfold join. rewrite Hb.
  destruct (str_eqb a []) eqn:Ha; cbn [orb].
  - apply str_eqb_true in Ha. subst a. exists []. split; [reflexivity |].
    now left.
  - destruct (endswith_slash a) eqn:He.
    + exists a. split; [reflexivity |]. right.
      unfold endswith_slash in He.
      destruct (rev a) as [| c r] eqn:Hr; [discriminate |].
      apply Ascii.eqb_eq in He. subst c.
      exists (rev r). rewrite <- (rev_involutive a), Hr. reflexivity.
    + exists (a ++ [slash]). split; [now rewrite <- app_assoc |].
      right. now exists a.
Qed.

Lemma abspath_name cwd (dir name : str) :
  plain name ->
  basename (abspath cwd (dir ++ slash :: name)) = name.
Proof.
  intros Hplain. unfold abspath.
  match goal with
  | |- context [normpath ?e] => set (p := e)
  end.
  assert (Hform : exists x, p = x ++ slash :: name).
  { unfold p.
    destruct (startswith (lit "/") (dir ++ slash :: name)) eqn:Habs.
    - now exists dir.
    - destruct (join_form cwd _ Habs) as (h & -> & _).
      exists (h ++ dir). now rewrite <- app_assoc. }
  destruct Hform as [x ->].
  destruct (normpath_name x name Hplain) as (h & -> & Hh).
  apply basename_after; [apply Hplain | exact Hh].
Qed.

(** *** The first occurrence replaced *)

Lemma replace_first (old new : str) (a b : str) :
  old <> [] ->
  (forall j, j < length a ->
             startswith old (skipn j (a ++ old ++ b)) = false) ->
  replace_from old new 0 (a ++ old ++ b)
  = a ++ new ++ replace_from old new 0 b.
Proof.
  intros Hne. induction a as [| c a IH]; intros Hbefore.
  - cbn [app]. now apply replace_head.
  - cbn [app replace_from].
    pose proof (Hbefore 0 ltac:(cbn [length]; lia)) as H0.
    cbn [skipn app] in H0. rewrite H0. f_equal. apply IH.
    intros j Hj. apply (Hbefore (S j)). cbn [length]. lia.
Qed.

Lemma replace_from_nil (old new : str) n : replace_from old new n [] = [].
Proof. now destruct n. Qed.

End ImagePathFacts.

Module ImagePathTheorems.
Import Str StrFacts PosixPath FileNames PathFacts ImagePathFacts.
Local Open Scope string_scope.
Local Open Scope list_scope.
Local Open Scope nat_scope.

Notation slash := ("/"%char).

Lemma raw_name_plain (stem : str) :
  ~ In slash stem -> plain (stem ++ lit ".raw").
Proof.
  intros Hno. unfold plain. split; [| split; [| split]].
  - intros Hin. apply in_app_or in Hin. destruct Hin as [Hin | Hin];
      [now apply Hno |].
    cbn in Hin. repeat (destruct Hin as [Hin | Hin]; [discriminate |]).
    exact Hin.
  - destruct stem; discriminate.
  - intros Heq. apply (f_equal (@length _)) in Heq.
    rewrite length_app in Heq. cbn in Heq. lia.
  - intros Heq. apply (f_equal (@length _)) in Heq.
    rewrite length_app in Heq. cbn in Heq. lia.
Qed.

Lemma image_file_name (stem : str) :
  (forall j, j < length stem ->
             startswith (lit ".raw") (skipn j (stem ++ lit ".raw"))
             = false) ->
  replace (lit ".raw") (lit ".png") (stem ++ lit ".raw")
  = stem ++ lit ".png".
Proof.
  intros Hbefore.
  change (replace (lit ".raw") (lit ".png") (stem ++ lit ".raw"))
    with (replace_from (lit ".raw") (lit ".png") 0 (stem ++ lit ".raw")).
  rewrite <- (app_nil_r (lit ".raw")) at 2.
  rewrite replace_first.
  - cbn [replace_from]. now rewrite app_nil_r.
  - discriminate.
  - intros j Hj. rewrite app_nil_r. now apply Hbefore.
Qed.

(** X21: the image of a raw file [stem.raw] in some directory, when an
    output directory is given: the file [stem.png] in the output
    directory, whatever the working directory. *)
Theorem image_path_in_output_directory
        (cwd dir stem output_path : str) :
  ~ In slash stem ->
  (forall j, j < length stem ->
             startswith (lit ".raw") (skipn j (stem ++ lit ".raw"))
             = false) ->
  generate_image_file_path cwd (dir ++ slash :: stem ++ lit ".raw")
                           (Some output_path)
  = join output_path (stem ++ lit ".png").
Proof.
  intros Hno Hbefore. unfold generate_image_file_path. cbv zeta.
  rewrite (abspath_name cwd dir _ (raw_name_plain stem Hno)).
  now rewrite image_file_name.
Qed.

(** X22: with or without an output directory, the image path of a raw file
    [stem.raw] has the file name [stem.png]. *)
Theorem image_path_file_name
        (cwd dir stem : str) (output_path : option str) :
  ~ In slash stem ->
  (forall j, j < length stem ->
             startswith (lit ".raw") (skipn j (stem ++ lit ".raw"))
             = false) ->
  basename
    (generate_image_file_path cwd (dir ++ slash :: stem ++ lit ".raw")
                              output_path)
  = stem ++ lit ".png".
Proof.
  intros Hno Hbefore.
  unfold generate_image_file_path. cbv zeta.
  rewrite (abspath_name cwd dir _ (raw_name_plain stem Hno)).
  rewrite image_file_name by exact Hbefore.
  assert (Hpng : ~ In slash (stem ++ lit ".png")).
  { intros Hin. apply in_app_or in Hin. destruct Hin as [Hin | Hin];
      [now apply Hno |].
    cbn in Hin. repeat (destruct Hin as [Hin | Hin]; [discriminate |]).
    exact Hin. }
  assert (Hrel : startswith (lit "/") (stem ++ lit ".png") = false).
  { destruct (startswith (lit "/") (stem ++ lit ".png")) eqn:Hs;
      [| reflexivity].
    exfalso. apply Hpng. apply (startswith_In _ _ slash Hs). now left. }
  match goal with
  | |- basename (join ?o _) = _ =>
      destruct (join_form o (stem ++ lit ".png") Hrel) as (h & Hj & Hh);
      rewrite Hj
  end.
  now apply basename_after.
Qed.

Lemma no_raw_in_stem j :
  j < length (lit "OOI-D20141211-T214622") ->
  startswith (lit ".raw")
             (skipn j (lit "OOI-D20141211-T214622" ++ lit ".raw")) = false.
Proof.
  intros Hj.
  do 21 (destruct j as [| j]; [reflexivity |]).
  cbn in Hj. lia.
Qed.

Lemma stem_without_slash : ~ In slash (lit "OOI-D20141211-T214622").
Proof.
  vm_compute. intros H.
  repeat (destruct H as [H | H]; [discriminate |]). exact H.
Qed.

Lemma image_path_in_output_directory_witness :
  generate_image_file_path
    (lit "/home/user")
    (lit "data/2014" ++ slash :: lit "OOI-D20141211-T214622" ++ lit ".raw")
    (Some (lit "/out"))
  = join (lit "/out") (lit "OOI-D20141211-T214622" ++ lit ".png").
Proof.
  apply (image_path_in_output_directory
           (lit "/home/user") (lit "data/2014")
           (lit "OOI-D20141211-T214622") (lit "/out")).
  - exact stem_without_slash.
  - exact no_raw_in_stem.
Defined.

Lemma image_path_file_name_witness :
  basename
    (generate_image_file_path
       (lit "/home/user")
       (lit "data/2014" ++ slash :: lit "OOI-D20141211-T214622"
        ++ lit ".raw") None)
  = lit "OOI-D20141211-T214622" ++ lit ".png".
Proof.
  apply (image_path_file_name
           (lit "/home/user") (lit "data/2014")
           (lit "OOI-D20141211-T214622") None).
  - exact stem_without_slash.
  - exact no_raw_in_stem.
Defined.

End ImagePathTheorems.

(** ** The configuration datagram *)

Module HeaderTheorems.
Import RawFile SampleDecoder Scanner Header ScannerFacts ScannerRuns.
Import SampleDecoderBounds.
Local Open Scope nat_scope.

Section ReadHeader.
Variables (DATAGRAM_HEADER_SIZE CONFIG_HEADER_SIZE
           CONFIG_TRANSDUCER_SIZE : nat).
Variables (config_header config_transducer : Type).
Variable read_config_header : list byte -> option config_header.
Variable read_config_transducer : list byte -> option config_transducer.
Variable transducer_count : config_header -> Z.

Notation read_transducers :=
  (read_transducers CONFIG_TRANSDUCER_SIZE config_transducer
                    read_config_transducer).

Lemma read_transducers_count raw n :
  forall byte_cnt ts cnt,
    read_transducers raw n byte_cnt = Some (ts, cnt) ->
    length ts = n /\ cnt = byte_cnt + n * CONFIG_TRANSDUCER_SIZE.
Proof.
  induction n as [| n IH]; intros byte_cnt ts cnt; cbn [Header.read_transducers].
  - intros [= <- <-]. split; [reflexivity | lia].
  - destruct (read_config_transducer _) as [t |]; [| discriminate].
    destruct (read_transducers raw n (byte_cnt + CONFIG_TRANSDUCER_SIZE))
      as [[ts' cnt'] |] eqn:Hrest; [| discriminate].
    intros [= <- <-]. apply IH in Hrest. destruct Hrest as [Hlen ->].
    cbn [length]. split; [now rewrite Hlen | lia].
Qed.

End ReadHeader.

(** X23: when [read_header] returns, it has read as many transducer blocks
    as the header counts (none for a negative count), both length
    fields hold the size of the datagram, the datagram lies within the
    first block read, and the file is left right after its trailing
    length. *)
Theorem read_header_accepts
        (DATAGRAM_HEADER_SIZE CONFIG_HEADER_SIZE
         CONFIG_TRANSDUCER_SIZE : nat)
        (config_header config_transducer : Type)
        (read_config_header : list byte -> option config_header)
        (read_config_transducer : list byte -> option config_transducer)
        (transducer_count : config_header -> Z)
        (filehandle : file) header transducers f' :
  read_header DATAGRAM_HEADER_SIZE CONFIG_HEADER_SIZE
              CONFIG_TRANSDUCER_SIZE config_header config_transducer
              read_config_header read_config_transducer transducer_count
              filehandle
  = inr (header, transducers, f') ->
  let n := Z.to_nat (transducer_count header) in
  let size := DATAGRAM_HEADER_SIZE + CONFIG_HEADER_SIZE
              + n * CONFIG_TRANSDUCER_SIZE in
  let raw := firstn BLOCK_SIZE (rest filehandle) in
  length transducers = n /\
  unpack_from_l raw 0 = Some (Z.of_nat size) /\
  unpack_from_l raw (LENGTH_SIZE + size) = Some (Z.of_nat size) /\
  LENGTH_SIZE + size + LENGTH_SIZE <= length raw /\
  length raw <= BLOCK_SIZE /\
  content f' = content filehandle /\
  pos f' = LENGTH_SIZE + size + LENGTH_SIZE.
Proof.
  unfold read_header, read. cbv zeta.
  set (raw := firstn BLOCK_SIZE (rest filehandle)).
  assert (HL : LENGTH_SIZE = 4) by reflexivity.
  destruct (unpack_from_l raw 0) as [length1 |] eqn:H1; [| discriminate].
  destruct (read_config_header _) as [ch |]; [| discriminate].
  destruct (Header.read_transducers _ _ _ raw _ _)
    as [[ts cnt] |] eqn:Hts; [| discriminate].
  apply read_transducers_count in Hts. destruct Hts as [Hlen Hcnt].
  destruct (unpack_from_l raw cnt) as [length2 |] eqn:H2;
    [| discriminate].
  destruct ((length1 =? length2)%Z
            && (length2 =? Z.of_nat cnt - Z.of_nat LENGTH_SIZE)%Z)
    eqn:Hsame; [| discriminate].
  apply andb_true_iff in Hsame. destruct Hsame as [He1 He2].
  apply Z.eqb_eq in He1. apply Z.eqb_eq in He2.
  unfold seek. cbn [content].
  destruct (Z.ltb_spec (Z.of_nat (cnt + LENGTH_SIZE)) 0); [lia |].
  intros [= <- <- <-]. cbn [content pos].
  assert (Hraw : cnt + 4 <= length raw).
  { unfold unpack_from_l in H2.
    destruct (Nat.leb_spec (cnt + 4) (length raw)); [lia | discriminate]. }
  split; [exact Hlen |].
  replace (LENGTH_SIZE + (DATAGRAM_HEADER_SIZE + CONFIG_HEADER_SIZE
                          + Z.to_nat (transducer_count ch)
                            * CONFIG_TRANSDUCER_SIZE))
    with cnt by lia.
  replace (Z.of_nat (DATAGRAM_HEADER_SIZE + CONFIG_HEADER_SIZE
                     + Z.to_nat (transducer_count ch)
                       * CONFIG_TRANSDUCER_SIZE))
    with (Z.of_nat cnt - Z.of_nat LENGTH_SIZE)%Z by lia.
  split; [congruence |]. split; [congruence |].
  split; [lia |].
  split; [unfold raw; rewrite length_firstn; lia |].
  split; [reflexivity |].
  rewrite Nat2Z.id. reflexivity.
Qed.

(** The file is left at least eight bytes on. *)
Lemma read_header_moves
      (DATAGRAM_HEADER_SIZE CONFIG_HEADER_SIZE
       CONFIG_TRANSDUCER_SIZE : nat)
      (config_header config_transducer : Type)
      (read_config_header : list byte -> option config_header)
      (read_config_transducer : list byte -> option config_transducer)
      (transducer_count : config_header -> Z)
      (filehandle : file) header transducers f' :
  read_header DATAGRAM_HEADER_SIZE CONFIG_HEADER_SIZE
              CONFIG_TRANSDUCER_SIZE config_header config_transducer
              read_config_header read_config_transducer transducer_count
              filehandle
  = inr (header, transducers, f') ->
  content f' = content filehandle /\ 4 <= pos f'.
Proof.
  unfold read_header, read, seek. cbv zeta.
  destruct (unpack_from_l _ 0); [| discriminate].
  destruct (read_config_header _); [| discriminate].
  destruct (Header.read_transducers _ _ _ _ _ _) as [[ts cnt] |];
    [| discriminate].
  destruct (unpack_from_l _ cnt); [| discriminate].
  destruct (_ && _); [| discriminate].
  destruct (Z.ltb_spec (Z.of_nat (cnt + LENGTH_SIZE)) 0); [lia |].
  intros [= _ _ <-]. cbn [content pos]. split; [reflexivity |].
  assert (HL : LENGTH_SIZE = 4) by reflexivity. lia.
Qed.

(** X24: after the header has been read from the start of a file, the scan
    of the rest never fails to seek: it ends at the end of the file,
    with the [IndexError] of a datagram cut short, or with the
    [KeyError] of the aggregator. *)
Theorem scan_after_header
        (DATAGRAM_HEADER_SIZE CONFIG_HEADER_SIZE
         CONFIG_TRANSDUCER_SIZE : nat)
        (config_header config_transducer : Type)
        (read_config_header : list byte -> option config_header)
        (read_config_transducer : list byte -> option config_transducer)
        (transducer_count : config_header -> Z)
        SAMPLE_MATCHER file_time relpath
        (bs : list byte) header transducers f' :
  read_header DATAGRAM_HEADER_SIZE CONFIG_HEADER_SIZE
              CONFIG_TRANSDUCER_SIZE config_header config_transducer
              read_config_header read_config_transducer transducer_count
              (mkFile bs 0)
  = inr (header, transducers, f') ->
  content f' = bs /\
  exists p,
    let r := parse_loop SAMPLE_MATCHER file_time relpath
                        (transducer_count header) bs (tell f') in
    r = Some (Finished p) \/ r = Some (Raised SampleDecoder.IndexError p)
    \/ r = Some (Raised SampleDecoder.KeyError p).
Proof.
  intros Hread.
  destruct (read_header_moves _ _ _ _ _ _ _ _ _ _ _ _ Hread)
    as [Hcontent Hpos].
  cbn [content] in Hcontent.
  split; [exact Hcontent |]. cbv zeta. unfold parse_loop.
  destruct (scan SAMPLE_MATCHER file_time relpath
                 (transducer_count header) (S (length bs))
                 (mkFile bs (tell f'))
                 (mkProgress (PingAggregator.initial
                                (transducer_count header)) [] []))
    as [r |] eqn:Hscan.
  - apply scan_ends in Hscan; [| exact Hpos].
    destruct Hscan as [p [-> | [-> | ->]]]; eauto.
  - exfalso. revert Hscan. apply scan_total. cbn [content pos]. lia.
Qed.

End HeaderTheorems.

Module HeaderExample.
Import RawFile SampleDecoder Scanner Header HeaderTheorems.
Local Open Scope nat_scope.

(** A configuration datagram for readers of one byte for the header,
    which holds the transducer count, and of two bytes for each
    transducer: 12 bytes of datagram header, the count 2, two
    transducer blocks, between two length fields of 17. *)
Lemma read_header_accepts_witness :
  let read_config_header (chunk : list byte) :=
    match chunk with
    | [b] => Some (Z.of_N (Byte.to_N b))
    | _ => None
    end in
  let read_config_transducer (chunk : list byte) :=
    if length chunk =? 2 then Some chunk else None in
  let bs := [Byte.x11; Byte.x00; Byte.x00; Byte.x00]
            ++ repeat Byte.x00 12 ++ [Byte.x02]
            ++ [Byte.x01; Byte.x02; Byte.x03; Byte.x04]
            ++ [Byte.x11; Byte.x00; Byte.x00; Byte.x00] in
  read_header 12 1 2 Z (list byte) read_config_header
              read_config_transducer (fun count => count) (mkFile bs 0)
  = inr (2%Z, [[Byte.x01; Byte.x02]; [Byte.x03; Byte.x04]], mkFile bs 25)
  /\ pos (mkFile bs 25) = LENGTH_SIZE + (12 + 1 + 2 * 2) + LENGTH_SIZE.
Proof.
  cbv zeta.
  set (bs := [Byte.x11; Byte.x00; Byte.x00; Byte.x00]
             ++ repeat Byte.x00 12 ++ [Byte.x02]
             ++ [Byte.x01; Byte.x02; Byte.x03; Byte.x04]
             ++ [Byte.x11; Byte.x00; Byte.x00; Byte.x00]).
  split; [vm_compute; reflexivity |].
  refine (proj2 (proj2 (proj2 (proj2 (proj2 (proj2
            (read_header_accepts 12 1 2 Z (list byte)
               (fun chunk => match chunk with
                             | [b] => Some (Z.of_N (Byte.to_N b))
                             | _ => None
                             end)
               (fun chunk => if length chunk =? 2 then Some chunk
                             else None)
               (fun count => count)
               (mkFile bs 0) 2%Z
               [[Byte.x01; Byte.x02]; [Byte.x03; Byte.x04]]
               (mkFile bs 25) _))))))).
  vm_compute. reflexivity.
Defined.

Lemma scan_after_header_witness :
  let read_config_header (chunk : list byte) :=
    match chunk with
    | [b] => Some (Z.of_N (Byte.to_N b))
    | _ => None
    end in
  let read_config_transducer (chunk : list byte) :=
    if length chunk =? 2 then Some chunk else None in
  let bs := [Byte.x11; Byte.x00; Byte.x00; Byte.x00]
            ++ repeat Byte.x00 12 ++ [Byte.x02]
            ++ [Byte.x01; Byte.x02; Byte.x03; Byte.x04]
            ++ [Byte.x11; Byte.x00; Byte.x00; Byte.x00] in
  exists p,
    let r := parse_loop is_RAW0 "20141211214622"
                        "OOI-D20141211-T214622.png" 2 bs 25 in
    r = Some (Finished p) \/ r = Some (Raised IndexError p)
    \/ r = Some (Raised KeyError p).
Proof.
  cbv zeta.
  set (bs := [Byte.x11; Byte.x00; Byte.x00; Byte.x00]
             ++ repeat Byte.x00 12 ++ [Byte.x02]
             ++ [Byte.x01; Byte.x02; Byte.x03; Byte.x04]
             ++ [Byte.x11; Byte.x00; Byte.x00; Byte.x00]).
  refine (proj2 (scan_after_header 12 1 2 Z (list byte)
                   (fun chunk => match chunk with
                                 | [b] => Some (Z.of_N (Byte.to_N b))
                                 | _ => None
                                 end)
                   (fun chunk => if length chunk =? 2 then Some chunk
                                 else None)
                   (fun count => count)
                   is_RAW0 "20141211214622" "OOI-D20141211-T214622.png"
                   bs 2%Z [[Byte.x01; Byte.x02]; [Byte.x03; Byte.x04]]
                   (mkFile bs 25) _)).
  vm_compute. reflexivity.
Defined.

End HeaderExample.

(** ** The power matrices *)

Module PowerMatrixTheorems.
Import SvConverter SvConverterFacts PingAggregator Dict DictFacts.
Import PingAggregatorFacts PingAggregatorPings PowerMatrix.
Local Open Scope nat_scope.

(** X25: the columns kept for a channel, when each holds [K] samples, become
    a matrix of [K] range samples by one column for each time of the
    time series, whose entry at range [k] and ping [ping] is
    [x * 10 * log10(2) / 256] for the sample [x] at place [k] of column
    [ping]. *)
Theorem power_matrix_shape {F : Type} `{FloatOps F}
        file_time relpath transducer_count samples st c columns K :
  feed file_time relpath transducer_count
       (initial transducer_count) samples = Some st ->
  get c (power_data_dict st) = Some columns ->
  Forall (fun column => length column = K) columns ->
  exists a : array2 F,
    to_dB columns = Matrix a /\
    nrows a = K /\ ncols a = length (data_times st) /\
    well_shaped a /\
    forall k ping,
      k < K -> ping < length (data_times st) ->
      let x := nth k (nth ping columns []) 0%Z in
      at2 a k ping
      = div (mul (mul (of_int x) (of_int 10)) (log10 (of_int 2)))
            (of_int 256).
Proof.
  intros Hfeed Hget Hall.
  assert (Hlen : length columns = length (data_times st)).
  { apply (columns_feed file_time relpath transducer_count samples
             (initial transducer_count) st
             (invariant_initial transducer_count)
             ltac:(intros c' cols'; discriminate) Hfeed c columns Hget). }
  assert (Hinv : invariant transducer_count st).
  { eapply invariant_feed; [apply invariant_initial | exact Hfeed]. }
  assert (Hne : data_times st <> []).
  { pose proof (captured _ _ Hinv) as Hcap.
    destruct (particle_data st); [tauto |].
    destruct Hcap as [_ Hpd]. rewrite Hpd in Hget. discriminate. }
  destruct columns as [| first columns'].
  { destruct (data_times st); [now contradiction Hne | discriminate]. }
  unfold to_dB.
  set (columns := first :: columns') in *.
  assert (Hfirst : length first = K).
  { unfold columns in Hall. now inversion Hall. }
  assert (Hrect : forallb (fun col => length col =? length first) columns
                  = true).
  { apply forallb_forall. intros col Hin. rewrite Forall_forall in Hall.
    apply Nat.eqb_eq. rewrite (Hall col Hin). now symmetry. }
  rewrite Hrect, Hfirst.
  set (g := fun ping k => decompress (nth k (nth ping columns []) 0%Z)).
  assert (Htab : mkArray (length columns) K (map (map decompress) columns)
                 = tabulate (length columns) K g).
  { unfold tabulate. f_equal.
    apply (nth_ext _ _ [] []).
    - now rewrite !length_map, length_seq.
    - intros i Hi. rewrite length_map in Hi.
      rewrite (nth_indep _ [] (map decompress []))
        by (now rewrite length_map).
      rewrite (map_nth (map decompress)).
      rewrite (nth_indep _ [] ((fun i => map (g i) (seq 0 K)) 0))
        by (now rewrite length_map, length_seq).
      rewrite (map_nth (fun i => map (g i) (seq 0 K))).
      rewrite seq_nth by exact Hi. cbn [Nat.add].
      assert (Hcol : length (nth i columns []) = K).
      { rewrite Forall_forall in Hall. apply Hall. now apply nth_In. }
      apply (nth_ext _ _ (decompress 0%Z) (decompress 0%Z)).
      + now rewrite !length_map, length_seq.
      + intros k Hk. rewrite length_map in Hk.
        rewrite (map_nth decompress).
        rewrite (nth_indep _ (decompress 0%Z) (g i 0))
          by (rewrite length_map, length_seq; lia).
        rewrite (map_nth (g i)).
        rewrite seq_nth by lia. reflexivity. }
  rewrite Htab, transpose_tabulate.
  eexists. split; [reflexivity |].
  split; [reflexivity |]. split; [exact Hlen |].
  split; [apply well_shaped_tabulate |].
  intros k ping Hk Hping. cbv zeta.
  rewrite at2_tabulate by lia. reflexivity.
Qed.

End PowerMatrixTheorems.

Module PowerMatrixExample.
Import SvConverter SampleDecoder PingAggregator Dict PowerMatrix.
Import PowerMatrixTheorems.
Import RealArith.
Import Reals.
Local Open Scope nat_scope.

Lemma power_matrix_shape_witness :
  exists (st : state) (a : array2 R),
    feed "20141211214622" "OOI-D20141211-T214622.png" 1 (initial 1)
         [mkSample 1 (Float64.of_Z 100) [] [5; 6]%Z;
          mkSample 1 (Float64.of_Z 101) [] [7; 8]%Z] = Some st /\
    to_dB [[5; 6]; [7; 8]]%Z = Matrix a /\
    nrows a = 2 /\ ncols a = length (data_times st) /\
    at2 a 1 0
    = Rdiv (Rmult (Rmult (IZR 6) (IZR 10))
                  (Rdiv (ln (IZR 2)) (ln (IZR 10))))
           (IZR 256).
Proof.
  eexists.
  destruct (power_matrix_shape (F := R)
              "20141211214622" "OOI-D20141211-T214622.png" 1
              [mkSample 1 (Float64.of_Z 100) [] [5; 6]%Z;
               mkSample 1 (Float64.of_Z 101) [] [7; 8]%Z]
              _ 1%Z [[5; 6]; [7; 8]]%Z 2
              ltac:(vm_compute; reflexivity)
              ltac:(vm_compute; reflexivity)
              ltac:(repeat constructor))
    as (a & Hdb & Hrows & Hcols & _ & Hentry).
  exists a. split; [reflexivity |].
  split; [exact Hdb |]. split; [exact Hrows |]. split; [exact Hcols |].
  exact (Hentry 1 0 (le_n 2) (le_S 1 1 (le_n 1))).
Defined.

End PowerMatrixExample.
